(** * Selection semantics of [VertexSeq] and [EdgeSeq] (python-igraph)

    A shallow embedding of [VertexSeq.select], [VertexSeq.find],
    [EdgeSeq.select] and [EdgeSeq.find] of [src/igraph/__init__.py],
    together with the Python values, the keyword parser and the parts of the
    C extension (the graph engine) that these methods call. *)

From Stdlib Require Import ZArith List String Ascii Bool Arith Lia.
From Stdlib Require Import Permutation Sorted Mergesort.
Import ListNotations.

Local Open Scope list_scope.

(** ** Exceptions and the error monad *)

(** The exceptions the selection code can end with, under the names the
    specification gives them. *)
Inductive error : Type :=
| UnsupportedOperator  (* RuntimeError("unsupported for undirected graphs") *)
| InvalidOperand       (* ValueError("_between selector requires two vertex ID lists") *)
| NotFound             (* ValueError("no such edge"), ValueError("no such vertex") *)
| IndexOutOfRange      (* IndexError *)
| AttributeNotFound    (* KeyError on an attribute, AttributeError on a method *)
| TypeMismatch.        (* TypeError *)

Inductive result (A : Type) : Type :=
| Ok (a : A)
| Err (e : error).

Arguments Ok {A} a.
Arguments Err {A} e.

Definition bind {A B : Type} (c : result A) (k : A -> result B) : result B :=
  match c with
  | Ok a => k a
  | Err e => Err e
  end.

Notation "x <- c ;; k" := (bind c (fun x => k))
  (at level 61, c at next level, right associativity).

Fixpoint mapM {A B : Type} (f : A -> result B) (l : list A) : result (list B) :=
  match l with
  | [] => Ok []
  | x :: xs => y <- f x ;; ys <- mapM f xs ;; Ok (y :: ys)
  end.

(** [[x for x in l if p(x)]] where [p] may raise. *)
Fixpoint filterM {A : Type} (p : A -> result bool) (l : list A) : result (list A) :=
  match l with
  | [] => Ok []
  | x :: xs => b <- p x ;; ys <- filterM p xs ;; Ok (if b then x :: ys else ys)
  end.

(** [[i for i, x in enumerate(l) if p(x)]], counting from [i]. *)
Fixpoint enumerate_from {A : Type} (i : nat) (p : A -> result bool) (l : list A)
  : result (list nat) :=
  match l with
  | [] => Ok []
  | x :: xs =>
      b <- p x ;; js <- enumerate_from (S i) p xs ;; Ok (if b then i :: js else js)
  end.

Definition comprehension {A : Type} (p : A -> result bool) (l : list A)
  : result (list nat) :=
  enumerate_from 0 p l.

(** ** Python values *)

(** The values that occur as attribute values and as operands of keyword
    arguments: [None], integers, strings, lists (tuples are read as lists)
    and sets. *)
#[warnings="-register-all"]
Inductive val : Type :=
| VNone
| VInt (z : Z)
| VStr (s : string)
| VList (l : list val)
| VSet (l : list val).

(** [a == b] *)
Fixpoint py_eq (a b : val) : bool :=
  match a, b with
  | VNone, VNone => true
  | VInt x, VInt y => Z.eqb x y
  | VStr s, VStr t => String.eqb s t
  | VList la, VList lb =>
      (fix go (la lb : list val) {struct la} : bool :=
         match la, lb with
         | [], [] => true
         | x :: xs, y :: ys => py_eq x y && go xs ys
         | _, _ => false
         end) la lb
  | VSet la, VSet lb =>
      forallb (fun x => existsb (fun y => py_eq x y) lb) la
      && forallb (fun y => existsb (fun x => py_eq x y) la) lb
  | _, _ => false
  end.

Inductive ordering : Type := OLt | OGt | OLe | OGe.

Definition order_Z (o : ordering) (x y : Z) : bool :=
  match o with
  | OLt => Z.ltb x y
  | OGt => Z.ltb y x
  | OLe => Z.leb x y
  | OGe => Z.leb y x
  end.

Definition order_string (o : ordering) (s t : string) : bool :=
  match o with
  | OLt => String.ltb s t
  | OGt => String.ltb t s
  | OLe => String.leb s t
  | OGe => String.leb t s
  end.

Definition subset (la lb : list val) : bool :=
  forallb (fun x => existsb (fun y => py_eq x y) lb) la.

(** Sets are ordered by inclusion. *)
Definition order_set (o : ordering) (la lb : list val) : bool :=
  match o with
  | OLt => subset la lb && negb (subset lb la)
  | OGt => subset lb la && negb (subset la lb)
  | OLe => subset la lb
  | OGe => subset lb la
  end.

(** [a < b], [a > b], [a <= b], [a >= b]; a [TypeError] between values of
    different kinds and on [None]. Lists compare at their first differing
    item, then by length. *)
Fixpoint py_order (o : ordering) (a b : val) : result bool :=
  match a, b with
  | VInt x, VInt y => Ok (order_Z o x y)
  | VStr s, VStr t => Ok (order_string o s t)
  | VList la, VList lb =>
      (fix go (la lb : list val) {struct la} : result bool :=
         match la, lb with
         | x :: xs, y :: ys => if py_eq x y then go xs ys else py_order o x y
         | _, _ => Ok (order_Z o (Z.of_nat (List.length la)) (Z.of_nat (List.length lb)))
         end) la lb
  | VSet la, VSet lb => Ok (order_set o la lb)
  | _, _ => Err TypeMismatch
  end.

Fixpoint is_substring (s t : string) : bool :=
  String.prefix s t
  || match t with
     | EmptyString => false
     | String _ t' => is_substring s t'
     end.

Definition unhashable (v : val) : bool :=
  match v with
  | VList _ | VSet _ => true
  | _ => false
  end.

(** [a in b] *)
Definition py_in (a b : val) : result bool :=
  match b with
  | VList l => Ok (existsb (fun y => py_eq a y) l)
  | VSet l =>
      match a with
      | VList _ => Err TypeMismatch
      | _ => Ok (existsb (fun y => py_eq a y) l)
      end
  | VStr t =>
      match a with
      | VStr s => Ok (is_substring s t)
      | _ => Err TypeMismatch
      end
  | _ => Err TypeMismatch
  end.

Fixpoint chars (s : string) : list val :=
  match s with
  | EmptyString => []
  | String c s' => VStr (String c EmptyString) :: chars s'
  end.

(** [set(v)]. The set is represented by the list of its items; it is only
    ever iterated to accumulate a union and tested for membership, so the
    multiplicity of an item is immaterial. The items of a list must be
    hashable. *)
Definition py_set (v : val) : result val :=
  match v with
  | VList l => if existsb unhashable l then Err TypeMismatch else Ok (VSet l)
  | VSet l => Ok (VSet l)
  | VStr s => Ok (VSet (chars s))
  | _ => Err TypeMismatch
  end.

(** [len(v)] *)
Definition py_len (v : val) : result nat :=
  match v with
  | VList l | VSet l => Ok (List.length l)
  | VStr s => Ok (String.length s)
  | _ => Err TypeMismatch
  end.

(** [v[i]] *)
Definition py_getitem (v : val) (i : nat) : result val :=
  match v with
  | VList l =>
      match nth_error l i with
      | Some x => Ok x
      | None => Err IndexOutOfRange
      end
  | VStr s =>
      match String.get i s with
      | Some c => Ok (VStr (String c EmptyString))
      | None => Err IndexOutOfRange
      end
  | _ => Err TypeMismatch
  end.

(** [hasattr(value, "__iter__") and not isinstance(value, str)] *)
Definition iterable_not_str (v : val) : bool :=
  match v with
  | VList _ | VSet _ => true
  | _ => false
  end.

(** The items of a set, for [for v in s] and [x in s]. *)
Definition items (s : val) : list val :=
  match s with
  | VList l | VSet l => l
  | _ => []
  end.

(** [x in s] for a set [s] and an integer [x]. *)
Definition member (x : Z) (s : val) : bool :=
  existsb (fun y => py_eq (VInt x) y) (items s).

(** ** The [operators] table *)

Inductive pyfunc : Type :=
| op_lt | op_gt | op_le | op_ge | op_eq | op_ne | op_in | op_notin.

Definition operators : list (string * pyfunc) :=
  [ ("lt", op_lt); ("gt", op_gt); ("le", op_le); ("ge", op_ge);
    ("eq", op_eq); ("ne", op_ne); ("in", op_in); ("notin", op_notin) ]%string.

Fixpoint lookup {A : Type} (k : string) (d : list (string * A)) : option A :=
  match d with
  | [] => None
  | (k', x) :: d' => if String.eqb k k' then Some x else lookup k d'
  end.

(** [func(a, b)] for [func = operators[op]]. *)
Definition call (f : pyfunc) (a b : val) : result bool :=
  match f with
  | op_lt => py_order OLt a b
  | op_gt => py_order OGt a b
  | op_le => py_order OLe a b
  | op_ge => py_order OGe a b
  | op_eq => Ok (py_eq a b)
  | op_ne => Ok (negb (py_eq a b))
  | op_in => py_in a b
  | op_notin => r <- py_in a b ;; Ok (negb r)
  end.

Definition is_op_eq (f : pyfunc) : bool :=
  match f with
  | op_eq => true
  | _ => false
  end.

(** ** Keyword parsing *)

(** [c in s] *)
Fixpoint contains (c : ascii) (s : string) : bool :=
  match s with
  | EmptyString => false
  | String a s' => Ascii.eqb a c || contains c s'
  end.

(** [s.rindex(c)]; [None] stands for the [ValueError]. *)
Fixpoint rindex (c : ascii) (s : string) : option nat :=
  match s with
  | EmptyString => None
  | String a s' =>
      match rindex c s' with
      | Some i => Some (S i)
      | None => if Ascii.eqb a c then Some 0 else None
      end
  end.

(** [s[0:n]] *)
Fixpoint slice_to (n : nat) (s : string) : string :=
  match n, s with
  | S n', String a s' => String a (slice_to n' s')
  | _, _ => EmptyString
  end.

(** [s[n:]] *)
Fixpoint slice_from (n : nat) (s : string) : string :=
  match n, s with
  | S n', String _ s' => slice_from n' s'
  | _, _ => s
  end.

Definition underscore : ascii := "_"%char.

Definition rindex_is_zero (s : string) : bool :=
  match rindex underscore s with
  | Some 0 => true
  | _ => false
  end.

(** [if "_" not in keyword or keyword.rindex("_") == 0: keyword = keyword + "_eq"] *)
Definition with_default_operator (keyword : string) : string :=
  if negb (contains underscore keyword) || rindex_is_zero keyword
  then (keyword ++ "_eq")%string
  else keyword.

(** [s.rpartition(c)], without the separator. *)
Definition rpartition (c : ascii) (s : string) : string * string :=
  match rindex c s with
  | Some pos => (slice_to pos s, slice_from (pos + 1) s)
  | None => (EmptyString, s)
  end.

(** The head of the loop body of [EdgeSeq.select]: the subject [attr], the
    operator name [op] and the function [func]. *)
Definition edge_keyword (keyword : string) : string * string * pyfunc :=
  let keyword := with_default_operator keyword in
  let pos := match rindex underscore keyword with Some p => p | None => 0 end in
  let attr := slice_to pos keyword in
  let op := slice_from (pos + 1) keyword in
  match lookup op operators with
  | Some func => (attr, op, func)
  | None => (keyword, "eq"%string, op_eq)
  end.

(** The head of the loop body of [VertexSeq.select], which splits with
    [rpartition]. *)
Definition vertex_keyword (keyword : string) : string * string * pyfunc :=
  let keyword := with_default_operator keyword in
  let '(attr, op) := rpartition underscore keyword in
  match lookup op operators with
  | Some func => (attr, op, func)
  | None => (keyword, "eq"%string, op_eq)
  end.

(** ** The graph and the graph engine *)

Inductive neimode : Type := OUT | IN | ALL.

(** What the selection code reads of a graph: its directedness, its edge
    list (edge [e] is the [e]-th pair), the attribute store of either element
    kind (one column of values per attribute name) and the graph methods a
    keyword with a leading underscore can name, as one function per element
    kind from the element index to the value the method yields for it. *)
Record graph : Type := {
  is_directed : bool;
  vcount : nat;
  edges : list (nat * nat);
  vertex_attributes : list (string * list val);
  edge_attributes : list (string * list val);
  vertex_methods : list (string * (nat -> val));
  edge_methods : list (string * (nat -> val))
}.

Definition ecount (g : graph) : nat := List.length (edges g).

(** [e.source] and [e.target] of the edge with index [e], the engine's
    [edge_endpoints]. *)
Definition source (g : graph) (e : nat) : nat := fst (nth e (edges g) (0, 0)).
Definition target (g : graph) (e : nat) : nat := snd (nth e (edges g) (0, 0)).

(** Two facts about the run-time that the Python source relies on and does
    not fix itself: the mode [Graph.incident] takes when it is called without
    one, and the order in which a Python [set] of integers is iterated, which
    the language leaves open: [set_iteration l] is the iteration order of the
    set that received the items of [l]; every item comes once. *)
Class Engine : Type := {
  incident_default_mode : neimode;
  set_iteration : list nat -> list nat;
  set_iteration_perm :
    forall l, Permutation (set_iteration l) (nodup Nat.eq_dec l)
}.

Definition touches (g : graph) (mode : neimode) (v : Z) (e : nat) : bool :=
  let s := Z.eqb (Z.of_nat (source g e)) v in
  let t := Z.eqb (Z.of_nat (target g e)) v in
  if is_directed g then
    match mode with
    | OUT => s
    | IN => t
    | ALL => s || t
    end
  else s || t.

(** Modelled from the spec: [Graph.incident(vertex, mode)] of the C
    extension, the engine's incidence query (section 6): the indices of the
    edges that leave [v] ([OUT]), enter [v] ([IN]) or touch [v] ([ALL]); the
    mode is ignored for undirected graphs, as the docstring of
    [Graph.get_inclist] says. The query is total on integers: a vertex
    without edges has none. *)
Definition incident (g : graph) (v : Z) (mode : neimode) : list nat :=
  filter (touches g mode v) (seq 0 (ecount g)).

(** Modelled from the spec: the incidence query on a set of vertex indices
    (section 6, [incident(vertex_index_or_set, mode)]): the edges that
    [incident] gives for a vertex of the set, as an ordered set, that is in
    increasing order and each once. *)
Definition incident_set (g : graph) (vs : list Z) (mode : neimode)
  : list nat :=
  filter (fun e => existsb (fun v => touches g mode v e) vs)
    (seq 0 (ecount g)).

(** An item of a set of vertex indices. *)
Definition vertex_index (v : val) : result Z :=
  match v with
  | VInt z => Ok z
  | _ => Err TypeMismatch
  end.

(** [es.graph.incident(v, mode)] on a Python value: the query takes a
    vertex index or a set of vertex indices. *)
Definition graph_incident (g : graph) (v : val) (mode : neimode)
  : result (list nat) :=
  match v with
  | VInt z => Ok (incident g z mode)
  | VSet l => zs <- mapM vertex_index l ;; Ok (incident_set g zs mode)
  | _ => Err TypeMismatch
  end.

(** ** Element views *)

(** A vertex or edge sequence: the ordered absolute indices it holds. *)
Definition view : Type := list nat.

Fixpoint view_eqb (a b : view) : bool :=
  match a, b with
  | [], [] => true
  | x :: a', y :: b' => Nat.eqb x y && view_eqb a' b'
  | _, _ => false
  end.

(** Modelled from the spec: [is_all()] of the C extension ([is_full],
    section 3): the view is the complete range [0..n-1] in order. *)
Definition is_all (n : nat) (es : view) : bool := view_eqb es (seq 0 n).

(** [es[i]] *)
Definition getitem (es : view) (i : nat) : result nat :=
  match nth_error es i with
  | Some e => Ok e
  | None => Err IndexOutOfRange
  end.

(** Modelled from the spec: [narrow] (section 4.1), what [_VertexSeq.select]
    and [_EdgeSeq.select] of the C extension do with a list of integers:
    local indices into the current view. *)
Definition narrow (es : view) (local_indices : list nat) : result view :=
  mapM (getitem es) local_indices.

(** The positional arguments of [select] and [find]. A callable sees the
    element, here its absolute index. *)
Inductive positional : Type :=
| NoArgs
| ArgNone
| ArgCallable (f : nat -> bool)
| ArgIndices (l : list nat)
| ArgName (s : string).

(** Modelled from the spec: the positional phase (section 4.3),
    [_VertexSeq.select(self, *args)] and [_EdgeSeq.select(self, *args)] of
    the C extension. *)
Definition seq_select (self : view) (args : positional) : result view :=
  match args with
  | NoArgs => Ok self
  | ArgNone => Ok []
  | ArgCallable f => Ok (filter f self)
  | ArgIndices l => narrow self l
  | ArgName _ => Err TypeMismatch
  end.

Definition first (es : view) : result nat :=
  match es with
  | e :: _ => Ok e
  | [] => Err NotFound
  end.

(** Modelled from the spec: [vs[name]] and [es[name]] of the C extension,
    the attribute store's [get] (section 6): the values of an attribute for
    the elements of the view, in view order; an unknown name fails. *)
Definition get_attribute (store : list (string * list val)) (name : string)
  (es : view) : result (list val) :=
  match lookup name store with
  | Some column => Ok (map (fun i => nth i column VNone) es)
  | None => Err AttributeNotFound
  end.

(** Modelled from the spec: [getattr(graph, method)(view)], the engine's
    [invoke] (section 6): one value per element of the view, in view order. *)
Definition invoke (methods : list (string * (nat -> val))) (method : string)
  (es : view) : result (list val) :=
  match lookup method methods with
  | Some f => Ok (map f es)
  | None => Err AttributeNotFound
  end.

(** Modelled from the spec: [_VertexSeq.find(self, *args)] and
    [_EdgeSeq.find(self, *args)] of the C extension: the first element of
    the view that the positional argument selects; a name is looked up in
    the [name] attribute. *)
Definition seq_find (store : list (string * list val)) (self : view)
  (args : positional) : result nat :=
  match args with
  | ArgName s =>
      names <- get_attribute store "name" self ;;
      idxs <- comprehension (fun v => Ok (py_eq v (VStr s))) names ;;
      es <- narrow self idxs ;;
      first es
  | _ => es <- seq_select self args ;; first es
  end.

Notation "' pat <- c ;; k" := (bind c (fun pat => k))
  (at level 61, pat pattern, c at next level, right associativity).

(** [sorted(l)] *)
Definition sorted (l : list nat) : list nat := NatSort.sort l.

Definition in_strings (s : string) (l : list string) : bool :=
  existsb (String.eqb s) l.

(** ** [VertexSeq.select] *)

Section Selection.

Context {E : Engine}.
Variable g : graph.

(** One round of the keyword loop of [VertexSeq.select]. *)
Definition vertex_filter (vs : view) (keyword : string) (value : val)
  : result view :=
  let '(attr, op, func) := vertex_keyword keyword in
  match attr with
  | EmptyString => Err IndexOutOfRange
  | String c method =>
      values <-
        (if Ascii.eqb c underscore
         then invoke (vertex_methods g) method vs
         else get_attribute (vertex_attributes g) attr vs) ;;
      filtered_idxs <- comprehension (fun v => call func v value) values ;;
      narrow vs filtered_idxs
  end.

Fixpoint vertex_keywords (vs : view) (kwds : list (string * val))
  : result view :=
  match kwds with
  | [] => Ok vs
  | (keyword, value) :: rest =>
      vs' <- vertex_filter vs keyword value ;; vertex_keywords vs' rest
  end.

Definition VertexSeq_select (self : view) (args : positional)
  (kwds : list (string * val)) : result view :=
  vs <- seq_select self args ;; vertex_keywords vs kwds.

(** ** [EdgeSeq.select] *)

(** [_ensure_set]; a [VertexSeq] operand is outside the values modelled. *)
Definition ensure_set (value : val) : result val :=
  match value with
  | VSet _ => Ok value
  | _ => py_set value
  end.

(** [candidates = set()], then [candidates.update(es.graph.incident(v))] for
    every [v] of [vs]; the result lists the set in its iteration order. *)
Definition candidates_of (vs : list val) : result (list nat) :=
  ls <- mapM (fun v => graph_incident g v incident_default_mode) vs ;;
  Ok (set_iteration (List.concat ls)).

(** The rewrite of [_source], [_from], [_target] and [_to] on an undirected
    graph. *)
Definition undirected_rewrite (attr op : string) (func : pyfunc) (value : val)
  : result (string * val) :=
  if in_strings attr ["_source"; "_from"; "_target"; "_to"]%string
     && negb (is_directed g)
  then
    if negb (in_strings op ["eq"; "in"]%string) then Err UnsupportedOperator
    else
      value <-
        (if is_op_eq func
         then if iterable_not_str value
              then py_set value
              else py_set (VList [value])
         else Ok value) ;;
      Ok ("_incident"%string, value)
  else Ok (attr, value).

(** The branches [_source]/[_from] ([mode = OUT], [endpoint = source]) and
    [_target]/[_to] ([mode = IN], [endpoint = target]). *)
Definition endpoint_idxs (es : view) (mode : neimode) (endpoint : nat -> nat)
  (op : string) (func : pyfunc) (value : val) : result (list nat) :=
  if is_all (ecount g) es && String.eqb op "eq"
  then inc <- graph_incident g value mode ;; Ok (sorted inc)
  else
    let values := map (fun e => VInt (Z.of_nat (endpoint e))) es in
    value <-
      (if String.eqb op "in" || String.eqb op "notin"
       then ensure_set value
       else Ok value) ;;
    comprehension (fun v => call func v value) values.

Definition incident_idxs (es : view) (value : val) : result (list nat) :=
  value <- ensure_set value ;;
  candidates <- candidates_of (items value) ;;
  if negb (is_all (ecount g) es)
  then comprehension (fun e => Ok (existsb (Nat.eqb e) candidates)) es
  else Ok (sorted candidates).

(** [e.source in value and e.target in value] *)
Definition both_in (value : val) (e : nat) : bool :=
  member (Z.of_nat (source g e)) value && member (Z.of_nat (target g e)) value.

Definition within_idxs (es : view) (value : val) : result (list nat) :=
  value <- ensure_set value ;;
  candidates <- candidates_of (items value) ;;
  if negb (is_all (ecount g) es)
  then
    comprehension
      (fun e => Ok (existsb (Nat.eqb e) candidates && both_in value e)) es
  else
    filterM (fun i => e <- getitem es i ;; Ok (both_in value e)) candidates.

Definition between_test (set1 set2 : val) (e : nat) : bool :=
  (member (Z.of_nat (source g e)) set1 && member (Z.of_nat (target g e)) set2)
  || (member (Z.of_nat (target g e)) set1 && member (Z.of_nat (source g e)) set2).

Definition between_idxs (es : view) (value : val) : result (list nat) :=
  n <- py_len value ;;
  if negb (Nat.eqb n 2) then Err InvalidOperand
  else
    v0 <- py_getitem value 0 ;;
    set1 <- ensure_set v0 ;;
    v1 <- py_getitem value 1 ;;
    set2 <- ensure_set v1 ;;
    candidates <- candidates_of (items set1 ++ items set2) ;;
    if negb (is_all (ecount g) es)
    then comprehension (fun e => Ok (between_test set1 set2 e)) es
    else
      filterM (fun i => e <- getitem es i ;; Ok (between_test set1 set2 e))
        candidates.

(** The [if attr[0] == "_"] part of the loop body, after the rewrite. *)
Definition reserved_idxs (es : view) (attr op : string) (func : pyfunc)
  (value : val) : result (list nat) :=
  if in_strings attr ["_source"; "_from"]%string
  then endpoint_idxs es OUT (source g) op func value
  else if in_strings attr ["_target"; "_to"]%string
  then endpoint_idxs es IN (target g) op func value
  else if String.eqb attr "_incident" then incident_idxs es value
  else if String.eqb attr "_within" then within_idxs es value
  else if String.eqb attr "_between" then between_idxs es value
  else
    values <- invoke (edge_methods g) (slice_from 1 attr) es ;;
    comprehension (fun v => call func v value) values.

(** One round of the keyword loop of [EdgeSeq.select]. *)
Definition edge_filter (es : view) (keyword : string) (value : val)
  : result view :=
  let '(attr, op, func) := edge_keyword keyword in
  match attr with
  | EmptyString => Err IndexOutOfRange
  | String c _ =>
      filtered_idxs <-
        (if Ascii.eqb c underscore
         then
           '(attr, value) <- undirected_rewrite attr op func value ;;
           reserved_idxs es attr op func value
         else
           values <- get_attribute (edge_attributes g) attr es ;;
           comprehension (fun v => call func v value) values) ;;
      narrow es filtered_idxs
  end.

Fixpoint edge_keywords (es : view) (kwds : list (string * val))
  : result view :=
  match kwds with
  | [] => Ok es
  | (keyword, value) :: rest =>
      es' <- edge_filter es keyword value ;; edge_keywords es' rest
  end.

Definition EdgeSeq_select (self : view) (args : positional)
  (kwds : list (string * val)) : result view :=
  es <- seq_select self args ;; edge_keywords es kwds.

End Selection.

(** ** [EdgeSeq.find] and [VertexSeq.find] *)

Section Find.

Context {E : Engine}.
Variable g : graph.

Definition EdgeSeq_find (self : view) (args : positional)
  (kwds : list (string * val)) : result nat :=
  match args with
  | NoArgs =>
      es <- EdgeSeq_select g self NoArgs kwds ;; first es
  | _ =>
      edge <- seq_find (edge_attributes g) self args ;;
      match kwds with
      | [] => Ok edge
      | _ =>
          es <- EdgeSeq_select g (seq 0 (ecount g)) (ArgIndices [edge]) [] ;;
          es <- EdgeSeq_select g es NoArgs kwds ;;
          first es
      end
  end.

(** [kwds.pop(k)], without the value. *)
Fixpoint pop (k : string) (kwds : list (string * val)) : list (string * val) :=
  match kwds with
  | [] => []
  | (k', v) :: rest => if String.eqb k k' then rest else (k', v) :: pop k rest
  end.

(** The shortcut at the head of [VertexSeq.find]: without positional
    arguments, a [name] (or [name_eq]) keyword with a string operand becomes
    the positional argument; any other operand but [None] is put back under
    [name], at the end of [kwds]. *)
Definition name_shortcut (args : positional) (kwds : list (string * val))
  : positional * list (string * val) :=
  match args with
  | NoArgs =>
      let '(name, kwds) :=
        match lookup "name" kwds with
        | Some v => (v, pop "name" kwds)
        | None =>
            match lookup "name_eq" kwds with
            | Some v => (v, pop "name_eq" kwds)
            | None => (VNone, kwds)
            end
        end in
      match name with
      | VNone => (NoArgs, kwds)
      | VStr s => (ArgName s, kwds)
      | _ => (NoArgs, kwds ++ [("name"%string, name)])
      end
  | _ => (args, kwds)
  end.

Definition VertexSeq_find (self : view) (args : positional)
  (kwds : list (string * val)) : result nat :=
  let '(args, kwds) := name_shortcut args kwds in
  match args with
  | NoArgs =>
      vs <- VertexSeq_select g self NoArgs kwds ;; first vs
  | _ =>
      vertex <- seq_find (vertex_attributes g) self args ;;
      match kwds with
      | [] => Ok vertex
      | _ =>
          vs <- VertexSeq_select g (seq 0 (vcount g)) (ArgIndices [vertex]) [] ;;
          vs <- VertexSeq_select g vs NoArgs kwds ;;
          first vs
      end
  end.

End Find.

(** ** A concrete engine *)

(** The slot of a small non-negative integer in the 8-slot table a CPython
    set starts with: its hash is the integer itself. *)
Definition slot (x : nat) : nat := x mod 8.

Fixpoint insert_by (key : nat -> nat) (x : nat) (l : list nat) : list nat :=
  match l with
  | [] => [x]
  | y :: l' => if key x <=? key y then x :: l else y :: insert_by key x l'
  end.

(** The iteration order of a CPython set that holds at most four small
    non-negative integers with distinct slots: by slot. For other sets it
    is one more order in which every item comes once. *)
Definition slot_order (l : list nat) : list nat :=
  fold_right (insert_by slot) [] (nodup Nat.eq_dec l).

Lemma insert_by_perm (key : nat -> nat) (x : nat) (l : list nat) :
  Permutation (insert_by key x l) (x :: l).
Proof.
  induction l as [|y l IH]; simpl.
  - apply Permutation_refl.
  - destruct (key x <=? key y).
    + apply Permutation_refl.
    + apply perm_trans with (y :: x :: l).
      * now apply perm_skip.
      * apply perm_swap.
Qed.

Lemma slot_order_perm (l : list nat) :
  Permutation (slot_order l) (nodup Nat.eq_dec l).
Proof.
  unfold slot_order.
  induction (nodup Nat.eq_dec l) as [|x xs IH]; simpl.
  - apply Permutation_refl.
  - apply perm_trans with (x :: fold_right (insert_by slot) [] xs).
    + apply insert_by_perm.
    + now apply perm_skip.
Qed.

(** The engine with the mode [mode] for [incident] called without one and
    sets iterated by slot. *)
Definition engine (mode : neimode) : Engine :=
  {| incident_default_mode := mode;
     set_iteration := slot_order;
     set_iteration_perm := slot_order_perm |}.

(** The engine of python-igraph on CPython: [Graph.incident(vertex,
    mode="out")]. *)
Definition igraph : Engine := engine OUT.

(** A graph without attributes and methods. *)
Definition bare_graph (directed : bool) (n : nat) (el : list (nat * nat)) : graph :=
  {| is_directed := directed;
     vcount := n;
     edges := el;
     vertex_attributes := [];
     edge_attributes := [];
     vertex_methods := [];
     edge_methods := [] |}.

(** ** The vocabulary of the statements *)

(** What a fallible test keeps. *)
Definition holds {A : Type} (q : A -> result bool) (x : A) : bool :=
  match q x with
  | Ok true => true
  | _ => false
  end.


(** A round of the keyword loop keeps, of whatever view it is given, the
    elements that pass a test that does not depend on the view. The full
    view and its shortcuts make no exception. *)
Definition pointwise (step : view -> result view) : Prop :=
  exists sat : nat -> bool,
    forall es es' : view,
      step es = Ok es' -> forall e, In e es' <-> In e es /\ sat e = true.



(** The edge touches the vertex: it is one of its two endpoints. *)
Definition endpoint_of (g : graph) (e : nat) (v : Z) : Prop :=
  Z.of_nat (source g e) = v \/ Z.of_nat (target g e) = v.

Definition endpoint_subjects : list string :=
  ["_source"; "_from"; "_target"; "_to"]%string.

(** One endpoint of the edge in [set1] and the other in [set2]. *)
Definition between (g : graph) (set1 set2 : list Z) (e : nat) : Prop :=
  (In (Z.of_nat (source g e)) set1 /\ In (Z.of_nat (target g e)) set2)
  \/ (In (Z.of_nat (target g e)) set1 /\ In (Z.of_nat (source g e)) set2).

(** The operand of an equality on an endpoint of a directed graph is a
    vertex index; of the other keywords nothing is asked. On the full view
    this equality hands its operand to the incidence query, which takes a
    set of vertices too, where the scan compares the operand with the
    endpoint of every edge. *)
Definition index_operand (g : graph) (keyword : string) (value : val) : bool :=
  let '(attr, op, _) := edge_keyword keyword in
  if is_directed g && in_strings attr endpoint_subjects && String.eqb op "eq"
  then match value with
       | VInt _ => true
       | _ => false
       end
  else true.

(** The five reserved edge predicates, endpoint equality with the vertex
    index it compares with. *)
Inductive reserved_predicate : Type :=
| IncidentOn (vertex_set : val)
| WithinSet (vertex_set : val)
| BetweenSets (operand : val)
| SourceEq (v : Z)
| TargetEq (v : Z).

Definition keyword_of (p : reserved_predicate) : string * val :=
  match p with
  | IncidentOn s => ("_incident", s)
  | WithinSet s => ("_within", s)
  | BetweenSets o => ("_between", o)
  | SourceEq v => ("_source_eq", VInt v)
  | TargetEq v => ("_target_eq", VInt v)
  end%string.


(** ** Example graphs *)

(** The directed triangle [0 -> 1 -> 2 -> 0]. *)
Definition triangle : graph := bare_graph true 3 [(0, 1); (1, 2); (2, 0)].

(** The undirected triangle. *)
Definition undirected_triangle : graph :=
  bare_graph false 3 [(0, 1); (1, 2); (2, 0)].

(** The undirected graph with the single edge [(0, 1)]. *)
Definition single : graph := bare_graph false 2 [(0, 1)].

(** Nine undirected edges: edges [1] and [8] join vertices [0] and [1], the
    others join [2] and [3]. *)
Definition nine : graph :=
  bare_graph false 4
    [(2, 3); (0, 1); (2, 3); (2, 3); (2, 3); (2, 3); (2, 3); (2, 3); (0, 1)].

(** Vertices [0..2] with [age = [10, 25, 30]] and [ok = [0, 1, 1]]; three
    edges with [w = [1, 10, 10]]. *)
Definition aged : graph :=
  {| is_directed := true;
     vcount := 3;
     edges := [(0, 1); (1, 2); (2, 0)];
     vertex_attributes :=
       [("age", [VInt 10; VInt 25; VInt 30]); ("ok", [VInt 0; VInt 1; VInt 1])]%string;
     edge_attributes := [("w", [VInt 1; VInt 10; VInt 10])]%string;
     vertex_methods := [];
     edge_methods := [] |}.



(** The comparison an operator other than [eq], [in] and [notin] makes on
    two integers. *)
Definition compare_Z (func : pyfunc) (x y : Z) : bool :=
  match func with
  | op_ne => negb (Z.eqb x y)
  | op_lt => Z.ltb x y
  | op_gt => Z.ltb y x
  | op_le => Z.leb x y
  | op_ge => Z.leb y x
  | _ => Z.eqb x y
  end.

Definition comparison_operators : list (string * pyfunc) :=
  [("ne", op_ne); ("lt", op_lt); ("gt", op_gt); ("le", op_le); ("ge", op_ge)]%string.

(** ** [Graph.dfs] *)

(** [l.pop()]: the items before the last one, and the last one; [None] on
    the empty list, which the source tests before it pops. *)
Definition list_pop {A : Type} (l : list A) : option (list A * A) :=
  match rev l with
  | [] => None
  | x :: r => Some (rev r, x)
  end.

(** [l[i] = x]: [IndexError] out of range. *)
Fixpoint setitem {A : Type} (l : list A) (i : nat) (x : A) : result (list A) :=
  match l, i with
  | [], _ => Err IndexOutOfRange
  | _ :: l', 0 => Ok (x :: l')
  | y :: l', S i' => l'' <- setitem l' i' x ;; Ok (y :: l'')
  end.

(** The local variables of [dfs]. The stack has its top, [stack[-1]], at
    the head; a frame holds a vertex and the neighbours of it that are
    still to be looked at, the list [neighbors.pop()] shortens in place. *)
Record dfs_state : Type := {
  stack : list (nat * list nat);
  vids : list nat;
  parents : list nat;
  added : list bool
}.

Section Dfs.

(** [self.neighbors(v, mode=mode)], the engine's adjacency query for the
    mode of the call, and [self.vcount()]. *)
Variable neighbors : nat -> result (list nat).
Variable nv : nat.

(** The four statements that enter a vertex, at the root and in the loop:
    [stack.append((v, self.neighbors(v, mode=mode)))], [vids.append(v)],
    [parents.append(parent)], [added[v] = True]. *)
Definition dfs_visit (st : dfs_state) (v parent : nat) : result dfs_state :=
  ns <- neighbors v ;;
  added' <- setitem (added st) v true ;;
  Ok {| stack := (v, ns) :: stack st;
        vids := vids st ++ [v];
        parents := parents st ++ [parent];
        added := added' |}.

(** The body of [while stack:]. *)
Definition dfs_step (st : dfs_state) : result dfs_state :=
  match stack st with
  | [] => Ok st
  | (vid, ns) :: below =>
      match list_pop ns with
      | Some (rest, neighbor) =>
          let st' := {| stack := (vid, rest) :: below;
                        vids := vids st;
                        parents := parents st;
                        added := added st |} in
          match nth_error (added st) neighbor with
          | None => Err IndexOutOfRange
          | Some true => Ok st'
          | Some false => dfs_visit st' neighbor vid
          end
      | None =>
          Ok {| stack := below;
                vids := vids st;
                parents := parents st;
                added := added st |}
      end
  end.

(** [while stack:] for at most [fuel] rounds, then [return (vids, parents)];
    [None] when the rounds do not suffice. *)
Fixpoint dfs_loop (fuel : nat) (st : dfs_state)
  : option (result (list nat * list nat)) :=
  match stack st with
  | [] => Some (Ok (vids st, parents st))
  | _ :: _ =>
      match fuel with
      | 0 => None
      | S fuel' =>
          match dfs_step st with
          | Ok st' => dfs_loop fuel' st'
          | Err e => Some (Err e)
          end
      end
  end.

Definition dfs (fuel : nat) (vid : nat)
  : option (result (list nat * list nat)) :=
  let st := {| stack := []; vids := []; parents := [];
               added := repeat false nv |} in
  match dfs_visit st vid vid with
  | Ok st' => dfs_loop fuel st'
  | Err e => Some (Err e)
  end.


(** The number of neighbours the engine gives for [v]. *)
Definition neighbor_count (v : nat) : nat :=
  match neighbors v with
  | Ok l => List.length l
  | Err _ => 0
  end.

(** One round for every vertex and one for every neighbour of it. *)
Definition dfs_rounds : nat :=
  list_sum (map (fun v => 1 + neighbor_count v) (seq 0 nv)).

(** A frame holds a visited vertex and the neighbours of it still to be
    looked at; the others have been visited. *)
Definition frame_ok (vs : list nat) (f : nat * list nat) : Prop :=
  In (fst f) vs
  /\ exists seen, neighbors (fst f) = Ok (snd f ++ seen)
                  /\ forall u, In u seen -> In u vs.

(** Every vertex but the first was entered from a vertex visited before
    it, of which it is a neighbour. *)
Definition dfs_tree (vs ps : list nat) : Prop :=
  forall i, 0 < i < List.length vs ->
    exists j l, j < i /\ nth j vs 0 = nth i ps 0
                /\ neighbors (nth i ps 0) = Ok l /\ In (nth i vs 0) l.

Variable root : nat.

Record dfs_inv (st : dfs_state) : Prop := {
  inv_added_length : List.length (added st) = nv;
  inv_added : forall v, nth_error (added st) v = Some true <-> In v (vids st);
  inv_NoDup : NoDup (vids st);
  inv_length : List.length (vids st) = List.length (parents st);
  inv_frames : Forall (frame_ok (vids st)) (stack st);
  inv_left : forall v, In v (vids st) -> ~ In v (map fst (stack st)) ->
             exists l, neighbors v = Ok l /\ forall u, In u l -> In u (vids st);
  inv_root : hd_error (vids st) = Some root /\ hd_error (parents st) = Some root;
  inv_tree : dfs_tree (vids st) (parents st)
}.

(** What is left to do: a round for every frame and for every neighbour in
    it, and as many for every vertex not visited yet as its frame will take. *)
Definition dfs_measure (st : dfs_state) : nat :=
  list_sum (map (fun f => 1 + List.length (snd f)) (stack st))
  + list_sum (map (fun v => match nth_error (added st) v with
                            | Some true => 0
                            | _ => 1 + neighbor_count v
                            end) (seq 0 nv)).

End Dfs.

Arguments inv_added_length {neighbors nv root} st _.
Arguments inv_added {neighbors nv root} st _.
Arguments inv_NoDup {neighbors nv root} st _.
Arguments inv_length {neighbors nv root} st _.
Arguments inv_frames {neighbors nv root} st _.
Arguments inv_left {neighbors nv root} st _.
Arguments inv_root {neighbors nv root} st _.
Arguments inv_tree {neighbors nv root} st _.

(** Modelled from the spec: [Graph.neighbors(v, mode)] of the C extension,
    the engine's adjacency query (section 2), on the edge list: the other
    endpoint of every edge [incident] gives, and an error for a vertex the
    graph does not have. The properties of [dfs] hold for every adjacency
    query; this one runs it on the example graphs. *)
Definition graph_neighbors (g : graph) (mode : neimode) (v : nat)
  : result (list nat) :=
  if Nat.ltb v (vcount g)
  then Ok (map (fun e => if Nat.eqb (source g e) v then target g e
                         else source g e)
             (incident g (Z.of_nat v) mode))
  else Err InvalidOperand.

Definition Graph_dfs (g : graph) (fuel : nat) (vid : nat) (mode : neimode)
  : option (result (list nat * list nat)) :=
  dfs (graph_neighbors g mode) (vcount g) fuel vid.

(** ** [Graph.get_all_simple_paths] *)

(** [l[i:j]] for indices that are not negative. *)
Definition slice {A : Type} (i j : nat) (l : list A) : list A :=
  firstn (j - i) (skipn i l).

(** [for index, item in enumerate(paths)], from [index] on, where [rest]
    is left of [paths], with the local variables [prev] and [result]. *)
Fixpoint simple_paths_loop (paths : list Z) (index : nat) (rest : list Z)
  (prev : nat) (result : list (list Z)) : list (list Z) :=
  match rest with
  | [] => result
  | item :: rest' =>
      if (item <? 0)%Z
      then simple_paths_loop paths (S index) rest' (S index)
             (result ++ [slice prev index paths])
      else simple_paths_loop paths (S index) rest' prev result
  end.

(** [get_all_simple_paths], from the list [paths] that
    [_get_all_simple_paths] of the C extension returns. *)
Definition get_all_simple_paths (paths : list Z) : list (list Z) :=
  simple_paths_loop paths 0 paths 0 [].

(** The paths [ps], each followed by its item of [seps]. *)
Definition terminated (ps : list (list Z)) (seps : list Z) : list Z :=
  List.concat (map (fun '(p, s) => p ++ [s]) (combine ps seps)).

(** ** [Graph.k_core] *)

(** An argument of [k_core]: an integer, or a list or tuple of integers. *)
Inductive core_arg : Type :=
| CoreInt (k : Z)
| CoreList (ks : list Z).

(** What [k_core] returns: the subgraph of one core, or a list of them. The
    graph [self.subgraph(core_idxs)] builds is stood for by [core_idxs]. *)
Inductive cores : Type :=
| OneCore (c : list nat)
| Cores (cs : list (list nat)).

(** [hasattr(arg, "__iter__")] *)
Definition has_iter (arg : core_arg) : bool :=
  match arg with
  | CoreList _ => true
  | CoreInt _ => false
  end.

(** [indices.extend(arg)], which raises for an integer, and then
    [indices.append(arg)]. *)
Definition core_indices (args : list core_arg) : list Z :=
  flat_map (fun arg => match arg with
                       | CoreInt k => [k]
                       | CoreList ks => ks
                       end) args.

Section KCore.

(** [self.coreness()], one value for every vertex, and [self.vcount()]. *)
Variable corenesses : nat -> Z.
Variable nv : nat.

(** [[vidx for vidx in vidxs if corenesses[vidx] >= idx]] *)
Definition core_idxs (idx : Z) : list nat :=
  filter (fun vidx => (idx <=? corenesses vidx)%Z) (seq 0 nv).

Definition k_core (args : list core_arg) : result cores :=
  let '(indices, return_single) :=
    match args with
    | [] => (map Z.of_nat (seq 0 nv), false)
    | _ :: _ => (core_indices args, true)
    end in
  return_single <-
    (if Nat.ltb 1 (List.length indices) then Ok false
     else match args with
          | [] => Err IndexOutOfRange
          | arg :: _ => Ok (if has_iter arg then false else return_single)
          end) ;;
  let result := map core_idxs indices in
  if (return_single : bool) then
    match result with
    | c :: _ => Ok (OneCore c)
    | [] => Err IndexOutOfRange
    end
  else Ok (Cores result).

End KCore.

(** ** [Graph.biconnected_components] *)

Section Biconnected.

Context {E : Engine}.
Variable g : graph.

(** [edgelist[edge_id]], where [edgelist = self.get_edgelist()]. *)
Definition edgelist_item (edge_id : nat) : result (nat * nat) :=
  match nth_error (edges g) edge_id with
  | Some edge => Ok edge
  | None => Err IndexOutOfRange
  end.

(** [cluster = set()], [cluster.update(edgelist[edge_id])] for every
    [edge_id] of [tree], and [sorted(cluster)]. *)
Definition cluster_of (tree : list nat) : result (list nat) :=
  pairs <- mapM edgelist_item tree ;;
  Ok (sorted (set_iteration
                (flat_map (fun edge => [fst edge; snd edge]) pairs))).

(** The vertex lists [biconnected_components] gives to [VertexCover], from
    the edge lists [trees] that [GraphBase.biconnected_components] returns. *)
Definition biconnected_clusters (trees : list (list nat))
  : result (list (list nat)) :=
  match trees with
  | [] => Ok []
  | _ :: _ => mapM cluster_of trees
  end.

End Biconnected.

(** ** [Graph.get_adjacency] *)

(** What is given for [type] and for [attribute]: one of the three
    constants of the C extension, [None], or a string. *)
Inductive adjacency_arg : Type :=
| GET_ADJACENCY_UPPER
| GET_ADJACENCY_LOWER
| GET_ADJACENCY_BOTH
| AdjNone
| AdjName (name : string).

(** What [get_adjacency] returns: the matrix [GraphBase.get_adjacency] of
    the C extension builds for [type], with one taken off every cell when
    [eids] is given, or the [Matrix] of the rows built here. *)
Inductive adjacency : Type :=
| EngineMatrix (type : adjacency_arg) (eids : bool)
| Matrix (data : list (list val)).

Definition is_adjacency_constant (a : adjacency_arg) : bool :=
  match a with
  | GET_ADJACENCY_UPPER | GET_ADJACENCY_LOWER | GET_ADJACENCY_BOTH => true
  | _ => false
  end.

(** [data[i][j] = x] *)
Definition set_cell (data : list (list val)) (i j : nat) (x : val)
  : result (list (list val)) :=
  match nth_error data i with
  | None => Err IndexOutOfRange
  | Some row => row' <- setitem row j x ;; setitem data i row'
  end.

(** [for edge in self.es: body], on the edges [es] that are left. *)
Fixpoint for_edges (body : nat -> list (list val) -> result (list (list val)))
  (es : list nat) (data : list (list val)) : result (list (list val)) :=
  match es with
  | [] => Ok data
  | edge :: es' => data' <- body edge data ;; for_edges body es' data'
  end.

(** [GraphBase.get_adjacency(self, type, eids)] of the C extension, as the
    docstring of [get_adjacency] has it: [type] is one of the three
    constants; anything else is refused, here with [TypeMismatch]. *)
Definition GraphBase_get_adjacency (type : adjacency_arg) (eids : bool)
  : result adjacency :=
  if is_adjacency_constant type then Ok (EngineMatrix type eids)
  else Err TypeMismatch.

(** [get_adjacency(type, attribute, default, eids)]. [ValueError] is
    [InvalidOperand]. *)
Definition get_adjacency (g : graph) (type attribute : adjacency_arg)
  (default : val) (eids : bool) : result adjacency :=
  let '(type, attribute) :=
    if negb (is_adjacency_constant type)
    then (match attribute with
          | AdjNone => GET_ADJACENCY_BOTH
          | _ => attribute
          end, type)
    else (type, attribute) in
  if eids then GraphBase_get_adjacency type true
  else
    match attribute with
    | AdjNone => GraphBase_get_adjacency type false
    | AdjName name =>
        match lookup name (edge_attributes g) with
        | None => Err InvalidOperand
        | Some column =>
            let data := repeat (repeat default (vcount g)) (vcount g) in
            let value edge := nth edge column VNone in
            let es := seq 0 (ecount g) in
            data <-
              (if is_directed g then
                 for_edges (fun edge data =>
                              set_cell data (source g edge) (target g edge)
                                (value edge)) es data
               else
                 match type with
                 | GET_ADJACENCY_BOTH =>
                     for_edges (fun edge data =>
                                  data <- set_cell data (source g edge)
                                            (target g edge) (value edge) ;;
                                  set_cell data (target g edge)
                                    (source g edge) (value edge)) es data
                 | GET_ADJACENCY_UPPER =>
                     for_edges (fun edge data =>
                                  set_cell data
                                    (Nat.min (source g edge) (target g edge))
                                    (Nat.max (source g edge) (target g edge))
                                    (value edge)) es data
                 | _ =>
                     for_edges (fun edge data =>
                                  set_cell data
                                    (Nat.max (source g edge) (target g edge))
                                    (Nat.min (source g edge) (target g edge))
                                    (value edge)) es data
                 end) ;;
            Ok (Matrix data)
        end
    | _ => Err InvalidOperand
    end.

(** [matrix[i][j]] *)
Definition cell (data : list (list val)) (i j : nat) : val :=
  nth j (nth i data []) VNone.

(** An [n] by [n] matrix. *)
Definition square (n : nat) (data : list (list val)) : Prop :=
  List.length data = n /\ Forall (fun row => List.length row = n) data.

(** The endpoints of every edge are vertices of the graph. *)
Definition well_formed (g : graph) : Prop :=
  forall e, e < ecount g -> source g e < vcount g /\ target g e < vcount g.

(** After the loop over [es]: a cell of the matrix holds the value of the
    last edge that writes it, and [default] when there is none. *)
Definition filled (es : list nat) (writes : nat -> nat -> nat -> Prop)
  (value : nat -> val) (default : val) (n : nat) (data : list (list val))
  : Prop :=
  square n data
  /\ forall i j, i < n -> j < n ->
       (forall pre e post,
           es = pre ++ e :: post -> writes e i j ->
           (forall e', In e' post -> ~ writes e' i j) ->
           cell data i j = value e)
       /\ ((forall e, In e es -> ~ writes e i j) -> cell data i j = default).

(** Edge [e] is between the vertices [i] and [j]. *)
Definition joins (g : graph) (e i j : nat) : Prop :=
  (source g e = i /\ target g e = j) \/ (target g e = i /\ source g e = j).

(** Two vertices joined by the edges [0] and [1], with [w = [5, 7]]. *)
Definition weighted_pair : graph :=
  {| is_directed := false;
     vcount := 2;
     edges := [(0, 1); (1, 0)];
     vertex_attributes := [];
     edge_attributes := [("w", [VInt 5; VInt 7])]%string;
     vertex_methods := [];
     edge_methods := [] |}.

(** ** [Graph.DictList]: the vertex attributes *)

(** [try: attrs[k].append((idx, v))], [except KeyError: attrs[k] = [(idx, v)]];
    a new key comes last in the dict. *)
Fixpoint append_indexed (attrs : list (string * list (nat * val)))
  (k : string) (idx : nat) (v : val) : list (string * list (nat * val)) :=
  match attrs with
  | [] => [(k, [(idx, v)])]
  | (k', l) :: rest =>
      if String.eqb k k' then (k', l ++ [(idx, v)]) :: rest
      else (k', l) :: append_indexed rest k idx v
  end.

(** [for i, v in indices: result[i] = v], where [column] is [result]. *)
Fixpoint fill_indices (indices : list (nat * val)) (column : list val)
  : result (list val) :=
  match indices with
  | [] => Ok column
  | (i, v) :: rest => column' <- setitem column i v ;; fill_indices rest column'
  end.

(** The nested function [create_list_from_indices]. *)
Definition create_list_from_indices (indices : list (nat * val)) (n : nat)
  : result (list val) :=
  fill_indices indices (repeat VNone n).

(** [for k, v in vertex_data.items()], on the items that are left. *)
Fixpoint collect_items (attrs : list (string * list (nat * val))) (idx : nat)
  (vertex_data : list (string * val)) : list (string * list (nat * val)) :=
  match vertex_data with
  | [] => attrs
  | (k, v) :: rest => collect_items (append_indexed attrs k idx v) idx rest
  end.

(** [for idx, vertex_data in enumerate(vertices)], from [idx] on, with
    [n += 1] at the end of every round. *)
Fixpoint collect (vertices : list (list (string * val))) (idx : nat)
  (attrs : list (string * list (nat * val))) (n : nat)
  : list (string * list (nat * val)) * nat :=
  match vertices with
  | [] => (attrs, n)
  | vertex_data :: rest =>
      collect rest (S idx) (collect_items attrs idx vertex_data) (S n)
  end.

(** [for k, v in vertex_attrs.items(): vertex_attrs[k] =
    create_list_from_indices(v, n)] *)
Definition columns (attrs : list (string * list (nat * val))) (n : nat)
  : result (list (string * list val)) :=
  mapM (fun kv => column <- create_list_from_indices (snd kv) n ;;
                  Ok (fst kv, column)) attrs.

(** The items of [set(l)], for its length. *)
Fixpoint py_distinct (l : list val) : list val :=
  match l with
  | [] => []
  | x :: rest =>
      if existsb (py_eq x) rest then py_distinct rest
      else x :: py_distinct rest
  end.

(** [DictList] up to the check of the vertex names: [vertex_attrs] and [n]
    as they are when the reverse mapping of the names is made. A dict is the
    list of its items; [KeyError] is [AttributeNotFound], [ValueError] is
    [InvalidOperand]. *)
Definition DictList_vertices (vertices : list (list (string * val)))
  (vertex_name_attr : string) : result (list (string * list val) * nat) :=
  ' (vertex_attrs, n) <-
    match vertices with
    | [] => Ok ([(vertex_name_attr, [])], 0)
    | _ :: _ =>
        let '(attrs, n) := collect vertices 0 [] 0 in
        vertex_attrs <- columns attrs n ;; Ok (vertex_attrs, n)
    end ;;
  vertex_names <-
    match lookup vertex_name_attr vertex_attrs with
    | Some names => Ok names
    | None => Err AttributeNotFound
    end ;;
  if existsb unhashable vertex_names then Err TypeMismatch
  else if negb (Nat.eqb (List.length vertex_names)
                  (List.length (py_distinct vertex_names)))
       then Err InvalidOperand
       else Ok (vertex_attrs, n).

(** [d.get(k)] *)
Definition dict_get (d : list (string * val)) (k : string) : val :=
  match lookup k d with
  | Some v => v
  | None => VNone
  end.

(** ** The cluster count of [community_fastgreedy], [community_walktrap]
    and [community_edge_betweenness] *)

Section Modularity.

(** The modularities the engine returns, with [a > b] and [a == b]. *)
Variable Q : Type.
Variable gt : Q -> Q -> bool.
Variable eq : Q -> Q -> bool.

(** [max(qs)] of a list that starts with [q]: the first item that none
    after it exceeds. *)
Definition py_max (q : Q) (qs : list Q) : Q :=
  fold_left (fun m x => if gt x m then x else m) qs q.

(** [qs.index(x)]; [ValueError] is [NotFound]. *)
Fixpoint py_index (x : Q) (qs : list Q) : result nat :=
  match qs with
  | [] => Err NotFound
  | y :: rest => if eq y x then Ok 0 else i <- py_index x rest ;; Ok (S i)
  end.

(** [optimal_count] of [community_fastgreedy], from the [qs] of the
    engine. *)
Definition community_fastgreedy (qs : list Q) (vcount : nat) : result Z :=
  let diff := (Z.of_nat vcount - Z.of_nat (List.length qs))%Z in
  match rev qs with
  | q :: rest =>
      i <- py_index (py_max q rest) (q :: rest) ;;
      Ok (Z.of_nat i + diff + 1)%Z
  | [] => Ok diff
  end.

(** [optimal_count] of [community_walktrap]. *)
Definition community_walktrap (qs : list Q) : result Z :=
  match rev qs with
  | q :: rest =>
      i <- py_index (py_max q rest) (q :: rest) ;; Ok (Z.of_nat i + 1)%Z
  | [] => Ok 1%Z
  end.

(** [clusters] of [community_edge_betweenness], from the argument and the
    [qs] of the engine, which may be [None]. *)
Definition community_edge_betweenness (clusters : option Z)
  (qs : option (list Q)) : result Z :=
  match clusters with
  | Some c => Ok c
  | None =>
      match option_map (@rev Q) qs with
      | Some (q :: rest) =>
          i <- py_index (py_max q rest) (q :: rest) ;; Ok (Z.of_nat i + 1)%Z
      | _ => Ok 1%Z
      end
  end.

End Modularity.

(** ** The operators [+=], [+], [-=], [-] of [Graph] *)

(** The right operand, by the classes the operators tell apart. *)
#[warnings="-register-all"]
Inductive operand : Type :=
| OInt (z : Z)
| OStr (s : string)
| OTuple (items : list operand)
| OList (items : list operand)
| OGraph
| OVertex
| OVertexSeq
| OEdge
| OEdgeSeq
| OOther.

(** The method of the graph an operator calls, with its argument. *)
Inductive graph_call : Type :=
| add_vertices (arg : operand)
| add_edges (arg : operand)
| delete_vertices (arg : operand)
| delete_edges (arg : operand)
| disjoint_union (arg : operand)
| difference (arg : operand).

(** What an operator does: [NotImplemented]; the calls on [self], which is
    returned; the calls on [self.copy()], which is returned; or what a call
    on [self] returns. *)
Inductive operator_result : Type :=
| NotImplemented
| OnSelf (calls : list graph_call)
| OnCopy (calls : list graph_call)
| Returned (call : graph_call).

Definition Graph_iadd (other : operand) : operator_result :=
  match other with
  | OInt _ | OStr _ => OnSelf [add_vertices other]
  | OTuple [_; _] => OnSelf [add_edges (OList [other])]
  | OList [] => OnSelf []
  | OList (OTuple _ :: _) => OnSelf [add_edges other]
  | OList (OStr _ :: _) => OnSelf [add_vertices other]
  | _ => NotImplemented
  end.

Definition Graph_add (other : operand) : operator_result :=
  match other with
  | OInt _ | OStr _ => OnCopy [add_vertices other]
  | OTuple [_; _] => OnCopy [add_edges (OList [other])]
  | OList [] => OnCopy []
  | OList (OTuple _ :: _) => OnCopy [add_edges other]
  | OList (OStr _ :: _) => OnCopy [add_vertices other]
  | OList (OGraph :: _) => Returned (disjoint_union other)
  | OList _ => NotImplemented
  | OGraph => Returned (disjoint_union other)
  | _ => NotImplemented
  end.

Definition Graph_isub (other : operand) : operator_result :=
  match other with
  | OInt _ => OnSelf [delete_vertices (OList [other])]
  | OTuple [_; _] => OnSelf [delete_edges (OList [other])]
  | OList [] => OnSelf []
  | OList (OTuple _ :: _) => OnSelf [delete_edges other]
  | OList (OInt _ :: _) | OList (OStr _ :: _) => OnSelf [delete_vertices other]
  | OList _ => NotImplemented
  | OVertex | OVertexSeq => OnSelf [delete_vertices other]
  | OEdge | OEdgeSeq => OnSelf [delete_edges other]
  | _ => NotImplemented
  end.

Definition Graph_sub (other : operand) : operator_result :=
  match other with
  | OGraph => Returned (difference other)
  | OInt _ | OStr _ => OnCopy [delete_vertices (OList [other])]
  | OTuple [_; _] => OnCopy [delete_edges (OList [other])]
  | OList [] => OnCopy []
  | OList (OTuple _ :: _) => OnCopy [delete_edges other]
  | OList (OInt _ :: _) | OList (OStr _ :: _) => OnCopy [delete_vertices other]
  | OList _ => NotImplemented
  | OVertex | OVertexSeq => OnCopy [delete_vertices other]
  | OEdge | OEdgeSeq => OnCopy [delete_edges other]
  | _ => NotImplemented
  end.

(** * Properties *)

(** ** The error monad and the comprehensions *)

Lemma bind_ok {A : Type} (c : result A) : (x <- c ;; Ok x) = c.
Proof. now destruct c. Qed.

Lemma bind_assoc {A B C : Type} (c : result A) (k : A -> result B)
  (h : B -> result C) :
  (y <- (x <- c ;; k x) ;; h y) = (x <- c ;; y <- k x ;; h y).
Proof. now destruct c. Qed.

Lemma getitem_app (pre suf : view) (x : nat) :
  getitem (pre ++ x :: suf) (List.length pre) = Ok x.
Proof.
  unfold getitem.
  rewrite nth_error_app2 by lia.
  now rewrite Nat.sub_diag.
Qed.

(** Selecting the positions a comprehension over [enumerate] returns is
    filtering the list, errors included. *)
Lemma enumerate_narrow (q : nat -> result bool) (suf pre : view) :
  (idxs <- enumerate_from (List.length pre) q suf ;; narrow (pre ++ suf) idxs)
  = filterM q suf.
Proof.
  revert pre.
  induction suf as [|x xs IH]; intros pre; simpl.
  - reflexivity.
  - destruct (q x) as [b|e]; simpl; [|reflexivity].
    specialize (IH (pre ++ [x])).
    rewrite <- app_assoc in IH. simpl in IH.
    rewrite length_app in IH. simpl in IH.
    rewrite Nat.add_1_r in IH.
    rewrite <- IH.
    destruct (enumerate_from (S (List.length pre)) q xs) as [js|e]; simpl;
      [|reflexivity].
    destruct b; simpl.
    + unfold narrow. simpl. rewrite getitem_app. simpl.
      now destruct (mapM (getitem (pre ++ x :: xs)) js).
    + unfold narrow. now rewrite bind_ok.
Qed.

Lemma enumerate_map {A B : Type} (f : A -> B) (p : B -> result bool)
  (l : list A) (i : nat) :
  enumerate_from i p (map f l) = enumerate_from i (fun x => p (f x)) l.
Proof.
  revert i.
  induction l as [|x xs IH]; intros i; simpl.
  - reflexivity.
  - now rewrite IH.
Qed.

(** The scan of [select]: [[i for i, v in enumerate(values) if p(v)]] over
    the values [f e] of the elements, then [select(filtered_idxs)]. *)
Lemma scan_filterM (f : nat -> val) (p : val -> result bool) (es : view) :
  (idxs <- comprehension p (map f es) ;; narrow es idxs)
  = filterM (fun e => p (f e)) es.
Proof.
  unfold comprehension.
  rewrite enumerate_map.
  exact (enumerate_narrow (fun e => p (f e)) es []).
Qed.

Lemma scan_index (q : nat -> result bool) (es : view) :
  (idxs <- comprehension q es ;; narrow es idxs) = filterM q es.
Proof. exact (enumerate_narrow q es []). Qed.

Lemma filterM_pure {A : Type} (p : A -> bool) (l : list A) :
  filterM (fun x => Ok (p x)) l = Ok (filter p l).
Proof.
  induction l as [|x xs IH]; simpl.
  - reflexivity.
  - rewrite IH. simpl. now destruct (p x).
Qed.

Lemma filterM_ok {A : Type} (q : A -> result bool) (l l' : list A) :
  filterM q l = Ok l' -> l' = filter (holds q) l.
Proof.
  revert l'.
  induction l as [|x xs IH]; intros l' H; simpl in *.
  - now inversion H.
  - unfold holds at 1.
    destruct (q x) as [b|e]; simpl in H; [|discriminate].
    destruct (filterM q xs) as [ys|e]; simpl in H; [|discriminate].
    inversion H; subst.
    rewrite (IH ys eq_refl).
    now destruct b.
Qed.

Lemma filterM_ext {A : Type} (p q : A -> result bool) (l : list A) :
  (forall x, In x l -> p x = q x) -> filterM p l = filterM q l.
Proof.
  induction l as [|x xs IH]; intros H; simpl.
  - reflexivity.
  - rewrite (H x (or_introl eq_refl)).
    rewrite IH; [reflexivity|].
    intros y Hy. apply H. now right.
Qed.

(** ** Views *)

Lemma view_eqb_eq (a b : view) : view_eqb a b = true <-> a = b.
Proof.
  revert b.
  induction a as [|x a IH]; intros [|y b]; simpl; split; intros H;
    try reflexivity; try discriminate.
  - apply andb_true_iff in H. destruct H as [Hx Hab].
    apply Nat.eqb_eq in Hx. apply IH in Hab. now subst.
  - inversion H; subst.
    rewrite Nat.eqb_refl. simpl. now apply IH.
Qed.

Lemma is_all_full (n : nat) : is_all n (seq 0 n) = true.
Proof. now apply view_eqb_eq. Qed.

Lemma getitem_seq (n i : nat) : i < n -> getitem (seq 0 n) i = Ok i.
Proof.
  intros H. unfold getitem.
  rewrite (nth_error_nth' (seq 0 n) 0) by now rewrite length_seq.
  now rewrite seq_nth.
Qed.

(** On the full view local and absolute indices agree. *)
Lemma narrow_full (n : nat) (l : list nat) :
  Forall (fun i => i < n) l -> narrow (seq 0 n) l = Ok l.
Proof.
  unfold narrow.
  induction 1 as [|i l Hi _ IH]; simpl.
  - reflexivity.
  - rewrite (getitem_seq n i Hi). simpl. now rewrite IH.
Qed.

Lemma filterM_full (n : nat) (p : nat -> bool) (l : list nat) :
  Forall (fun i => i < n) l ->
  filterM (fun i => e <- getitem (seq 0 n) i ;; Ok (p e)) l = Ok (filter p l).
Proof.
  intros H.
  rewrite <- filterM_pure.
  apply filterM_ext.
  intros i Hi.
  rewrite Forall_forall in H.
  now rewrite (getitem_seq n i (H i Hi)).
Qed.

Lemma Forall_filter_lt (n : nat) (p : nat -> bool) (l : list nat) :
  Forall (fun i => i < n) l -> Forall (fun i => i < n) (filter p l).
Proof.
  rewrite !Forall_forall.
  intros H i Hi. apply filter_In in Hi. now apply H.
Qed.

Lemma existsb_eqb_In (e : nat) (l : list nat) :
  existsb (Nat.eqb e) l = true <-> In e l.
Proof.
  rewrite existsb_exists. split.
  - intros [x [Hx He]]. apply Nat.eqb_eq in He. now subst.
  - intros H. exists e. split; [assumption|apply Nat.eqb_refl].
Qed.

(** ** [sorted] *)

Lemma natorder_leb_le (x y : nat) : NatOrder.leb x y = true <-> x <= y.
Proof.
  revert y.
  induction x as [|x IH]; intros [|y]; simpl.
  - split; [lia|reflexivity].
  - split; [lia|reflexivity].
  - split; [discriminate|lia].
  - rewrite IH. lia.
Qed.

Lemma sorted_perm (l : list nat) : Permutation l (sorted l).
Proof. apply NatSort.Permuted_sort. Qed.

Lemma sorted_In (e : nat) (l : list nat) : In e (sorted l) <-> In e l.
Proof.
  split; intros H.
  - apply Permutation_in with (sorted l); [|assumption].
    apply Permutation_sym, sorted_perm.
  - apply Permutation_in with l; [apply sorted_perm|assumption].
Qed.

Lemma leb_sorted_increasing (l : list nat) :
  StronglySorted (fun x y => is_true (NatOrder.leb x y)) l ->
  NoDup l -> StronglySorted lt l.
Proof.
  induction 1 as [|a l Hs IH Ha]; intros Hnd.
  - constructor.
  - inversion Hnd as [|? ? Hnotin Hnd']; subst.
    constructor; [now apply IH|].
    rewrite Forall_forall in *.
    intros x Hx.
    specialize (Ha x Hx). apply natorder_leb_le in Ha.
    assert (a <> x) by (intros ->; contradiction).
    lia.
Qed.

(** Sorting a list without duplicates gives a strictly increasing list. *)
Lemma sorted_increasing (l : list nat) :
  NoDup l -> StronglySorted lt (sorted l).
Proof.
  intros Hnd.
  apply leb_sorted_increasing.
  - apply NatSort.StronglySorted_sort.
    intros x y z Hxy Hyz.
    apply natorder_leb_le in Hxy. apply natorder_leb_le in Hyz.
    apply natorder_leb_le. lia.
  - apply Permutation_NoDup with l; [apply sorted_perm|assumption].
Qed.

(** ** The incidence query and the candidate set *)

Lemma incident_In (g : graph) (v : Z) (mode : neimode) (e : nat) :
  In e (incident g v mode) <-> e < ecount g /\ touches g mode v e = true.
Proof.
  unfold incident. rewrite filter_In, in_seq. intuition lia.
Qed.

Lemma incident_NoDup (g : graph) (v : Z) (mode : neimode) :
  NoDup (incident g v mode).
Proof. apply NoDup_filter, seq_NoDup. Qed.

Lemma touches_undirected (g : graph) (mode : neimode) (v : Z) (e : nat) :
  is_directed g = false ->
  touches g mode v e = true <->
  Z.of_nat (source g e) = v \/ Z.of_nat (target g e) = v.
Proof.
  intros H. unfold touches. rewrite H.
  rewrite orb_true_iff, !Z.eqb_eq. reflexivity.
Qed.

Lemma touches_all (g : graph) (v : Z) (e : nat) :
  touches g ALL v e = true <->
  Z.of_nat (source g e) = v \/ Z.of_nat (target g e) = v.
Proof.
  unfold touches.
  destruct (is_directed g); rewrite orb_true_iff, !Z.eqb_eq; reflexivity.
Qed.

Lemma py_eq_int (x : Z) (y : val) : py_eq (VInt x) y = true <-> y = VInt x.
Proof.
  destruct y; simpl; split; intros H; try discriminate.
  - apply Z.eqb_eq in H. now subst.
  - inversion H. apply Z.eqb_refl.
Qed.

Lemma member_In (x : Z) (s : val) : member x s = true <-> In (VInt x) (items s).
Proof.
  unfold member. rewrite existsb_exists. split.
  - intros [y [Hy H]]. apply py_eq_int in H. now subst.
  - intros H. exists (VInt x). split; [assumption|now apply py_eq_int].
Qed.

Lemma member_ints (x : Z) (zs : list Z) :
  member x (VSet (map VInt zs)) = true <-> In x zs.
Proof.
  rewrite member_In. simpl. rewrite in_map_iff. split.
  - intros [z [Hz H]]. now inversion Hz; subst.
  - intros H. now exists x.
Qed.

Section Candidates.

Context {E : Engine}.
Variable g : graph.

Lemma incident_set_In (vs : list Z) (mode : neimode) (e : nat) :
  In e (incident_set g vs mode) <->
  exists z, In z vs /\ In e (incident g z mode).
Proof.
  unfold incident_set, incident.
  rewrite filter_In, existsb_exists. split.
  - intros [He [z [Hz Ht]]]. exists z. split; [assumption|].
    apply filter_In. now split.
  - intros [z [Hz He]]. apply filter_In in He. destruct He as [He Ht].
    split; [assumption|]. now exists z.
Qed.

(** What the incidence query returns are edges of the graph. *)
Lemma graph_incident_lt (v : val) (mode : neimode) (inc : list nat) :
  graph_incident g v mode = Ok inc -> forall e, In e inc -> e < ecount g.
Proof.
  destruct v as [|z|s|l|l]; cbn [graph_incident]; try discriminate.
  - intros H e He. inversion H; subst. now apply incident_In in He.
  - destruct (mapM vertex_index l) as [zs|err]; cbn [bind]; [|discriminate].
    intros H e He. inversion H; subst.
    apply incident_set_In in He. destruct He as [z [_ He]].
    now apply incident_In in He.
Qed.

Lemma graph_incident_NoDup (v : val) (mode : neimode) (inc : list nat) :
  graph_incident g v mode = Ok inc -> NoDup inc.
Proof.
  destruct v as [|z|s|l|l]; cbn [graph_incident]; try discriminate.
  - intros H. inversion H; subst. apply incident_NoDup.
  - destruct (mapM vertex_index l) as [zs|err]; cbn [bind]; [|discriminate].
    intros H. inversion H; subst. apply NoDup_filter, seq_NoDup.
Qed.

Lemma mapM_incident_In (mode : neimode) (vs : list val) (ls : list (list nat)) :
  mapM (fun v => graph_incident g v mode) vs = Ok ls ->
  forall e, In e (List.concat ls) <->
            exists v inc, In v vs /\ graph_incident g v mode = Ok inc
                          /\ In e inc.
Proof.
  revert ls.
  induction vs as [|v vs IH]; intros ls H e; cbn [mapM] in H.
  - inversion H; subst. simpl. split; [contradiction|].
    intros [v [inc [[] _]]].
  - destruct (graph_incident g v mode) as [inc0|err] eqn:Hv;
      cbn [bind] in H; [|discriminate].
    destruct (mapM (fun v => graph_incident g v mode) vs) as [ls'|err];
      cbn [bind] in H; [|discriminate].
    inversion H; subst. cbn [List.concat].
    rewrite in_app_iff, (IH ls' eq_refl e). split.
    + intros [He|[v' [inc [Hin [Hinc He]]]]].
      * exists v, inc0. split; [now left|]. now split.
      * exists v', inc. split; [now right|]. now split.
    + intros [v' [inc [[Heq|Hin] [Hinc He]]]].
      * subst v'. rewrite Hv in Hinc. inversion Hinc; subst. now left.
      * right. now exists v', inc.
Qed.

Lemma set_iteration_In (l : list nat) (e : nat) :
  In e (set_iteration l) <-> In e l.
Proof.
  rewrite <- (nodup_In Nat.eq_dec l e). split; intros H.
  - apply Permutation_in with (set_iteration l);
      [apply set_iteration_perm|assumption].
  - apply Permutation_in with (nodup Nat.eq_dec l);
      [apply Permutation_sym, set_iteration_perm|assumption].
Qed.

Lemma set_iteration_NoDup (l : list nat) : NoDup (set_iteration l).
Proof.
  apply Permutation_NoDup with (nodup Nat.eq_dec l).
  - apply Permutation_sym, set_iteration_perm.
  - apply NoDup_nodup.
Qed.

(** The candidate set holds the edges the default incidence query returns
    for some vertex of the set, each once, and nothing else. *)
Lemma candidates_of_In (vs : list val) (c : list nat) :
  candidates_of g vs = Ok c ->
  forall e, In e c <->
            exists v inc, In v vs
                          /\ graph_incident g v incident_default_mode = Ok inc
                          /\ In e inc.
Proof.
  unfold candidates_of. intros H e.
  destruct (mapM _ vs) as [ls|err] eqn:Hls; simpl in H; [|discriminate].
  inversion H; subst.
  rewrite set_iteration_In.
  now apply mapM_incident_In.
Qed.

Lemma candidates_of_NoDup (vs : list val) (c : list nat) :
  candidates_of g vs = Ok c -> NoDup c.
Proof.
  unfold candidates_of. intros H.
  destruct (mapM _ vs) as [ls|err]; simpl in H; [|discriminate].
  inversion H; subst. apply set_iteration_NoDup.
Qed.

Lemma candidates_of_lt (vs : list val) (c : list nat) :
  candidates_of g vs = Ok c -> Forall (fun i => i < ecount g) c.
Proof.
  intros H. apply Forall_forall. intros e He.
  apply (candidates_of_In vs c H) in He.
  destruct He as [v [inc [_ [Hinc He]]]].
  now apply (graph_incident_lt v incident_default_mode inc).
Qed.

Lemma mapM_incident_ints (mode : neimode) (zs : list Z) :
  mapM (fun v => graph_incident g v mode) (map VInt zs)
  = Ok (map (fun z => incident g z mode) zs).
Proof.
  induction zs as [|z zs IH]; simpl.
  - reflexivity.
  - now rewrite IH.
Qed.

(** On a set of vertex indices the candidate set is always built. *)
Lemma candidates_of_ints (zs : list Z) :
  candidates_of g (map VInt zs)
  = Ok (set_iteration
          (List.concat (map (fun z => incident g z incident_default_mode) zs))).
Proof.
  unfold candidates_of. now rewrite mapM_incident_ints.
Qed.

End Candidates.

(** ** The branches of [EdgeSeq.select], branch by branch *)

Section Branches.

Context {E : Engine}.
Variable g : graph.

Lemma is_all_eq (es : view) : is_all (ecount g) es = true -> es = seq 0 (ecount g).
Proof. apply view_eqb_eq. Qed.

Lemma incident_select (es : view) (value : val) :
  (idxs <- incident_idxs g es value ;; narrow es idxs)
  = (value <- ensure_set value ;;
     candidates <- candidates_of g (items value) ;;
     Ok (if is_all (ecount g) es
         then sorted candidates
         else filter (fun e => existsb (Nat.eqb e) candidates) es)).
Proof.
  unfold incident_idxs.
  destruct (ensure_set value) as [s|err]; simpl; [|reflexivity].
  destruct (candidates_of g (items s)) as [c|err] eqn:Hc; simpl; [|reflexivity].
  destruct (is_all (ecount g) es) eqn:Hall; simpl.
  - rewrite (is_all_eq es Hall).
    apply narrow_full.
    apply Forall_forall. intros e He.
    apply (proj1 (sorted_In _ _)) in He.
    pose proof (candidates_of_lt g _ _ Hc) as Hlt.
    rewrite Forall_forall in Hlt. now apply Hlt.
  - rewrite scan_index. apply filterM_pure.
Qed.

Lemma within_select (es : view) (value : val) :
  (idxs <- within_idxs g es value ;; narrow es idxs)
  = (value <- ensure_set value ;;
     candidates <- candidates_of g (items value) ;;
     Ok (if is_all (ecount g) es
         then filter (both_in g value) candidates
         else filter (fun e => existsb (Nat.eqb e) candidates && both_in g value e)
                es)).
Proof.
  unfold within_idxs.
  destruct (ensure_set value) as [s|err]; cbn [bind negb]; [|reflexivity].
  destruct (candidates_of g (items s)) as [c|err] eqn:Hc; cbn [bind negb]; [|reflexivity].
  pose proof (candidates_of_lt g _ _ Hc) as Hlt.
  destruct (is_all (ecount g) es) eqn:Hall; cbn [bind negb].
  - rewrite (is_all_eq es Hall).
    rewrite (filterM_full (ecount g) (both_in g s) c Hlt). cbn [bind negb].
    apply narrow_full. now apply Forall_filter_lt.
  - rewrite scan_index.
    apply filterM_pure.
Qed.

Lemma between_select (es : view) (value : val) :
  (idxs <- between_idxs g es value ;; narrow es idxs)
  = (n <- py_len value ;;
     if negb (Nat.eqb n 2) then Err InvalidOperand
     else
       v0 <- py_getitem value 0 ;;
       set1 <- ensure_set v0 ;;
       v1 <- py_getitem value 1 ;;
       set2 <- ensure_set v1 ;;
       candidates <- candidates_of g (items set1 ++ items set2) ;;
       Ok (if is_all (ecount g) es
           then filter (between_test g set1 set2) candidates
           else filter (between_test g set1 set2) es)).
Proof.
  unfold between_idxs.
  destruct (py_len value) as [n|err]; cbn [bind negb]; [|reflexivity].
  destruct (negb (Nat.eqb n 2)); cbn [bind negb]; [reflexivity|].
  destruct (py_getitem value 0) as [v0|err]; cbn [bind negb]; [|reflexivity].
  destruct (ensure_set v0) as [set1|err]; cbn [bind negb]; [|reflexivity].
  destruct (py_getitem value 1) as [v1|err]; cbn [bind negb]; [|reflexivity].
  destruct (ensure_set v1) as [set2|err]; cbn [bind negb]; [|reflexivity].
  destruct (candidates_of g (items set1 ++ items set2)) as [c|err] eqn:Hc;
    cbn [bind negb]; [|reflexivity].
  pose proof (candidates_of_lt g _ _ Hc) as Hlt.
  destruct (is_all (ecount g) es) eqn:Hall; cbn [bind negb].
  - rewrite (is_all_eq es Hall).
    rewrite (filterM_full (ecount g) (between_test g set1 set2) c Hlt). cbn [bind negb].
    apply narrow_full. now apply Forall_filter_lt.
  - rewrite scan_index. apply filterM_pure.
Qed.

Lemma incident_lt (v : Z) (mode : neimode) :
  Forall (fun i => i < ecount g) (incident g v mode).
Proof.
  apply Forall_forall. intros e He. now apply incident_In in He.
Qed.

Lemma endpoint_select (es : view) (mode : neimode) (endpoint : nat -> nat)
  (op : string) (func : pyfunc) (value : val) :
  (idxs <- endpoint_idxs g es mode endpoint op func value ;; narrow es idxs)
  = if is_all (ecount g) es && String.eqb op "eq"
    then inc <- graph_incident g value mode ;; Ok (sorted inc)
    else
      value <-
        (if String.eqb op "in" || String.eqb op "notin"
         then ensure_set value
         else Ok value) ;;
      filterM (fun e => call func (VInt (Z.of_nat (endpoint e))) value) es.
Proof.
  unfold endpoint_idxs.
  destruct (is_all (ecount g) es) eqn:Hall; simpl.
  - destruct (String.eqb op "eq"); simpl.
    + destruct (graph_incident g value mode) as [inc|err] eqn:Hinc;
        cbn [bind]; [|reflexivity].
      rewrite (is_all_eq es Hall).
      apply narrow_full.
      apply Forall_forall. intros e He.
      apply (proj1 (sorted_In _ _)) in He.
      now apply (graph_incident_lt g value mode inc).
    + destruct (if String.eqb op "in" || String.eqb op "notin"
                then ensure_set value else Ok value) as [v|err];
        simpl; [|reflexivity].
      apply (scan_filterM (fun e => VInt (Z.of_nat (endpoint e)))
               (fun x => call func x v) es).
  - destruct (if String.eqb op "in" || String.eqb op "notin"
              then ensure_set value else Ok value) as [v|err];
      simpl; [|reflexivity].
    apply (scan_filterM (fun e => VInt (Z.of_nat (endpoint e)))
             (fun x => call func x v) es).
Qed.

(** A round of the keyword loop whose subject starts with an underscore. *)
Lemma edge_filter_underscore (es : view) (keyword : string) (value : val)
  (rest op : string) (func : pyfunc) :
  edge_keyword keyword = (String underscore rest, op, func) ->
  edge_filter g es keyword value
  = (p <- undirected_rewrite g (String underscore rest) op func value ;;
     idxs <- reserved_idxs g es (fst p) op func (snd p) ;;
     narrow es idxs).
Proof.
  intros H. unfold edge_filter. rewrite H.
  rewrite Ascii.eqb_refl.
  rewrite bind_assoc.
  destruct (undirected_rewrite g (String underscore rest) op func value)
    as [[attr v]|err]; reflexivity.
Qed.


Lemma undirected_rewrite_other (attr op : string) (func : pyfunc) (value : val) :
  in_strings attr ["_source"; "_from"; "_target"; "_to"]%string = false ->
  undirected_rewrite g attr op func value = Ok (attr, value).
Proof. intros H. unfold undirected_rewrite. now rewrite H. Qed.

Lemma undirected_rewrite_directed (attr op : string) (func : pyfunc) (value : val) :
  is_directed g = true ->
  undirected_rewrite g attr op func value = Ok (attr, value).
Proof.
  intros H. unfold undirected_rewrite. rewrite H.
  now rewrite andb_false_r.
Qed.

Lemma edge_filter_incident (es : view) (value : val) :
  edge_filter g es "_incident" value
  = (value <- ensure_set value ;;
     candidates <- candidates_of g (items value) ;;
     Ok (if is_all (ecount g) es
         then sorted candidates
         else filter (fun e => existsb (Nat.eqb e) candidates) es)).
Proof.
  rewrite (edge_filter_underscore es "_incident" value "incident" "eq" op_eq
             eq_refl).
  rewrite undirected_rewrite_other by reflexivity.
  apply incident_select.
Qed.

Lemma edge_filter_within (es : view) (value : val) :
  edge_filter g es "_within" value
  = (value <- ensure_set value ;;
     candidates <- candidates_of g (items value) ;;
     Ok (if is_all (ecount g) es
         then filter (both_in g value) candidates
         else filter (fun e => existsb (Nat.eqb e) candidates && both_in g value e)
                es)).
Proof.
  rewrite (edge_filter_underscore es "_within" value "within" "eq" op_eq
             eq_refl).
  rewrite undirected_rewrite_other by reflexivity.
  apply within_select.
Qed.

Lemma edge_filter_between (es : view) (value : val) :
  edge_filter g es "_between" value
  = (n <- py_len value ;;
     if negb (Nat.eqb n 2) then Err InvalidOperand
     else
       v0 <- py_getitem value 0 ;;
       set1 <- ensure_set v0 ;;
       v1 <- py_getitem value 1 ;;
       set2 <- ensure_set v1 ;;
       candidates <- candidates_of g (items set1 ++ items set2) ;;
       Ok (if is_all (ecount g) es
           then filter (between_test g set1 set2) candidates
           else filter (between_test g set1 set2) es)).
Proof.
  rewrite (edge_filter_underscore es "_between" value "between" "eq" op_eq
             eq_refl).
  rewrite undirected_rewrite_other by reflexivity.
  apply between_select.
Qed.

End Branches.

(** ** The keyword parser *)

Lemma contains_rindex (c : ascii) (s : string) :
  contains c s = false -> rindex c s = None.
Proof.
  induction s as [|a s IH]; simpl; intros H.
  - reflexivity.
  - apply orb_false_iff in H. destruct H as [Ha Hs].
    now rewrite (IH Hs), Ha.
Qed.

Lemma contains_append (c : ascii) (s t : string) :
  contains c (s ++ t)%string = contains c s || contains c t.
Proof.
  induction s as [|a s IH]; simpl.
  - reflexivity.
  - now rewrite IH, orb_assoc.
Qed.

(** The last separator of [pre ++ "_" ++ suf], when [suf] has none. *)
Lemma rindex_split (c : ascii) (pre suf : string) :
  contains c suf = false ->
  rindex c (pre ++ String c suf)%string = Some (String.length pre).
Proof.
  intros H.
  induction pre as [|a pre IH]; simpl.
  - now rewrite (contains_rindex c suf H), Ascii.eqb_refl.
  - now rewrite IH.
Qed.

Lemma slice_to_append (pre rest : string) :
  slice_to (String.length pre) (pre ++ rest)%string = pre.
Proof.
  induction pre as [|a pre IH]; simpl.
  - now destruct rest.
  - now rewrite IH.
Qed.

Lemma slice_from_append (pre : string) (c : ascii) (suf : string) :
  slice_from (String.length pre + 1) (pre ++ String c suf)%string = suf.
Proof.
  induction pre as [|a pre IH]; simpl.
  - reflexivity.
  - exact IH.
Qed.


(** Splitting a keyword at its last separator. *)
Lemma keyword_split (keyword pre suf : string) :
  contains underscore suf = false ->
  keyword = (pre ++ String underscore suf)%string ->
  rindex underscore keyword = Some (String.length pre)
  /\ slice_to (String.length pre) keyword = pre
  /\ slice_from (String.length pre + 1) keyword = suf.
Proof.
  intros Hs ->. split; [|split].
  - now apply rindex_split.
  - apply slice_to_append.
  - apply slice_from_append.
Qed.

Lemma parse_with_operator (keyword pre suf : string) :
  contains underscore suf = false ->
  keyword = (pre ++ String underscore suf)%string ->
  (let pos := match rindex underscore keyword with Some p => p | None => 0 end in
   slice_to pos keyword = pre /\ slice_from (pos + 1) keyword = suf)
  /\ rpartition underscore keyword = (pre, suf).
Proof.
  intros Hs Hk.
  destruct (keyword_split keyword pre suf Hs Hk) as [Hr [Ht Hf]].
  unfold rpartition. rewrite Hr. cbv zeta. now rewrite Ht, Hf.
Qed.

(** A keyword without a usable separator is its own subject, with [eq]. *)
Lemma parse_default (keyword : string) :
  with_default_operator keyword = (keyword ++ "_eq")%string ->
  edge_keyword keyword = (keyword, "eq"%string, op_eq)
  /\ vertex_keyword keyword = (keyword, "eq"%string, op_eq).
Proof.
  intros Hd.
  destruct (parse_with_operator (keyword ++ "_eq") keyword "eq" eq_refl eq_refl)
    as [[H1 H2] Hv].
  unfold edge_keyword, vertex_keyword. rewrite Hd.
  cbv zeta in H1, H2 |- *. rewrite Hv, H1, H2.
  now split.
Qed.

Lemma parse_split (keyword pre suf : string) :
  pre <> EmptyString ->
  contains underscore suf = false ->
  keyword = (pre ++ String underscore suf)%string ->
  edge_keyword keyword
  = match lookup suf operators with
    | Some func => (pre, suf, func)
    | None => (keyword, "eq"%string, op_eq)
    end
  /\ vertex_keyword keyword
     = match lookup suf operators with
       | Some func => (pre, suf, func)
       | None => (keyword, "eq"%string, op_eq)
       end.
Proof.
  intros Hpre Hs Hk.
  destruct (parse_with_operator keyword pre suf Hs Hk) as [[H1 H2] Hv].
  destruct (keyword_split keyword pre suf Hs Hk) as [Hr _].
  assert (Hd : with_default_operator keyword = keyword).
  { unfold with_default_operator, rindex_is_zero. rewrite Hr.
    assert (Hc : contains underscore keyword = true).
    { rewrite Hk, contains_append. simpl.
      rewrite ?Ascii.eqb_refl. simpl. apply orb_true_r. }
    rewrite Hc. simpl.
    destruct pre; [contradiction|reflexivity]. }
  unfold edge_keyword, vertex_keyword. rewrite Hd.
  cbv zeta in H1, H2 |- *. rewrite Hv, H1, H2.
  now split.
Qed.



(** ** Every keyword filters element by element *)

Lemma pointwise_fail (step : view -> result view) :
  (forall es, exists err, step es = Err err) -> pointwise step.
Proof.
  intros H. exists (fun _ => false). intros es es' Hs.
  destruct (H es) as [err Herr]. rewrite Herr in Hs. discriminate.
Qed.

Lemma pointwise_filterM (q : nat -> result bool) : pointwise (filterM q).
Proof.
  exists (holds q). intros es es' H e.
  rewrite (filterM_ok q es es' H). apply filter_In.
Qed.

Lemma pointwise_ext (f h : view -> result view) :
  (forall es, f es = h es) -> pointwise h -> pointwise f.
Proof.
  intros Hext [sat H]. exists sat. intros es es' Hs.
  rewrite Hext in Hs. now apply H.
Qed.


Lemma in_full (n e : nat) : In e (seq 0 n) <-> e < n.
Proof. rewrite in_seq. lia. Qed.

Section Pointwise.

Context {E : Engine}.
Variable g : graph.

(** An edge that the [_between] test accepts is among the candidates,
    whatever the default mode of [incident]. *)
Lemma touches_endpoint (mode : neimode) (e : nat) :
  touches g mode (Z.of_nat (source g e)) e = true
  \/ touches g mode (Z.of_nat (target g e)) e = true.
Proof.
  unfold touches.
  destruct (is_directed g); [destruct mode|]; rewrite ?Z.eqb_refl; simpl; auto.
Qed.

Lemma between_candidates (set1 set2 : val) (c : list nat) (e : nat) :
  candidates_of g (items set1 ++ items set2) = Ok c ->
  e < ecount g ->
  between_test g set1 set2 e = true ->
  In e c.
Proof.
  intros Hc He Hb.
  apply (candidates_of_In g _ c Hc).
  assert (Hs : In (VInt (Z.of_nat (source g e))) (items set1 ++ items set2)
               /\ In (VInt (Z.of_nat (target g e))) (items set1 ++ items set2)).
  { unfold between_test in Hb.
    rewrite orb_true_iff, !andb_true_iff, !member_In in Hb.
    rewrite !in_app_iff. tauto. }
  destruct Hs as [Hsrc Htgt].
  destruct (touches_endpoint incident_default_mode e) as [Ht|Ht].
  - exists (VInt (Z.of_nat (source g e))), (incident g (Z.of_nat (source g e))
                                               incident_default_mode).
    split; [assumption|]. split; [reflexivity|]. now apply incident_In.
  - exists (VInt (Z.of_nat (target g e))), (incident g (Z.of_nat (target g e))
                                               incident_default_mode).
    split; [assumption|]. split; [reflexivity|]. now apply incident_In.
Qed.




End Pointwise.

Lemma edge_keyword_lookup (keyword attr op : string) (func : pyfunc) :
  edge_keyword keyword = (attr, op, func) -> lookup op operators = Some func.
Proof.
  unfold edge_keyword. cbv zeta.
  destruct (lookup _ operators) as [f|] eqn:Hl; intros H; inversion H; subst.
  - exact Hl.
  - reflexivity.
Qed.

Lemma vertex_keyword_lookup (keyword attr op : string) (func : pyfunc) :
  vertex_keyword keyword = (attr, op, func) -> lookup op operators = Some func.
Proof.
  unfold vertex_keyword. cbv zeta.
  destruct (rpartition underscore (with_default_operator keyword)) as [a o].
  destruct (lookup o operators) as [f|] eqn:Hl; intros H; inversion H; subst.
  - exact Hl.
  - reflexivity.
Qed.

Section PointwiseFilter.

Context {E : Engine}.
Variable g : graph.








(** One round of the keyword loop of [VertexSeq.select] is pointwise. *)
Lemma pointwise_vertex_filter (keyword : string) (value : val) :
  pointwise (fun vs => vertex_filter g vs keyword value).
Proof.
  unfold vertex_filter.
  destruct (vertex_keyword keyword) as [[attr op] func].
  destruct attr as [|c rest].
  { apply pointwise_fail. intros _. now exists IndexOutOfRange. }
  destruct (Ascii.eqb c underscore).
  - unfold invoke.
    destruct (lookup rest (vertex_methods g)) as [f|]; simpl.
    + apply pointwise_ext
        with (h := filterM (fun e => call func (f e) value));
        [|apply pointwise_filterM].
      intros es. apply (scan_filterM f (fun x => call func x value)).
    + apply pointwise_fail. intros _. now exists AttributeNotFound.
  - unfold get_attribute.
    destruct (lookup (String c rest) (vertex_attributes g)) as [column|]; simpl.
    + apply pointwise_ext
        with (h := filterM (fun e => call func (nth e column VNone) value));
        [|apply pointwise_filterM].
      intros es.
      apply (scan_filterM (fun e => nth e column VNone)
               (fun x => call func x value)).
    + apply pointwise_fail. intros _. now exists AttributeNotFound.
Qed.

End PointwiseFilter.

(** ** Conjunction of keyword predicates *)

Lemma narrow_incl (es : view) (l : list nat) (es' : view) :
  narrow es l = Ok es' -> incl es' es.
Proof.
  unfold narrow. revert es'.
  induction l as [|i l IH]; intros es' H; simpl in H.
  - inversion H. intros e [].
  - unfold getitem in H at 1.
    destruct (nth_error es i) as [x|] eqn:Hx; simpl in H; [|discriminate].
    destruct (mapM (getitem es) l) as [xs|err]; simpl in H; [|discriminate].
    inversion H; subst.
    intros e [<-|He].
    + now apply nth_error_In with i.
    + now apply (IH xs eq_refl).
Qed.


Lemma pointwise_incl (f : view -> result view) (es es' : view) :
  pointwise f -> f es = Ok es' -> incl es' es.
Proof.
  intros [sat H] Hs e He. now apply (H es es' Hs e) in He.
Qed.

Section Conjunction.

Context {E : Engine}.
Variable g : graph.

Lemma edge_keywords_app (es : view) (k1 k2 : list (string * val)) :
  edge_keywords g es (k1 ++ k2)
  = (es' <- edge_keywords g es k1 ;; edge_keywords g es' k2).
Proof.
  revert es.
  induction k1 as [|[keyword value] k1 IH]; intros es; simpl.
  - reflexivity.
  - destruct (edge_filter g es keyword value) as [es1|err]; simpl.
    + apply IH.
    + reflexivity.
Qed.


(** Keywords given in one call act as a chain of calls. *)
Lemma EdgeSeq_select_app (self : view) (args : positional)
  (k1 k2 : list (string * val)) :
  EdgeSeq_select g self args (k1 ++ k2)
  = (es <- EdgeSeq_select g self args k1 ;; EdgeSeq_select g es NoArgs k2).
Proof.
  unfold EdgeSeq_select.
  destruct (seq_select self args) as [es|err]; simpl; [|reflexivity].
  apply edge_keywords_app.
Qed.






(** A round of the keyword loop of [EdgeSeq.select] returns elements of
    the view it is given: it ends in [es.select(filtered_idxs)]. *)
Lemma edge_filter_incl (es es' : view) (keyword : string) (value : val) :
  edge_filter g es keyword value = Ok es' -> incl es' es.
Proof.
  unfold edge_filter.
  destruct (edge_keyword keyword) as [[attr op] func].
  destruct attr as [|c rest]; [discriminate|].
  match goal with
  | |- (filtered_idxs <- ?c ;; _) = _ -> _ =>
      destruct c as [idxs|err]; cbn [bind]; [|discriminate]
  end.
  apply narrow_incl.
Qed.



End Conjunction.




(** An equality on an endpoint of a directed graph with a set of vertices
    as operand is the one keyword whose outcome depends on its place: on the
    three edges of [aged], with [w = [1, 10, 10]], [select(_source_eq={1},
    w_gt=5)] meets the full view and returns edge [1], [select(w_gt=5,
    _source_eq={1})] scans the edges [1] and [2] and returns nothing; and
    the round that returned edge [1] returns nothing on that edge. *)
Lemma endpoint_equality_with_set :
  index_operand aged "_source_eq" (VSet [VInt 1]) = false
  /\ EdgeSeq_select (E := igraph) aged [0; 1; 2] NoArgs
       [("_source_eq", VSet [VInt 1]); ("w_gt", VInt 5)]%string = Ok [1]
  /\ EdgeSeq_select (E := igraph) aged [0; 1; 2] NoArgs
       [("w_gt", VInt 5); ("_source_eq", VSet [VInt 1])]%string = Ok []
  /\ edge_filter (E := igraph) aged [0; 1; 2] "_source_eq" (VSet [VInt 1])
     = Ok [1]
  /\ edge_filter (E := igraph) aged [1] "_source_eq" (VSet [VInt 1]) = Ok [].
Proof. repeat split. Qed.

(** ** The reserved subjects of [EdgeSeq.select] *)

Lemma in_strings_In (s : string) (l : list string) :
  in_strings s l = true <-> In s l.
Proof.
  unfold in_strings. rewrite existsb_exists. split.
  - intros [x [Hx H]]. apply String.eqb_eq in H. now subst.
  - intros H. exists s. split; [assumption|apply String.eqb_refl].
Qed.

Section Reserved.

Context {E : Engine}.
Variable g : graph.

(** A failing keyword fails the whole [select], wherever it stands, once
    the keywords before it have been applied. *)
Lemma EdgeSeq_select_fails (self : view) (args : positional)
  (pre post : list (string * val)) (es : view) (keyword : string)
  (value : val) (err : error) :
  EdgeSeq_select g self args pre = Ok es ->
  edge_filter g es keyword value = Err err ->
  EdgeSeq_select g self args (pre ++ (keyword, value) :: post) = Err err.
Proof.
  intros Hpre Hf.
  rewrite EdgeSeq_select_app, Hpre. cbn [bind].
  unfold EdgeSeq_select. cbn [seq_select bind edge_keywords].
  now rewrite Hf.
Qed.


Lemma reserved_incident (es : view) (op : string) (func : pyfunc) (value : val) :
  (idxs <- reserved_idxs g es "_incident" op func value ;; narrow es idxs)
  = edge_filter g es "_incident" value.
Proof.
  rewrite (edge_filter_underscore g es "_incident" value "incident" "eq" op_eq
             eq_refl).
  rewrite undirected_rewrite_other by reflexivity.
  reflexivity.
Qed.

End Reserved.



Lemma hashable_ints (zs : list Z) : existsb unhashable (map VInt zs) = false.
Proof. induction zs as [|z zs IH]; simpl; [reflexivity|exact IH]. Qed.

Lemma ensure_set_ints (zs : list Z) :
  ensure_set (VList (map VInt zs)) = Ok (VSet (map VInt zs)).
Proof. simpl. now rewrite hashable_ints. Qed.

Lemma In_VInt_map (z : Z) (zs : list Z) : In (VInt z) (map VInt zs) <-> In z zs.
Proof.
  rewrite in_map_iff. split.
  - intros [x [Hx H]]. now inversion Hx; subst.
  - intros H. now exists z.
Qed.

Section Incident.

Context {E : Engine}.
Variable g : graph.

(** [_incident] on a set of vertex indices: the edges of the view that the
    default incidence query returns for a vertex of the set, in increasing
    order on the full view and in view order otherwise. *)
Lemma incident_on_ints (es : view) (value : val) (S : list Z) :
  ensure_set value = Ok (VSet (map VInt S)) ->
  exists es',
    edge_filter g es "_incident" value = Ok es'
    /\ (forall e,
           In e es' <->
           In e es /\ e < ecount g
           /\ exists z, In z S /\ touches g incident_default_mode z e = true)
    /\ (is_all (ecount g) es = true -> StronglySorted lt es')
    /\ (is_all (ecount g) es = false ->
        exists keep : nat -> bool, es' = filter keep es).
Proof.
  intros Hs.
  rewrite edge_filter_incident, Hs. cbn [bind items].
  rewrite candidates_of_ints. cbn [bind].
  set (c := set_iteration
              (List.concat
                 (map (fun z => incident g z incident_default_mode) S))).
  assert (Hc : forall e, In e c <->
                         e < ecount g
                         /\ exists z, In z S
                                      /\ touches g incident_default_mode z e = true).
  { intros e. unfold c. rewrite set_iteration_In, in_concat. split.
    - intros [l [Hl He]]. apply in_map_iff in Hl.
      destruct Hl as [z [<- Hz]]. apply incident_In in He.
      split; [tauto|]. exists z. tauto.
    - intros [He [z [Hz Ht]]]. exists (incident g z incident_default_mode).
      split; [apply in_map_iff; now exists z|now apply incident_In]. }
  eexists. split; [reflexivity|]. split; [|split].
  - intros e. destruct (is_all (ecount g) es) eqn:Hall.
    + rewrite sorted_In, Hc, (is_all_eq g es Hall), in_full. tauto.
    + rewrite filter_In, existsb_eqb_In, Hc. tauto.
  - intros ->. apply sorted_increasing. apply set_iteration_NoDup.
  - intros ->. eexists. reflexivity.
Qed.

(** When the default incidence query returns all the edges that touch a
    vertex, [_incident] selects the edges of the view with an endpoint in
    the set. This is so on every undirected graph. *)
Lemma incident_on_ints_touching (es : view) (value : val) (S : list Z) :
  is_directed g = false \/ incident_default_mode = ALL ->
  ensure_set value = Ok (VSet (map VInt S)) ->
  (forall e, In e es -> e < ecount g) ->
  exists es',
    edge_filter g es "_incident" value = Ok es'
    /\ forall e,
        In e es' <-> In e es /\ exists z, In z S /\ endpoint_of g e z.
Proof.
  intros Hmode Hs Hvalid.
  destruct (incident_on_ints es value S Hs) as [es' [Hes' [Hin _]]].
  exists es'. split; [assumption|].
  intros e. rewrite Hin.
  assert (Ht : forall z, touches g incident_default_mode z e = true
                         <-> endpoint_of g e z).
  { intros z. destruct Hmode as [Hd|Hall].
    - now apply touches_undirected.
    - rewrite Hall. apply touches_all. }
  split.
  - intros [He [_ [z [Hz Hz']]]]. split; [assumption|].
    exists z. split; [assumption|now apply Ht].
  - intros [He [z [Hz Hz']]]. split; [assumption|].
    split; [now apply Hvalid|].
    exists z. split; [assumption|now apply Ht].
Qed.

End Incident.

Lemma set_iteration_one {E : Engine} (x : nat) : set_iteration [x] = [x].
Proof.
  apply Permutation_length_1_inv.
  apply Permutation_sym. apply (set_iteration_perm [x]).
Qed.

(** C2, on the directed triangle. [EdgeSeq.select] calls
    [es.graph.incident(v)] without a mode; when the engine then takes the
    mode [OUT], [_incident] with the vertex set [{1}] on the full edge view
    returns edge [1 = (1, 2)] alone, although edge [0 = (0, 1)] has vertex
    [1] as its target. *)
Theorem incident_misses_incoming_edges :
  forall E : Engine,
    incident_default_mode = OUT ->
    EdgeSeq_select triangle (seq 0 (ecount triangle)) NoArgs
      [("_incident"%string, VSet [VInt 1])] = Ok [1]
    /\ endpoint_of triangle 0 1.
Proof.
  intros E Hmode. split; [|now right].
  unfold EdgeSeq_select. cbn [seq_select bind edge_keywords].
  rewrite edge_filter_incident. cbn [ensure_set bind items].
  unfold candidates_of. cbn [mapM graph_incident bind].
  rewrite Hmode.
  change (incident triangle 1 OUT) with [1]. cbn [List.concat app].
  rewrite set_iteration_one.
  reflexivity.
Qed.

Lemma incident_misses_incoming_edges_witness :
  EdgeSeq_select (E := igraph) triangle (seq 0 (ecount triangle)) NoArgs
    [("_incident"%string, VSet [VInt 1])] = Ok [1]
  /\ endpoint_of triangle 0 1.
Proof.
  apply (incident_misses_incoming_edges igraph). reflexivity.
Defined.

(** With the mode [ALL] the same selection returns both edges. *)
Lemma incident_with_all_on_triangle :
  EdgeSeq_select (E := engine ALL) triangle (seq 0 (ecount triangle)) NoArgs
    [("_incident"%string, VSet [VInt 1])] = Ok [0; 1].
Proof. reflexivity. Qed.

(** ** Endpoint subjects on undirected graphs *)

Section Undirected.

Context {E : Engine}.
Variable g : graph.
Hypothesis undirected : is_directed g = false.

(** On an undirected graph a keyword on an endpoint subject is refused, or
    handed to [_incident] with its operand turned into a set. *)
Lemma undirected_endpoint_rewrite (es : view) (keyword attr op : string)
  (func : pyfunc) (value : val) :
  edge_keyword keyword = (attr, op, func) ->
  In attr endpoint_subjects ->
  edge_filter g es keyword value
  = if negb (in_strings op ["eq"; "in"]%string) then Err UnsupportedOperator
    else
      v <- (if is_op_eq func
            then if iterable_not_str value
                 then py_set value
                 else py_set (VList [value])
            else Ok value) ;;
      edge_filter g es "_incident" v.
Proof.
  intros Hk Hin.
  assert (Ha : exists rest, attr = String underscore rest).
  { unfold endpoint_subjects in Hin. simpl in Hin.
    repeat (destruct Hin as [<-|Hin]; [eexists; reflexivity|]).
    contradiction. }
  destruct Ha as [rest ->].
  rewrite (edge_filter_underscore g es keyword value rest op func Hk).
  unfold undirected_rewrite.
  unfold endpoint_subjects in Hin.
  rewrite (proj2 (in_strings_In _ _) Hin), undirected. cbn [andb negb].
  destruct (in_strings op ["eq"; "in"]%string); cbn [negb bind];
    [|reflexivity].
  destruct (if is_op_eq func
            then if iterable_not_str value
                 then py_set value else py_set (VList [value])
            else Ok value) as [v|err]; cbn [bind fst snd]; [|reflexivity].
  apply reserved_incident.
Qed.

Lemma incident_of_set (es : view) (value : val) :
  iterable_not_str value = true ->
  (v <- py_set value ;; edge_filter g es "_incident" v)
  = edge_filter g es "_incident" value.
Proof.
  intros Hi.
  destruct value as [|z|s|l|l]; try discriminate; simpl.
  - rewrite (edge_filter_incident g es (VList l)). simpl.
    destruct (existsb unhashable l); simpl; [reflexivity|].
    now rewrite edge_filter_incident.
  - reflexivity.
Qed.

Lemma set_of_one (v : val) :
  iterable_not_str v = false -> py_set (VList [v]) = Ok (VSet [v]).
Proof. destruct v; try discriminate; reflexivity. Qed.

Lemma equality_on_endpoint (es : view) (keyword attr : string) (func : pyfunc)
  (value : val) :
  edge_keyword keyword = (attr, "eq"%string, func) ->
  In attr endpoint_subjects ->
  edge_filter g es keyword value
  = edge_filter g es "_incident"
      (if iterable_not_str value then value else VSet [value]).
Proof.
  intros Hk Hin.
  rewrite (undirected_endpoint_rewrite es keyword attr "eq" func value Hk Hin).
  pose proof (edge_keyword_lookup _ _ _ _ Hk) as Hl.
  simpl in Hl. inversion Hl; subst func. cbn [in_strings existsb negb is_op_eq].
  change (String.eqb "eq" "eq") with true. cbn [orb negb].
  destruct (iterable_not_str value) eqn:Hi.
  - now apply incident_of_set.
  - now rewrite (set_of_one value Hi).
Qed.

End Undirected.

(** C3. On an undirected graph, a keyword whose subject is [_source],
    [_from], [_target] or [_to] and whose operator is neither [eq] nor [in]
    ends the round, and with it the [select], in [UnsupportedOperator],
    before the view is touched; with [eq] or [in] the round is a round of
    [_incident]; and [_source = v] and [_target = v] return the same view,
    the edges of the current view that touch vertex [v]. *)
Theorem undirected_endpoint_keywords :
  forall (E : Engine) (g : graph),
    is_directed g = false ->
    (forall es keyword value attr op func,
        edge_keyword keyword = (attr, op, func) ->
        In attr endpoint_subjects ->
        ~ In op ["eq"; "in"]%string ->
        edge_filter g es keyword value = Err UnsupportedOperator
        /\ forall self args pre post,
            EdgeSeq_select g self args pre = Ok es ->
            EdgeSeq_select g self args (pre ++ (keyword, value) :: post)
            = Err UnsupportedOperator)
    /\ (forall es keyword value attr op func,
           edge_keyword keyword = (attr, op, func) ->
           In attr endpoint_subjects ->
           In op ["eq"; "in"]%string ->
           edge_filter g es keyword value
           = (v <- (if is_op_eq func
                    then if iterable_not_str value
                         then py_set value
                         else py_set (VList [value])
                    else Ok value) ;;
              edge_filter g es "_incident" v))
    /\ (forall es (v : Z),
           (forall e, In e es -> e < ecount g) ->
           exists es',
             edge_filter g es "_source" (VInt v) = Ok es'
             /\ edge_filter g es "_target" (VInt v) = Ok es'
             /\ forall e, In e es' <-> In e es /\ endpoint_of g e v).
Proof.
  intros E g Hd. split; [|split].
  - intros es keyword value attr op func Hk Hin Hop.
    assert (Hf : edge_filter g es keyword value = Err UnsupportedOperator).
    { rewrite (undirected_endpoint_rewrite g Hd es keyword attr op func value
                 Hk Hin).
      destruct (in_strings op ["eq"; "in"]%string) eqn:Ho; [|reflexivity].
      apply in_strings_In in Ho. contradiction. }
    split; [exact Hf|].
    intros self args pre post Hpre.
    now apply EdgeSeq_select_fails with (es := es).
  - intros es keyword value attr op func Hk Hin Hop.
    rewrite (undirected_endpoint_rewrite g Hd es keyword attr op func value
               Hk Hin).
    now rewrite (proj2 (in_strings_In _ _) Hop).
  - intros es v Hvalid.
    destruct (incident_on_ints_touching g es (VSet [VInt v]) [v]
                (or_introl Hd) eq_refl Hvalid) as [es' [Hes' Hin]].
    exists es'. split; [|split].
    + now rewrite (equality_on_endpoint g Hd es "_source" "_source" op_eq
                     (VInt v) eq_refl ltac:(simpl; tauto)).
    + now rewrite (equality_on_endpoint g Hd es "_target" "_target" op_eq
                     (VInt v) eq_refl ltac:(simpl; tauto)).
    + intros e. rewrite Hin. split.
      * intros [He [z [[<-|[]] Hz]]]. now split.
      * intros [He Hz]. split; [assumption|]. exists v. split; [now left|assumption].
Qed.

Lemma undirected_endpoint_keywords_witness :
  edge_filter (E := igraph) single [0] "_source_lt" (VInt 1)
  = Err UnsupportedOperator
  /\ exists es',
      edge_filter (E := igraph) single [0] "_source" (VInt 0) = Ok es'
      /\ edge_filter (E := igraph) single [0] "_target" (VInt 0) = Ok es'
      /\ forall e, In e es' <-> In e [0] /\ endpoint_of single e 0.
Proof.
  destruct (undirected_endpoint_keywords igraph single eq_refl)
    as [H1 [_ H3]].
  split.
  - apply (proj1 (H1 [0] "_source_lt"%string (VInt 1) "_source"%string
                    "lt"%string op_lt eq_refl ltac:(simpl; tauto)
                    ltac:(simpl; intros [H|[H|[]]]; discriminate))).
  - apply (H3 [0] 0%Z). intros e [<-|[]]. unfold ecount. simpl. lia.
Defined.

(** C10. On an undirected graph, [_source], [_from], [_target] or [_to]
    with the operator [eq] is the keyword [_incident] on the operand
    itself when it is an iterable other than a string, and on the singleton
    set of the operand otherwise: a list or set of vertex indices selects
    the edges of the view that touch one of them, a vertex index the edges
    that touch it. *)
Theorem undirected_endpoint_equality :
  forall (E : Engine) (g : graph) (keyword attr : string) (func : pyfunc),
    is_directed g = false ->
    edge_keyword keyword = (attr, "eq"%string, func) ->
    In attr endpoint_subjects ->
    (forall es value,
        iterable_not_str value = true ->
        edge_filter g es keyword value = edge_filter g es "_incident" value)
    /\ (forall es value,
           iterable_not_str value = false ->
           edge_filter g es keyword value
           = edge_filter g es "_incident" (VSet [value]))
    /\ (forall es value (S : list Z),
           iterable_not_str value = true ->
           ensure_set value = Ok (VSet (map VInt S)) ->
           (forall e, In e es -> e < ecount g) ->
           exists es',
             edge_filter g es keyword value = Ok es'
             /\ forall e,
                 In e es' <-> In e es /\ exists v, In v S /\ endpoint_of g e v)
    /\ (forall es (v : Z),
           (forall e, In e es -> e < ecount g) ->
           exists es',
             edge_filter g es keyword (VInt v) = Ok es'
             /\ forall e, In e es' <-> In e es /\ endpoint_of g e v).
Proof.
  intros E g keyword attr func Hd Hk Hin.
  split; [|split; [|split]].
  - intros es value Hi.
    rewrite (equality_on_endpoint g Hd es keyword attr func value Hk Hin).
    now rewrite Hi.
  - intros es value Hi.
    rewrite (equality_on_endpoint g Hd es keyword attr func value Hk Hin).
    now rewrite Hi.
  - intros es value S Hi Hs Hvalid.
    rewrite (equality_on_endpoint g Hd es keyword attr func value Hk Hin), Hi.
    now apply incident_on_ints_touching; [left| |].
  - intros es v Hvalid.
    rewrite (equality_on_endpoint g Hd es keyword attr func (VInt v) Hk Hin).
    cbn [iterable_not_str].
    destruct (incident_on_ints_touching g es (VSet [VInt v]) [v]
                (or_introl Hd) eq_refl Hvalid) as [es' [Hes' Hes]].
    exists es'. split; [assumption|].
    intros e. rewrite Hes. split.
    + intros [He [z [[<-|[]] Hz]]]. now split.
    + intros [He Hz]. split; [assumption|].
      exists v. split; [now left|assumption].
Qed.

Lemma undirected_endpoint_equality_witness :
  exists es',
    edge_filter (E := igraph) undirected_triangle [2; 1; 0] "_target_eq"
      (VList [VInt 0; VInt 1]) = Ok es'
    /\ forall e,
        In e es' <->
        In e [2; 1; 0]
        /\ exists v, In v [0%Z; 1%Z] /\ endpoint_of undirected_triangle e v.
Proof.
  apply (proj1 (proj2 (proj2
           (undirected_endpoint_equality igraph undirected_triangle
              "_target_eq"%string "_target"%string op_eq eq_refl eq_refl
              ltac:(simpl; tauto)))) [2; 1; 0] (VList [VInt 0; VInt 1])
           [0%Z; 1%Z] eq_refl eq_refl).
  intros e [<-|[<-|[<-|[]]]]; unfold ecount; simpl; lia.
Defined.

(** ** [_between] *)

Lemma between_test_spec (g : graph) (set1 set2 : list Z) (e : nat) :
  between_test g (VSet (map VInt set1)) (VSet (map VInt set2)) e = true
  <-> between g set1 set2 e.
Proof.
  unfold between_test, between.
  now rewrite orb_true_iff, !andb_true_iff, !member_ints.
Qed.

(** C6. [_between] with a pair of vertex sets selects the edges of the
    view with one endpoint in the first set and the other in the second,
    in either direction, in view order when the view is not full; with an
    operand whose length is not 2 the round, and the [select] with it, ends
    in [InvalidOperand]. *)
Theorem between_selector :
  forall (E : Engine) (g : graph) (es : view),
    (forall (a b : val) (set1 set2 : list Z),
        ensure_set a = Ok (VSet (map VInt set1)) ->
        ensure_set b = Ok (VSet (map VInt set2)) ->
        exists es',
          edge_filter g es "_between" (VList [a; b]) = Ok es'
          /\ (forall e, In e es' <-> In e es /\ between g set1 set2 e)
          /\ (is_all (ecount g) es = false ->
              es' = filter (between_test g (VSet (map VInt set1))
                              (VSet (map VInt set2))) es))
    /\ (forall (value : val) (n : nat),
           py_len value = Ok n ->
           n <> 2 ->
           edge_filter g es "_between" value = Err InvalidOperand
           /\ forall self args pre post,
               EdgeSeq_select g self args pre = Ok es ->
               EdgeSeq_select g self args
                 (pre ++ ("_between"%string, value) :: post)
               = Err InvalidOperand).
Proof.
  intros E g es. split.
  - intros a b set1 set2 Ha Hb.
    rewrite edge_filter_between.
    cbn [py_len List.length Nat.eqb negb bind py_getitem nth_error].
    rewrite Ha. cbn [bind]. rewrite Hb. cbn [bind items].
    rewrite <- map_app, candidates_of_ints. cbn [bind].
    eexists. split; [reflexivity|]. split.
    + intros e. rewrite <- between_test_spec.
      destruct (is_all (ecount g) es) eqn:Hall.
      * rewrite (is_all_eq g es Hall), filter_In, in_full.
        assert (Hc : candidates_of g
                       (items (VSet (map VInt set1))
                        ++ items (VSet (map VInt set2)))
                     = Ok (set_iteration
                             (List.concat
                                (map (fun z => incident g z incident_default_mode)
                                   (set1 ++ set2))))).
        { cbn [items]. now rewrite <- map_app, candidates_of_ints. }
        pose proof (candidates_of_lt g _ _ Hc) as Hlt.
        rewrite Forall_forall in Hlt. split.
        -- intros [He Ht]. split; [now apply Hlt|assumption].
        -- intros [He Ht]. split; [|assumption].
           now apply (between_candidates g _ _ _ e Hc).
      * apply filter_In.
    + now intros ->.
  - intros value n Hn Hne.
    assert (Hf : edge_filter g es "_between" value = Err InvalidOperand).
    { rewrite edge_filter_between, Hn. cbn [bind].
      apply Nat.eqb_neq in Hne. now rewrite Hne. }
    split; [exact Hf|].
    intros self args pre post Hpre.
    now apply EdgeSeq_select_fails with (es := es).
Qed.

Lemma between_selector_witness :
  (exists es',
      edge_filter (E := igraph) triangle [2; 1; 0] "_between"
        (VList [VList [VInt 1]; VSet [VInt 0; VInt 2]]) = Ok es'
      /\ (forall e,
             In e es' <-> In e [2; 1; 0] /\ between triangle [1%Z] [0%Z; 2%Z] e)
      /\ es' = [1; 0])
  /\ edge_filter (E := igraph) triangle [2; 1; 0] "_between"
       (VList [VList [VInt 1]]) = Err InvalidOperand.
Proof.
  destruct (between_selector igraph triangle [2; 1; 0]) as [H1 H2].
  split.
  - destruct (H1 (VList [VInt 1]) (VSet [VInt 0; VInt 2]) [1%Z] [0%Z; 2%Z]
                eq_refl eq_refl) as [es' [Hes' [Hin Hord]]].
    exists es'. split; [assumption|]. split; [assumption|].
    now rewrite Hord.
  - apply (proj1 (H2 (VList [VList [VInt 1]]) 1 eq_refl ltac:(lia))).
Defined.

(** ** The shortcuts and the scan *)


Section Shortcuts.

Context {E : Engine}.
Variable g : graph.

Ltac prefix H :=
  repeat match type of H with
    | bind ?c _ = Err _ =>
        let err := fresh "err" in
        destruct c as [?|err]; cbn [bind] in H |- *; [|exact H]
    | (if ?b then _ else _) = Err _ =>
        destruct b; [exact H|]
    end.




(** Equality with a vertex index on an endpoint of a directed graph: the
    sorted result of the incidence query on the full view, the scan of the
    endpoints otherwise. *)
Lemma endpoint_equality_directed (es : view) (keyword attr : string)
  (mode : neimode) (endpoint : nat -> nat) (v : Z) :
  is_directed g = true ->
  edge_keyword keyword = (attr, "eq"%string, op_eq) ->
  (forall es op func value,
      reserved_idxs g es attr op func value
      = endpoint_idxs g es mode endpoint op func value) ->
  (exists rest, attr = String underscore rest) ->
  edge_filter g es keyword (VInt v)
  = Ok (if is_all (ecount g) es
        then sorted (incident g v mode)
        else filter (fun e => Z.eqb (Z.of_nat (endpoint e)) v) es).
Proof.
  intros Hd Hk Hr [rest ->].
  rewrite (edge_filter_underscore g es keyword (VInt v) rest "eq" op_eq Hk).
  rewrite undirected_rewrite_directed by assumption.
  cbn [bind fst snd]. rewrite Hr, endpoint_select.
  change (String.eqb "eq" "eq") with true.
  change (String.eqb "eq" "in" || String.eqb "eq" "notin") with false.
  rewrite andb_true_r. cbn [graph_incident bind].
  destruct (is_all (ecount g) es); [reflexivity|].
  apply (filterM_pure (fun e => Z.eqb (Z.of_nat (endpoint e)) v)).
Qed.

Lemma source_equality_directed (es : view) (v : Z) :
  is_directed g = true ->
  edge_filter g es "_source_eq" (VInt v)
  = Ok (if is_all (ecount g) es
        then sorted (incident g v OUT)
        else filter (fun e => Z.eqb (Z.of_nat (source g e)) v) es).
Proof.
  intros Hd.
  apply (endpoint_equality_directed es "_source_eq" "_source" OUT (source g) v
           Hd eq_refl); [reflexivity|now eexists].
Qed.

Lemma target_equality_directed (es : view) (v : Z) :
  is_directed g = true ->
  edge_filter g es "_target_eq" (VInt v)
  = Ok (if is_all (ecount g) es
        then sorted (incident g v IN)
        else filter (fun e => Z.eqb (Z.of_nat (target g e)) v) es).
Proof.
  intros Hd.
  apply (endpoint_equality_directed es "_target_eq" "_target" IN (target g) v
           Hd eq_refl); [reflexivity|now eexists].
Qed.


End Shortcuts.




(** ** The order of the result *)

Section Order.

Context {E : Engine}.
Variable g : graph.

(** On the full view [_incident] returns the edges in strictly increasing
    order, whatever its operand. *)
Lemma incident_full_increasing (value : val) (es' : view) :
  edge_filter g (seq 0 (ecount g)) "_incident" value = Ok es' ->
  StronglySorted lt es'.
Proof.
  rewrite edge_filter_incident, is_all_full.
  destruct (ensure_set value) as [s|err]; cbn [bind]; [|discriminate].
  destruct (candidates_of g (items s)) as [c|err] eqn:Hc; cbn [bind];
    [|discriminate].
  intros H. inversion H; subst.
  apply sorted_increasing. now apply (candidates_of_NoDup g (items s)).
Qed.

(** On the full view of a directed graph equality on an endpoint returns
    the edges in strictly increasing order. *)
Lemma endpoint_full_increasing (v : Z) (es' : view) :
  is_directed g = true ->
  edge_filter g (seq 0 (ecount g)) "_source_eq" (VInt v) = Ok es'
  \/ edge_filter g (seq 0 (ecount g)) "_target_eq" (VInt v) = Ok es' ->
  StronglySorted lt es'.
Proof.
  intros Hd [H|H].
  - rewrite source_equality_directed, is_all_full in H by assumption.
    inversion H; subst. apply sorted_increasing, incident_NoDup.
  - rewrite target_equality_directed, is_all_full in H by assumption.
    inversion H; subst. apply sorted_increasing, incident_NoDup.
Qed.

(** On the full view [_within] and [_between] return the edges in the
    order in which the candidate set is iterated. *)
Lemma within_full_order (value : val) (es' : view) :
  edge_filter g (seq 0 (ecount g)) "_within" value = Ok es' ->
  exists s c,
    ensure_set value = Ok s
    /\ candidates_of g (items s) = Ok c
    /\ es' = filter (both_in g s) c.
Proof.
  rewrite edge_filter_within, is_all_full.
  destruct (ensure_set value) as [s|err]; cbn [bind]; [|discriminate].
  destruct (candidates_of g (items s)) as [c|err] eqn:Hc; cbn [bind];
    [|discriminate].
  intros H. inversion H; subst. exists s, c. auto.
Qed.

(** A view that is not full is scanned: every reserved predicate returns
    the elements of the view that pass a test, in the order of the view. *)
Lemma scan_keeps_order (p : reserved_predicate) (es es' : view) :
  is_all (ecount g) es = false ->
  edge_filter g es (fst (keyword_of p)) (snd (keyword_of p)) = Ok es' ->
  exists keep : nat -> bool, es' = filter keep es.
Proof.
  intros Hall.
  destruct p as [s|s|o|v|v]; cbn [keyword_of fst snd].
  - rewrite edge_filter_incident, Hall.
    destruct (ensure_set s) as [s'|err]; cbn [bind]; [|discriminate].
    destruct (candidates_of g (items s')) as [c|err]; cbn [bind];
      [|discriminate].
    intros H. inversion H. eexists. reflexivity.
  - rewrite edge_filter_within, Hall.
    destruct (ensure_set s) as [s'|err]; cbn [bind]; [|discriminate].
    destruct (candidates_of g (items s')) as [c|err]; cbn [bind];
      [|discriminate].
    intros H. inversion H. eexists. reflexivity.
  - rewrite edge_filter_between, Hall.
    destruct (py_len o) as [n|err]; cbn [bind]; [|discriminate].
    destruct (negb (Nat.eqb n 2)); [discriminate|].
    destruct (py_getitem o 0) as [v0|err]; cbn [bind]; [|discriminate].
    destruct (ensure_set v0) as [set1|err]; cbn [bind]; [|discriminate].
    destruct (py_getitem o 1) as [v1|err]; cbn [bind]; [|discriminate].
    destruct (ensure_set v1) as [set2|err]; cbn [bind]; [|discriminate].
    destruct (candidates_of g (items set1 ++ items set2)) as [c|err];
      cbn [bind]; [|discriminate].
    intros H. inversion H. eexists. reflexivity.
  - destruct (is_directed g) eqn:Hd.
    + rewrite source_equality_directed, Hall by assumption.
      intros H. inversion H. eexists. reflexivity.
    + rewrite (equality_on_endpoint g Hd es "_source_eq" "_source" op_eq
                 (VInt v) eq_refl ltac:(simpl; tauto)).
      cbn [iterable_not_str].
      rewrite edge_filter_incident, Hall. cbn [ensure_set bind items].
      destruct (candidates_of g [VInt v]) as [c|err]; cbn [bind];
        [|discriminate].
      intros H. inversion H. eexists. reflexivity.
  - destruct (is_directed g) eqn:Hd.
    + rewrite target_equality_directed, Hall by assumption.
      intros H. inversion H. eexists. reflexivity.
    + rewrite (equality_on_endpoint g Hd es "_target_eq" "_target" op_eq
                 (VInt v) eq_refl ltac:(simpl; tauto)).
      cbn [iterable_not_str].
      rewrite edge_filter_incident, Hall. cbn [ensure_set bind items].
      destruct (candidates_of g [VInt v]) as [c|err]; cbn [bind];
        [|discriminate].
      intros H. inversion H. eexists. reflexivity.
Qed.

End Order.

Lemma incident_nine (v : Z) (mode : neimode) :
  v = 0%Z \/ v = 1%Z -> incident nine v mode = [1; 8].
Proof. intros [->| ->]; destruct mode; reflexivity. Qed.

(** C5, on the full view of [nine]. The branches [_within] and [_between]
    iterate the candidate set as it is, where [_incident] sorts it: when
    the set [{1, 8}] is iterated as [8, 1], as by its slots in CPython,
    [_within = [0, 1]] and [_between = ([0], [1])] return the edges in the
    order [8, 1], which is not increasing. *)
Theorem within_between_full_view_order :
  forall E : Engine,
    set_iteration [1; 8; 1; 8] = [8; 1] ->
    edge_filter nine (seq 0 (ecount nine)) "_within" (VList [VInt 0; VInt 1])
    = Ok [8; 1]
    /\ edge_filter nine (seq 0 (ecount nine)) "_between"
         (VList [VList [VInt 0]; VList [VInt 1]])
       = Ok [8; 1]
    /\ ~ StronglySorted lt [8; 1].
Proof.
  intros E Hiter. split; [|split].
  - rewrite edge_filter_within, is_all_full.
    cbn [ensure_set py_set existsb unhashable orb bind items].
    unfold candidates_of. cbn [mapM graph_incident bind].
    rewrite !incident_nine by tauto. cbn [List.concat app].
    rewrite Hiter. reflexivity.
  - rewrite edge_filter_between, is_all_full.
    cbn [py_len List.length Nat.eqb negb bind py_getitem nth_error
           ensure_set py_set existsb unhashable orb items app].
    unfold candidates_of. cbn [mapM graph_incident bind].
    rewrite !incident_nine by tauto. cbn [List.concat app].
    rewrite Hiter. reflexivity.
  - intros H. inversion H as [|a l _ Hall]; subst.
    inversion Hall as [|x l' Hlt _]; subst. lia.
Qed.

Lemma within_between_full_view_order_witness :
  edge_filter (E := igraph) nine (seq 0 (ecount nine)) "_within"
    (VList [VInt 0; VInt 1]) = Ok [8; 1]
  /\ edge_filter (E := igraph) nine (seq 0 (ecount nine)) "_between"
       (VList [VList [VInt 0]; VList [VInt 1]]) = Ok [8; 1]
  /\ ~ StronglySorted lt [8; 1].
Proof.
  apply (within_between_full_view_order igraph). reflexivity.
Defined.

(** ** [find] *)

Section FindFacts.

Context {E : Engine}.
Variable g : graph.

(** Without positional arguments [EdgeSeq.find] is the first element of
    what [EdgeSeq.select] returns, and [NotFound] when that is empty. *)
Lemma EdgeSeq_find_keywords (self : view) (kwds : list (string * val)) :
  EdgeSeq_find g self NoArgs kwds
  = (es <- EdgeSeq_select g self NoArgs kwds ;; first es).
Proof. reflexivity. Qed.

Lemma first_NotFound (es : view) (err : error) :
  first es = Err err <-> es = [] /\ err = NotFound.
Proof.
  destruct es as [|e es]; simpl; split.
  - intros H. now inversion H.
  - now intros [_ ->].
  - discriminate.
  - intros [H _]. discriminate.
Qed.

(** Without keywords [EdgeSeq.find] is the first element of the positional
    selection. *)
Lemma EdgeSeq_find_positional (self : view) (args : positional) :
  (forall s, args <> ArgName s) ->
  EdgeSeq_find g self args []
  = (es <- EdgeSeq_select g self args [] ;; first es).
Proof.
  intros Hn. unfold EdgeSeq_find, EdgeSeq_select, seq_find.
  destruct args as [| |f|l|s]; cbn [edge_keywords seq_select bind];
    rewrite ?bind_ok; try reflexivity.
  now destruct (Hn s).
Qed.

End FindFacts.

(** C8, on the three edges of [aged], with [w = [1, 10, 10]]. With a
    positional predicate that every edge passes and the keyword [w_gt = 5],
    [select] returns edges [1] and [2], and [find] fails with [NotFound]:
    it takes the first edge that passes the positional argument, edge [0],
    and tests the keywords on that edge alone. [VertexSeq.find] does the
    same with [age_gt = 20] on [age = [10, 25, 30]]. *)
Theorem find_checks_first_positional_match_only :
  forall E : Engine,
    EdgeSeq_select aged [0; 1; 2] (ArgCallable (fun _ => true))
      [("w_gt"%string, VInt 5)] = Ok [1; 2]
    /\ EdgeSeq_find aged [0; 1; 2] (ArgCallable (fun _ => true))
         [("w_gt"%string, VInt 5)] = Err NotFound
    /\ VertexSeq_select aged [0; 1; 2] (ArgCallable (fun _ => true))
         [("age_gt"%string, VInt 20)] = Ok [1; 2]
    /\ VertexSeq_find aged [0; 1; 2] (ArgCallable (fun _ => true))
         [("age_gt"%string, VInt 20)] = Err NotFound.
Proof.
  intros E. repeat split; reflexivity.
Qed.

(** * Further properties of the selection methods *)

(** ** The keyword parser on every keyword *)

(** A keyword has no underscore, or splits at its last one. *)
Lemma last_underscore (keyword : string) :
  contains underscore keyword = false
  \/ exists pre suf,
      keyword = (pre ++ String underscore suf)%string
      /\ contains underscore suf = false.
Proof.
  induction keyword as [|a s IH]; cbn [contains].
  - now left.
  - destruct IH as [Hs|[pre [suf [-> Hsuf]]]].
    + destruct (Ascii.eqb a underscore) eqn:Ha.
      * apply Ascii.eqb_eq in Ha. subst a.
        right. exists EmptyString, s. now split.
      * left. now rewrite Hs.
    + right. exists (String a pre), suf. now split.
Qed.

(** The three shapes of a keyword and what both parsers return on each. *)
Lemma keyword_shapes (keyword : string) :
  (edge_keyword keyword = (keyword, "eq"%string, op_eq)
   /\ vertex_keyword keyword = (keyword, "eq"%string, op_eq))
  \/ exists pre suf func,
      pre <> EmptyString
      /\ keyword = (pre ++ String underscore suf)%string
      /\ lookup suf operators = Some func
      /\ edge_keyword keyword = (pre, suf, func)
      /\ vertex_keyword keyword = (pre, suf, func).
Proof.
  destruct (last_underscore keyword) as [Hc|[pre [suf [Hk Hsuf]]]].
  - left. apply parse_default.
    unfold with_default_operator. now rewrite Hc.
  - destruct pre as [|a pre].
    + left. apply parse_default.
      unfold with_default_operator, rindex_is_zero.
      rewrite Hk. simpl.
      rewrite (contains_rindex _ _ Hsuf). reflexivity.
    + destruct (parse_split keyword (String a pre) suf ltac:(discriminate)
                  Hsuf Hk) as [He Hv].
      destruct (lookup suf operators) as [func|] eqn:Hl.
      * right. exists (String a pre), suf, func.
        repeat split; try assumption. discriminate.
      * left. now split.
Qed.

(** X1. [VertexSeq.select] and [EdgeSeq.select] parse every keyword alike,
    although one splits with [rpartition] and the other with [rindex] and
    slices. *)
Theorem parsers_agree :
  forall keyword : string, edge_keyword keyword = vertex_keyword keyword.
Proof.
  intros keyword.
  destruct (keyword_shapes keyword)
    as [[He Hv]|[pre [suf [func [_ [_ [_ [He Hv]]]]]]]];
    now rewrite He, Hv.
Qed.

(** X2. Parsing loses nothing: the keyword is its subject as a whole, with
    the operator [eq], or it is the subject, an underscore and the operator;
    and the function is always the entry of the operator in [operators]. *)
Theorem keyword_round_trip :
  forall (keyword attr op : string) (func : pyfunc),
    edge_keyword keyword = (attr, op, func) ->
    lookup op operators = Some func
    /\ ((attr = keyword /\ op = "eq"%string)
        \/ keyword = (attr ++ String underscore op)%string).
Proof.
  intros keyword attr op func Hk.
  split; [now apply (edge_keyword_lookup keyword attr)|].
  destruct (keyword_shapes keyword)
    as [[He _]|[pre [suf [f [_ [Hkw [_ [He _]]]]]]]];
    rewrite He in Hk; inversion Hk; subst; auto.
Qed.

Lemma keyword_round_trip_witness :
  lookup "notin" operators = Some op_notin
  /\ (("a_b"%string = "a_b_notin"%string /\ "notin"%string = "eq"%string)
      \/ "a_b_notin"%string = ("a_b" ++ String underscore "notin")%string).
Proof.
  apply (keyword_round_trip "a_b_notin" "a_b" "notin" op_notin). reflexivity.
Defined.

(** X3. [attr[0]] fails on the empty keyword and on no other: the subject
    of a keyword is empty exactly when the keyword is, and then both
    [select] methods end in [IndexError], whatever the view and operand. *)
Theorem empty_subject :
  forall keyword : string,
    (fst (fst (edge_keyword keyword)) = EmptyString <-> keyword = EmptyString)
    /\ (fst (fst (vertex_keyword keyword)) = EmptyString
        <-> keyword = EmptyString)
    /\ forall (E : Engine) (g : graph) (es : view) (value : val),
        edge_filter g es "" value = Err IndexOutOfRange
        /\ vertex_filter g es "" value = Err IndexOutOfRange.
Proof.
  intros keyword.
  assert (H : fst (fst (edge_keyword keyword)) = EmptyString
              <-> keyword = EmptyString).
  { split.
    - destruct (keyword_shapes keyword)
        as [[He _]|[pre [suf [f [Hpre [_ [_ [He _]]]]]]]];
        rewrite He; simpl; intros H; [assumption|contradiction].
    - now intros ->. }
  split; [exact H|]. split.
  - split.
    + destruct (keyword_shapes keyword)
        as [[_ Hv]|[pre [suf [f [Hpre [_ [_ [_ Hv]]]]]]]];
        rewrite Hv; simpl; intros H'; [assumption|contradiction].
    + now intros ->.
  - intros E g es value. split; reflexivity.
Qed.

(** ** Rounds of the keyword loop as filters *)










Section Regular.

Context {E : Engine}.
Variable g : graph.








End Regular.

Lemma seq_select_incl (self : view) (args : positional) (es : view) :
  seq_select self args = Ok es -> incl es self.
Proof.
  destruct args as [| |f|l|s]; simpl; intros H; try discriminate.
  - inversion H. apply incl_refl.
  - inversion H. intros e [].
  - inversion H. intros e He. now apply filter_In in He.
  - now apply narrow_incl with l.
Qed.

Section Within.

Context {E : Engine}.
Variable g : graph.

Lemma edge_keywords_incl (kwds : list (string * val)) (es es' : view) :
  edge_keywords g es kwds = Ok es' -> incl es' es.
Proof.
  revert es.
  induction kwds as [|[keyword value] kwds IH]; intros es H; simpl in H.
  - inversion H. apply incl_refl.
  - destruct (edge_filter g es keyword value) as [es1|err] eqn:H1;
      simpl in H; [|discriminate].
    apply incl_tran with es1; [now apply IH|].
    exact (edge_filter_incl g es es1 keyword value H1).
Qed.

Lemma vertex_keywords_incl (kwds : list (string * val)) (vs vs' : view) :
  vertex_keywords g vs kwds = Ok vs' -> incl vs' vs.
Proof.
  revert vs.
  induction kwds as [|[keyword value] kwds IH]; intros vs H; simpl in H.
  - inversion H. apply incl_refl.
  - destruct (vertex_filter g vs keyword value) as [vs1|err] eqn:H1;
      simpl in H; [|discriminate].
    apply incl_tran with vs1; [now apply IH|].
    apply (pointwise_incl (fun x => vertex_filter g x keyword value));
      [apply pointwise_vertex_filter|assumption].
Qed.


End Within.

(** X4. [select] never adds an element: whatever the positional and
    keyword arguments, and whatever shortcut through the incidence query a
    keyword takes, every element of the view returned is an element of
    the view [select] was called on. In particular a view of valid indices
    stays one. *)
Theorem select_stays_within_view :
  forall (E : Engine) (g : graph) (self : view) (args : positional)
         (kwds : list (string * val)) (es' : view),
    (EdgeSeq_select g self args kwds = Ok es' -> incl es' self)
    /\ (VertexSeq_select g self args kwds = Ok es' -> incl es' self).
Proof.
  intros E g self args kwds es'. split.
  - unfold EdgeSeq_select.
    destruct (seq_select self args) as [es|err] eqn:Hp; cbn [bind];
      [|discriminate].
    intros H. apply incl_tran with es.
    + exact (edge_keywords_incl g kwds es es' H).
    + exact (seq_select_incl self args es Hp).
  - unfold VertexSeq_select.
    destruct (seq_select self args) as [vs|err] eqn:Hp; cbn [bind];
      [|discriminate].
    intros H. apply incl_tran with vs.
    + exact (vertex_keywords_incl g kwds vs es' H).
    + exact (seq_select_incl self args vs Hp).
Qed.

Lemma select_stays_within_view_witness :
  incl [8; 1] (seq 0 (ecount nine)).
Proof.
  apply (proj1 (select_stays_within_view igraph nine (seq 0 (ecount nine))
                  NoArgs [("_within"%string, VList [VInt 0; VInt 1])] [8; 1])).
  reflexivity.
Defined.




(** ** [_within] and the endpoint operators of directed graphs *)

(** X7. [_within] with a set of vertex indices selects the edges of the
    view with both endpoints in the set, on directed and undirected graphs
    and whatever mode [incident] takes by default; when the view is not
    full they come in view order. *)
Theorem within_selector :
  forall (E : Engine) (g : graph) (es : view) (value : val) (S : list Z),
    ensure_set value = Ok (VSet (map VInt S)) ->
    exists es',
      edge_filter g es "_within" value = Ok es'
      /\ (forall e,
             In e es' <->
             In e es /\ e < ecount g
             /\ In (Z.of_nat (source g e)) S /\ In (Z.of_nat (target g e)) S)
      /\ (is_all (ecount g) es = false ->
          exists keep : nat -> bool, es' = filter keep es).
Proof.
  intros E g es value S Hs.
  rewrite edge_filter_within, Hs. cbn [bind items].
  rewrite candidates_of_ints. cbn [bind].
  set (c := set_iteration
              (List.concat
                 (map (fun z => incident g z incident_default_mode) S))).
  assert (Hc : forall e, both_in g (VSet (map VInt S)) e = true ->
                         (In e c <-> e < ecount g)).
  { intros e Hb. unfold c. rewrite set_iteration_In, in_concat.
    unfold both_in in Hb. rewrite andb_true_iff, !member_ints in Hb.
    split.
    - intros [l [Hl He]]. apply in_map_iff in Hl.
      destruct Hl as [z [<- _]]. now apply incident_In in He.
    - intros He.
      destruct (touches_endpoint g incident_default_mode e) as [Ht|Ht].
      + exists (incident g (Z.of_nat (source g e)) incident_default_mode).
        split; [|now apply incident_In].
        apply in_map_iff. exists (Z.of_nat (source g e)). tauto.
      + exists (incident g (Z.of_nat (target g e)) incident_default_mode).
        split; [|now apply incident_In].
        apply in_map_iff. exists (Z.of_nat (target g e)). tauto. }
  assert (Hb : forall e, both_in g (VSet (map VInt S)) e = true
                         <-> In (Z.of_nat (source g e)) S
                             /\ In (Z.of_nat (target g e)) S).
  { intros e. unfold both_in. now rewrite andb_true_iff, !member_ints. }
  eexists. split; [reflexivity|]. split.
  - intros e. destruct (is_all (ecount g) es) eqn:Hall.
    + rewrite filter_In, (is_all_eq g es Hall), in_full. split.
      * intros [He Hbe]. rewrite <- Hb. split; [now apply Hc|].
        split; [now apply Hc|assumption].
      * intros [He [_ Hbe]]. apply Hb in Hbe. split; [now apply Hc|assumption].
    + rewrite filter_In, andb_true_iff, existsb_eqb_In. split.
      * intros [He [Hin Hbe]]. rewrite <- Hb.
        split; [assumption|]. split; [now apply Hc|assumption].
      * intros [He [Hlt Hbe]]. apply Hb in Hbe.
        split; [assumption|]. split; [now apply Hc|assumption].
  - intros ->. eexists. reflexivity.
Qed.

Lemma within_selector_witness :
  exists es',
    edge_filter (E := igraph) triangle [2; 1; 0] "_within"
      (VList [VInt 0; VInt 2]) = Ok es'
    /\ (forall e,
           In e es' <->
           In e [2; 1; 0] /\ e < ecount triangle
           /\ In (Z.of_nat (source triangle e)) [0%Z; 2%Z]
           /\ In (Z.of_nat (target triangle e)) [0%Z; 2%Z])
    /\ es' = [2].
Proof.
  destruct (within_selector igraph triangle [2; 1; 0] (VList [VInt 0; VInt 2])
              [0%Z; 2%Z] eq_refl) as [es' [Hes' [Hin _]]].
  exists es'. split; [assumption|]. split; [assumption|].
  now inversion Hes'.
Defined.

Section DirectedEndpoints.

Context {E : Engine}.
Variable g : graph.
Hypothesis directed : is_directed g = true.

(** On a directed graph a keyword on an endpoint with an operator other
    than [eq] scans the view, the full view too. *)
Lemma endpoint_scan_directed (es : view) (keyword attr op : string)
  (func : pyfunc) (mode : neimode) (endpoint : nat -> nat) (value : val) :
  edge_keyword keyword = (attr, op, func) ->
  (exists rest, attr = String underscore rest) ->
  (forall es op func value,
      reserved_idxs g es attr op func value
      = endpoint_idxs g es mode endpoint op func value) ->
  String.eqb op "eq" = false ->
  edge_filter g es keyword value
  = (v <- (if String.eqb op "in" || String.eqb op "notin"
           then ensure_set value else Ok value) ;;
     filterM (fun e => call func (VInt (Z.of_nat (endpoint e))) v) es).
Proof.
  intros Hk [rest ->] Hr Hop.
  rewrite (edge_filter_underscore g es keyword value rest op func Hk).
  rewrite undirected_rewrite_directed by assumption.
  cbn [bind fst snd]. rewrite Hr, endpoint_select, Hop.
  now rewrite andb_false_r.
Qed.

End DirectedEndpoints.

Ltac endpoint_scan Hd attr rest op func mode endpoint :=
  match goal with
  | |- edge_filter ?g ?es ?k ?v = _ =>
      rewrite (endpoint_scan_directed g Hd es k attr op func mode endpoint v
                 eq_refl (ex_intro _ rest eq_refl)
                 (fun _ _ _ _ => eq_refl) eq_refl);
      cbn [String.eqb Ascii.eqb Bool.eqb orb andb bind]
  end.

(** X8. On a directed graph [_source] and [_target] with one of the
    operators [ne], [lt], [gt], [le], [ge] and an integer keep the edges
    whose source, or target, compares so with the integer, and with [in]
    and [notin] and a set of vertex indices the edges whose endpoint is, or
    is not, in the set; the view is scanned, the full view too, so that
    the edges come in view order. *)
Theorem directed_endpoint_operators :
  forall (E : Engine) (g : graph) (es : view),
    is_directed g = true ->
    (forall (op : string) (func : pyfunc) (z : Z),
        In (op, func) comparison_operators ->
        edge_filter g es ("_source_" ++ op) (VInt z)
        = Ok (filter (fun e => compare_Z func (Z.of_nat (source g e)) z) es)
        /\ edge_filter g es ("_target_" ++ op) (VInt z)
           = Ok (filter (fun e => compare_Z func (Z.of_nat (target g e)) z) es))
    /\ (forall (value : val) (S : val),
           ensure_set value = Ok S ->
           edge_filter g es "_source_in" value
           = Ok (filter (fun e => member (Z.of_nat (source g e)) S) es)
           /\ edge_filter g es "_target_in" value
              = Ok (filter (fun e => member (Z.of_nat (target g e)) S) es)
           /\ edge_filter g es "_source_notin" value
              = Ok (filter (fun e => negb (member (Z.of_nat (source g e)) S)) es)
           /\ edge_filter g es "_target_notin" value
              = Ok (filter (fun e => negb (member (Z.of_nat (target g e)) S)) es)).
Proof.
  intros E g es Hd. split.
  - intros op func z Hin. unfold comparison_operators in Hin. simpl in Hin.
    repeat (destruct Hin as [Hin|Hin];
            [inversion Hin; subst op func; clear Hin; split;
             match goal with
             | |- edge_filter _ _ ("_source_" ++ ?op)%string _
                  = Ok (filter (fun e => compare_Z ?func _ _) _) =>
                 endpoint_scan Hd "_source"%string "source"%string op func
                   OUT (source g)
             | |- edge_filter _ _ ("_target_" ++ ?op)%string _
                  = Ok (filter (fun e => compare_Z ?func _ _) _) =>
                 endpoint_scan Hd "_target"%string "target"%string op func
                   IN (target g)
             end;
             rewrite <- filterM_pure; apply filterM_ext; intros e _;
             reflexivity|]).
    contradiction.
  - intros value S HS.
    assert (Hm : forall x, py_in (VInt x) S = Ok (member x S)).
    { intros x. destruct value as [|z|s|l|l]; simpl in HS;
        try discriminate.
      - inversion HS; subst. reflexivity.
      - destruct (existsb unhashable l); inversion HS; subst. reflexivity.
      - inversion HS; subst. reflexivity. }
    repeat split.
    + endpoint_scan Hd "_source"%string "source"%string "in"%string op_in
        OUT (source g).
      rewrite HS. cbn [bind].
      rewrite <- filterM_pure. apply filterM_ext. intros e _. apply Hm.
    + endpoint_scan Hd "_target"%string "target"%string "in"%string op_in
        IN (target g).
      rewrite HS. cbn [bind].
      rewrite <- filterM_pure. apply filterM_ext. intros e _. apply Hm.
    + endpoint_scan Hd "_source"%string "source"%string "notin"%string
        op_notin OUT (source g).
      rewrite HS. cbn [bind].
      rewrite <- filterM_pure. apply filterM_ext. intros e _.
      cbn [call]. now rewrite Hm.
    + endpoint_scan Hd "_target"%string "target"%string "notin"%string
        op_notin IN (target g).
      rewrite HS. cbn [bind].
      rewrite <- filterM_pure. apply filterM_ext. intros e _.
      cbn [call]. now rewrite Hm.
Qed.

Lemma directed_endpoint_operators_witness :
  edge_filter (E := igraph) triangle (seq 0 (ecount triangle)) "_source_ge"
    (VInt 1) = Ok [1; 2]
  /\ edge_filter (E := igraph) triangle [2; 0; 1] "_target_notin"
       (VList [VInt 0]) = Ok [0; 1].
Proof.
  destruct (directed_endpoint_operators igraph triangle
              (seq 0 (ecount triangle)) eq_refl) as [H1 _].
  destruct (directed_endpoint_operators igraph triangle [2; 0; 1] eq_refl)
    as [_ H2].
  split.
  - apply (proj1 (H1 "ge"%string op_ge 1%Z ltac:(simpl; tauto))).
  - apply (proj2 (proj2 (proj2 (H2 (VList [VInt 0]) (VSet [VInt 0]) eq_refl)))).
Defined.

(** ** The [name] shortcut of [VertexSeq.find] *)

(** X9. Without positional arguments [VertexSeq.find] removes a [name]
    keyword whose operand is [None], or a [name_eq] keyword when there is
    no [name], and applies the other keywords only: [find(name=None)] is
    the first vertex of the view, whatever the names are and even when the
    graph has no [name] attribute, where [select(name=None)] tests the
    attribute. *)
Theorem find_drops_name_None :
  forall (g : graph) (self : view) (kwds : list (string * val)),
    (lookup "name" kwds = Some VNone ->
     VertexSeq_find g self NoArgs kwds
     = (vs <- VertexSeq_select g self NoArgs (pop "name" kwds) ;; first vs))
    /\ (lookup "name" kwds = None ->
        lookup "name_eq" kwds = Some VNone ->
        VertexSeq_find g self NoArgs kwds
        = (vs <- VertexSeq_select g self NoArgs (pop "name_eq" kwds) ;;
           first vs))
    /\ VertexSeq_find g self NoArgs [("name"%string, VNone)] = first self
    /\ (lookup "name" (vertex_attributes g) = None ->
        VertexSeq_select g self NoArgs [("name"%string, VNone)]
        = Err AttributeNotFound).
Proof.
  intros g self kwds. split; [|split; [|split]].
  - intros H. unfold VertexSeq_find, name_shortcut. now rewrite H.
  - intros H1 H2. unfold VertexSeq_find, name_shortcut. now rewrite H1, H2.
  - reflexivity.
  - intros H. unfold VertexSeq_select. cbn [seq_select bind vertex_keywords].
    unfold vertex_filter.
    replace (vertex_keyword "name") with ("name"%string, "eq"%string, op_eq)
      by reflexivity.
    cbn [Ascii.eqb Bool.eqb underscore]. unfold get_attribute.
    now rewrite H.
Qed.

Lemma find_drops_name_None_witness :
  VertexSeq_find aged [2; 1] NoArgs [("name", VNone); ("age_lt", VInt 30)]%string
  = Ok 1
  /\ VertexSeq_select aged [2; 1] NoArgs [("name", VNone)]%string
     = Err AttributeNotFound.
Proof.
  destruct (find_drops_name_None aged [2; 1]
              [("name", VNone); ("age_lt", VInt 30)]%string)
    as [H1 [_ [_ H4]]].
  split.
  - rewrite (H1 eq_refl). reflexivity.
  - apply (H4 eq_refl).
Defined.

(** * [Graph.dfs] *)

Lemma list_pop_None {A : Type} (l : list A) : list_pop l = None -> l = [].
Proof.
  unfold list_pop. intros H. rewrite <- (rev_involutive l).
  now destruct (rev l).
Qed.

Lemma list_pop_Some {A : Type} (l r : list A) (x : A) :
  list_pop l = Some (r, x) -> l = r ++ [x].
Proof.
  unfold list_pop. intros H. rewrite <- (rev_involutive l).
  destruct (rev l) as [|y t]; [discriminate|].
  inversion H; subst. reflexivity.
Qed.

Lemma setitem_Ok {A : Type} (l l' : list A) (i : nat) (x : A) :
  setitem l i x = Ok l' ->
  i < List.length l
  /\ List.length l' = List.length l
  /\ nth_error l' i = Some x
  /\ forall j, j <> i -> nth_error l' j = nth_error l j.
Proof.
  revert l' i. induction l as [|y l IH]; intros l' i H.
  - destruct i; discriminate.
  - destruct i as [|i]; simpl in H.
    + inversion H; subst. simpl. repeat split; try lia.
      intros [|j] Hj; [congruence|reflexivity].
    + destruct (setitem l i x) as [l''|e] eqn:Hs; [|discriminate].
      cbn [bind] in H. inversion H; subst.
      destruct (IH l'' i Hs) as [H1 [H2 [H3 H4]]].
      simpl. repeat split; try lia; try assumption.
      intros [|j] Hj; [reflexivity|]. simpl. apply H4. congruence.
Qed.

Lemma setitem_lt {A : Type} (l : list A) (i : nat) (x : A) :
  i < List.length l -> exists l', setitem l i x = Ok l'.
Proof.
  revert i. induction l as [|y l IH]; intros i H; simpl in H; [lia|].
  destruct i as [|i]; simpl.
  - eexists. reflexivity.
  - destruct (IH i ltac:(lia)) as [l' ->]. eexists. reflexivity.
Qed.

Lemma list_sum_update (f f' : nat -> nat) (n : nat) (l : list nat) :
  NoDup l -> In n l -> (forall v, v <> n -> f' v = f v) -> f' n = 0 ->
  list_sum (map f l) = f n + list_sum (map f' l).
Proof.
  intros Hnd Hin Hf Hn. induction l as [|x l IH]; [contradiction|].
  inversion Hnd as [|? ? Hx Hl]; subst. simpl.
  destruct Hin as [->|Hin].
  - rewrite Hn. f_equal. simpl. f_equal.
    apply map_ext_in. intros v Hv. symmetry. apply Hf. congruence.
  - rewrite (IH Hl Hin). rewrite Hf by congruence. lia.
Qed.

Section DfsFacts.

Variable neighbors : nat -> result (list nat).
Variable nv : nat.
Variable root : nat.

Lemma frame_ok_incl (vs vs' : list nat) (f : nat * list nat) :
  incl vs vs' -> frame_ok neighbors vs f -> frame_ok neighbors vs' f.
Proof.
  intros Hi [H1 [seen [H2 H3]]]. split; [now apply Hi|].
  exists seen. split; [assumption|]. intros u Hu. apply Hi. now apply H3.
Qed.

Lemma nth_error_repeat_false (n v : nat) :
  nth_error (repeat false n) v <> Some true.
Proof.
  revert v. induction n as [|n IH]; intros [|v]; simpl; try discriminate.
  apply IH.
Qed.

(** Entering the root gives a state with the invariant. *)
Lemma dfs_inv_root (st : dfs_state) :
  dfs_visit neighbors {| stack := []; vids := []; parents := [];
                         added := repeat false nv |} root root = Ok st ->
  dfs_inv neighbors nv root st.
Proof.
  unfold dfs_visit. cbn [added stack vids parents].
  destruct (neighbors root) as [ns|e] eqn:Hns; [|discriminate].
  cbn [bind].
  destruct (setitem (repeat false nv) root true) as [a|e] eqn:Ha;
    [|discriminate].
  cbn [bind]. intros H. inversion H; subst; clear H.
  destruct (setitem_Ok _ _ _ _ Ha) as [H1 [H2 [H3 H4]]].
  rewrite repeat_length in H1, H2.
  constructor; cbn [added stack vids parents app].
  - assumption.
  - intros v. split.
    + intros Hv. destruct (Nat.eq_dec v root) as [->|Hne]; [now left|].
      rewrite H4 in Hv by assumption.
      now destruct (nth_error_repeat_false nv v).
    + intros [<-|[]]. assumption.
  - constructor; [intros []|constructor].
  - reflexivity.
  - constructor; [|constructor]. split; [now left|].
    exists []. rewrite app_nil_r. split; [assumption|intros u []].
  - intros v [<-|[]] Hv. destruct Hv. now left.
  - split; reflexivity.
  - intros i Hi. simpl in Hi. lia.
Qed.

(** A round of the loop keeps the invariant. *)
Lemma dfs_inv_step (st st' : dfs_state) :
  dfs_inv neighbors nv root st -> dfs_step neighbors st = Ok st' -> dfs_inv neighbors nv root st'.
Proof.
  intros I. unfold dfs_step.
  destruct (stack st) as [|[vid ns] below] eqn:Hst.
  { intros H. now inversion H; subst. }
  pose proof (inv_frames st I) as Hfr. rewrite Hst in Hfr.
  inversion Hfr as [|? ? [Hvid [seen [Hseen Hseen']]] Hbelow]; subst.
  cbn [fst snd] in *.
  destruct (list_pop ns) as [[rest neighbor]|] eqn:Hpop.
  - apply list_pop_Some in Hpop. subst ns.
    rewrite <- app_assoc in Hseen. cbn [app] in Hseen.
    destruct (nth_error (added st) neighbor) as [[|]|] eqn:Hadd;
      [| |discriminate].
    + (* the neighbour has been visited *)
      intros H. inversion H; subst; clear H.
      apply (inv_added st I) in Hadd.
      constructor; cbn [added stack vids parents];
        try apply I.
      * constructor; [|assumption]. split; [assumption|].
        exists (neighbor :: seen). split; [assumption|].
        intros u [<-|Hu]; [assumption|now apply Hseen'].
      * intros v Hv Hn. apply (inv_left st I); [assumption|].
        now rewrite Hst.
    + (* the neighbour is entered *)
      unfold dfs_visit. cbn [added stack vids parents].
      destruct (neighbors neighbor) as [ms|e] eqn:Hms; [|discriminate].
      cbn [bind].
      destruct (setitem (added st) neighbor true) as [a|e] eqn:Ha;
        [|discriminate].
      cbn [bind]. intros H. inversion H; subst; clear H.
      destruct (setitem_Ok _ _ _ _ Ha) as [H1 [H2 [H3 H4]]].
      assert (Hnew : ~ In neighbor (vids st)).
      { intros Hin. apply (inv_added st I) in Hin. congruence. }
      assert (Hincl : incl (vids st) (vids st ++ [neighbor])).
      { intros u Hu. apply in_or_app. now left. }
      constructor; cbn [added stack vids parents].
      * rewrite H2. apply I.
      * intros v. rewrite in_app_iff.
        destruct (Nat.eq_dec v neighbor) as [->|Hne].
        -- split; [intros _; right; now left|intros _; assumption].
        -- rewrite H4 by assumption. rewrite (inv_added st I). split.
           ++ tauto.
           ++ intros [Hv|[Hv|[]]]; [assumption|congruence].
      * apply NoDup_app; [apply I|repeat constructor; intros []|].
        intros u Hu [<-|[]]. contradiction.
      * rewrite !length_app. simpl. now rewrite (inv_length st I).
      * constructor; [|constructor].
        -- split; [apply in_or_app; right; now left|].
           exists []. rewrite app_nil_r. split; [assumption|intros u []].
        -- split; [now apply Hincl|].
           exists (neighbor :: seen). split; [assumption|].
           intros u [<-|Hu]; [apply in_or_app; right; now left|].
           apply Hincl. now apply Hseen'.
        -- eapply Forall_impl; [|exact Hbelow].
           intros f. now apply frame_ok_incl.
      * intros v Hv Hn. cbn [map fst] in Hn.
        apply in_app_iff in Hv. destruct Hv as [Hv|[<-|[]]].
        -- destruct (inv_left st I v Hv) as [l [Hl Hl']].
           { rewrite Hst. cbn [map fst]. intros [<-|Hin]; apply Hn.
             - right. now left.
             - right. now right. }
           exists l. split; [assumption|].
           intros u Hu. apply Hincl. now apply Hl'.
        -- destruct Hn. now left.
      * destruct (inv_root st I) as [Hr1 Hr2]. split.
        -- destruct (vids st); [discriminate|assumption].
        -- destruct (parents st); [discriminate|assumption].
      * intros i Hi. rewrite length_app in Hi. simpl in Hi.
        destruct (Nat.eq_dec i (List.length (vids st))) as [->|Hne].
        -- destruct (In_nth _ _ 0 Hvid) as [j [Hj Hj']].
           exists j, (rest ++ neighbor :: seen).
           rewrite (inv_length st I) at 2 3.
           rewrite !nth_middle.
           rewrite app_nth1 by assumption.
           repeat split; try assumption.
           apply in_or_app. right. now left.
        -- destruct (inv_tree st I i ltac:(lia)) as [j [l [Hj [Hp [Hl Hl']]]]].
           exists j, l.
           rewrite !app_nth1 by (rewrite <- ?(inv_length st I); lia).
           repeat split; assumption.
  - (* the frame is left *)
    apply list_pop_None in Hpop. subst ns. cbn [app] in Hseen.
    intros H. inversion H; subst; clear H.
    constructor; cbn [added stack vids parents]; try apply I.
    + assumption.
    + intros v Hv Hn.
      destruct (Nat.eq_dec v vid) as [->|Hne].
      * exists seen. split; assumption.
      * apply (inv_left st I); [assumption|].
        rewrite Hst. cbn [map fst]. intros [Heq|Hin]; [congruence|].
        now apply Hn.
Qed.

End DfsFacts.

Section DfsRuns.

Variable neighbors : nat -> result (list nat).
Variable nv : nat.

(** Entering a vertex that has not been visited moves its rounds from the
    vertices to come to the stack. *)
Lemma dfs_measure_visit (st st' : dfs_state) (v parent : nat) :
  List.length (added st) = nv ->
  nth_error (added st) v <> Some true ->
  dfs_visit neighbors st v parent = Ok st' ->
  dfs_measure neighbors nv st' = dfs_measure neighbors nv st.
Proof.
  intros Hlen Hv. unfold dfs_visit.
  destruct (neighbors v) as [ns|e] eqn:Hns; [|discriminate]. cbn [bind].
  destruct (setitem (added st) v true) as [a|e] eqn:Ha; [|discriminate].
  cbn [bind]. intros H. inversion H; subst; clear H.
  destruct (setitem_Ok _ _ _ _ Ha) as [H1 [H2 [H3 H4]]].
  unfold dfs_measure. cbn [stack added map snd].
  rewrite (list_sum_update
             (fun u => match nth_error (added st) u with
                       | Some true => 0
                       | _ => 1 + neighbor_count neighbors u
                       end)
             (fun u => match nth_error a u with
                       | Some true => 0
                       | _ => 1 + neighbor_count neighbors u
                       end) v (seq 0 (List.length (added st)))).
  - assert (Hc : neighbor_count neighbors v = List.length ns).
    { unfold neighbor_count. now rewrite Hns. }
    unfold list_sum. cbn [fold_right].
    destruct (nth_error (added st) v) as [[|]|]; [congruence| |]; lia.
  - apply seq_NoDup.
  - apply in_seq. lia.
  - intros u Hu. now rewrite H4.
  - now rewrite H3.
Qed.

(** Every round of the loop takes one off the measure. *)
Lemma dfs_measure_step (st st' : dfs_state) :
  List.length (added st) = nv -> stack st <> [] ->
  dfs_step neighbors st = Ok st' ->
  dfs_measure neighbors nv st = S (dfs_measure neighbors nv st').
Proof.
  intros Hlen Hne. unfold dfs_step.
  destruct (stack st) as [|[vid ns] below] eqn:Hst; [congruence|].
  destruct (list_pop ns) as [[rest neighbor]|] eqn:Hpop.
  - apply list_pop_Some in Hpop. subst ns.
    assert (Hm : dfs_measure neighbors nv st
                 = S (dfs_measure neighbors nv
                        {| stack := (vid, rest) :: below; vids := vids st;
                           parents := parents st; added := added st |})).
    { unfold dfs_measure. rewrite Hst.
      cbn [stack added map snd]. rewrite length_app.
      unfold list_sum. simpl. lia. }
    destruct (nth_error (added st) neighbor) as [[|]|] eqn:Hadd;
      [| |discriminate].
    + intros H. inversion H; subst. exact Hm.
    + intros H. rewrite Hm. f_equal. symmetry.
      apply (dfs_measure_visit _ _ neighbor vid); [assumption| |assumption].
      cbn [added]. congruence.
  - apply list_pop_None in Hpop. subst ns.
    intros H. inversion H; subst; clear H.
    unfold dfs_measure. rewrite Hst. cbn [stack added map snd].
    unfold list_sum. simpl. lia.
Qed.

Lemma dfs_measure_root (st : dfs_state) (root : nat) :
  dfs_visit neighbors {| stack := []; vids := []; parents := [];
                         added := repeat false nv |} root root = Ok st ->
  dfs_measure neighbors nv st = dfs_rounds neighbors nv.
Proof.
  intros H.
  rewrite (dfs_measure_visit
             {| stack := []; vids := []; parents := [];
                added := repeat false nv |} st root root
             (repeat_length false nv) (nth_error_repeat_false nv root) H).
  unfold dfs_measure, dfs_rounds. cbn [stack added map].
  unfold list_sum at 1. cbn [fold_right plus].
  apply f_equal, map_ext. intros v.
  pose proof (nth_error_repeat_false nv v) as Hv.
  now destruct (nth_error (repeat false nv) v) as [[|]|].
Qed.

(** The loop ends within the rounds the measure counts, with a result or an
    error. *)
Lemma dfs_loop_ends (root fuel : nat) (st : dfs_state) :
  dfs_inv neighbors nv root st -> dfs_measure neighbors nv st <= fuel ->
  dfs_loop neighbors fuel st <> None.
Proof.
  revert st. induction fuel as [|fuel IH]; intros st I Hm.
  - destruct (stack st) as [|f below] eqn:Hst; simpl; rewrite Hst;
      [discriminate|].
    unfold dfs_measure in Hm. rewrite Hst in Hm. simpl in Hm. lia.
  - simpl. destruct (stack st) as [|f below] eqn:Hst; [discriminate|].
    destruct (dfs_step neighbors st) as [st'|e] eqn:Hs; [|discriminate].
    apply IH.
    + eapply dfs_inv_step; eassumption.
    + pose proof (dfs_measure_step st st' (inv_added_length st I)) as H.
      rewrite Hst in H. specialize (H ltac:(discriminate) Hs). lia.
Qed.

(** More rounds than the loop takes change nothing. *)
Lemma dfs_loop_more (fuel fuel' : nat) (st : dfs_state)
  (r : result (list nat * list nat)) :
  dfs_loop neighbors fuel st = Some r -> fuel <= fuel' ->
  dfs_loop neighbors fuel' st = Some r.
Proof.
  revert fuel' st. induction fuel as [|fuel IH]; intros fuel' st H Hle.
  - simpl in H. destruct fuel'; simpl;
      destruct (stack st); try discriminate; assumption.
  - destruct fuel' as [|fuel']; [lia|]. simpl in *.
    destruct (stack st); [assumption|].
    destruct (dfs_step neighbors st); [|assumption].
    apply IH; [assumption|lia].
Qed.

(** What the loop returns are the lists of a state with the invariant and
    an empty stack. *)
Lemma dfs_loop_result (root fuel : nat) (st : dfs_state) (vs ps : list nat) :
  dfs_inv neighbors nv root st ->
  dfs_loop neighbors fuel st = Some (Ok (vs, ps)) ->
  exists st', dfs_inv neighbors nv root st' /\ stack st' = []
              /\ vids st' = vs /\ parents st' = ps.
Proof.
  revert st. induction fuel as [|fuel IH]; intros st I H; simpl in H;
    destruct (stack st) as [|f below] eqn:Hst; try discriminate.
  - inversion H; subst. now exists st.
  - inversion H; subst. now exists st.
  - destruct (dfs_step neighbors st) as [st'|e] eqn:Hs; [|discriminate].
    apply (IH st'); [|assumption]. eapply dfs_inv_step; eassumption.
Qed.

Lemma dfs_visited_lt (root : nat) (st : dfs_state) (v : nat) :
  dfs_inv neighbors nv root st -> In v (vids st) -> v < nv.
Proof.
  intros I Hv. apply (inv_added st I) in Hv.
  rewrite <- (inv_added_length st I). apply nth_error_Some. congruence.
Qed.

(** When the engine answers every vertex of the graph with vertices of the
    graph, no round fails. *)
Lemma dfs_step_Ok (root : nat) (st : dfs_state) :
  (forall v, v < nv ->
     exists l, neighbors v = Ok l /\ forall u, In u l -> u < nv) ->
  dfs_inv neighbors nv root st -> exists st', dfs_step neighbors st = Ok st'.
Proof.
  intros Hn I. unfold dfs_step.
  destruct (stack st) as [|[vid ns] below] eqn:Hst; [now exists st|].
  pose proof (inv_frames st I) as Hfr. rewrite Hst in Hfr.
  inversion Hfr as [|? ? [Hvid [seen [Hseen _]]] _]; subst.
  cbn [fst snd] in *.
  destruct (list_pop ns) as [[rest neighbor]|] eqn:Hpop;
    [|eexists; reflexivity].
  apply list_pop_Some in Hpop. subst ns.
  destruct (Hn vid (dfs_visited_lt root st vid I Hvid)) as [l [Hl Hl']].
  rewrite Hl in Hseen. inversion Hseen; subst l.
  assert (Hlt : neighbor < nv).
  { apply Hl'. rewrite <- app_assoc. apply in_or_app. right. now left. }
  destruct (nth_error (added st) neighbor) as [[|]|] eqn:Hadd.
  - eexists. reflexivity.
  - unfold dfs_visit. cbn [added].
    destruct (Hn neighbor Hlt) as [ms [-> _]]. cbn [bind].
    destruct (setitem_lt (added st) neighbor true) as [a ->].
    { now rewrite (inv_added_length st I). }
    eexists. reflexivity.
  - apply nth_error_None in Hadd. rewrite (inv_added_length st I) in Hadd.
    lia.
Qed.

Lemma dfs_loop_Ok (root fuel : nat) (st : dfs_state) :
  (forall v, v < nv ->
     exists l, neighbors v = Ok l /\ forall u, In u l -> u < nv) ->
  dfs_inv neighbors nv root st -> dfs_measure neighbors nv st <= fuel ->
  exists r, dfs_loop neighbors fuel st = Some (Ok r).
Proof.
  intros Hn. revert st. induction fuel as [|fuel IH]; intros st I Hm.
  - destruct (stack st) as [|f below] eqn:Hst; simpl; rewrite Hst.
    + eexists. reflexivity.
    + unfold dfs_measure in Hm. rewrite Hst in Hm. simpl in Hm. lia.
  - simpl. destruct (stack st) as [|f below] eqn:Hst;
      [eexists; reflexivity|].
    destruct (dfs_step_Ok root st Hn I) as [st' Hs]. rewrite Hs.
    apply IH.
    + eapply dfs_inv_step; eassumption.
    + pose proof (dfs_measure_step st st' (inv_added_length st I)) as H.
      rewrite Hst in H. specialize (H ltac:(discriminate) Hs). lia.
Qed.

(** A result of [dfs] comes from a state with the invariant and an empty
    stack. *)
Lemma dfs_result (root fuel : nat) (vs ps : list nat) :
  dfs neighbors nv fuel root = Some (Ok (vs, ps)) ->
  exists st, dfs_inv neighbors nv root st /\ stack st = []
             /\ vids st = vs /\ parents st = ps.
Proof.
  unfold dfs.
  destruct (dfs_visit neighbors _ root root) as [st|e] eqn:Hv;
    [|discriminate].
  apply dfs_loop_result. now apply dfs_inv_root.
Qed.

End DfsRuns.

(** X10. [Graph.dfs] ends: one round of the loop for every vertex of the
    graph and one for every neighbour the engine gives for it are enough,
    whatever the engine answers, and more rounds change nothing; when the
    engine answers every vertex of the graph with vertices of the graph
    and the root is one of them, [dfs] returns its two lists. *)
Theorem dfs_terminates :
  forall (neighbors : nat -> result (list nat)) (nv root fuel : nat),
    dfs_rounds neighbors nv <= fuel ->
    dfs neighbors nv fuel root <> None
    /\ dfs neighbors nv fuel root
       = dfs neighbors nv (dfs_rounds neighbors nv) root
    /\ ((forall v, v < nv ->
           exists l, neighbors v = Ok l /\ forall u, In u l -> u < nv) ->
        root < nv ->
        exists vs ps, dfs neighbors nv fuel root = Some (Ok (vs, ps))).
Proof.
  intros neighbors nv root fuel Hfuel. unfold dfs.
  destruct (dfs_visit neighbors _ root root) as [st|e] eqn:Hv.
  - pose proof (dfs_inv_root neighbors nv root st Hv) as I.
    pose proof (dfs_measure_root neighbors nv st root Hv) as Hm.
    split; [|split].
    + apply (dfs_loop_ends neighbors nv root); [assumption|lia].
    + destruct (dfs_loop neighbors (dfs_rounds neighbors nv) st)
        as [r|] eqn:Hr.
      * now apply (dfs_loop_more neighbors _ fuel) in Hr.
      * apply (dfs_loop_ends neighbors nv root) in Hr;
          [contradiction|assumption|lia].
    + intros Hn _.
      destruct (dfs_loop_Ok neighbors nv root fuel st Hn I ltac:(lia))
        as [[vs ps] Hr].
      now exists vs, ps.
  - split; [discriminate|]. split; [reflexivity|].
    intros Hn Hroot. exfalso. revert Hv. unfold dfs_visit.
    destruct (Hn root Hroot) as [l [-> _]]. cbn [bind added].
    destruct (setitem_lt (repeat false nv) root true) as [a ->].
    { now rewrite repeat_length. }
    discriminate.
Qed.

Lemma dfs_terminates_witness :
  Graph_dfs triangle 10 0 OUT <> None
  /\ Graph_dfs triangle 10 0 OUT = Graph_dfs triangle 6 0 OUT
  /\ exists vs ps, Graph_dfs triangle 10 0 OUT = Some (Ok (vs, ps)).
Proof.
  assert (Hfuel : dfs_rounds (graph_neighbors triangle OUT) (vcount triangle)
                  <= 10).
  { vm_compute. repeat constructor. }
  destruct (dfs_terminates (graph_neighbors triangle OUT) (vcount triangle)
              0 10 Hfuel) as [H1 [H2 H3]].
  split; [exact H1|]. split; [exact H2|].
  apply H3; [|cbv; repeat constructor].
  intros v Hv. change (v < 3) in Hv.
  destruct v as [|[|[|v]]]; [| | |lia];
    (eexists; split; [reflexivity|]);
    intros u [<-|[]]; vm_compute; repeat constructor.
Defined.

(** X11. The lists [dfs] returns have the same length and start with the
    root; no vertex comes twice among the visited ones, all of them are
    vertices of the graph, and every one but the root has as its parent a
    vertex visited before it, of which the engine gave it as a neighbour. *)
Theorem dfs_returns_tree :
  forall (neighbors : nat -> result (list nat)) (nv root fuel : nat)
         (vs ps : list nat),
    dfs neighbors nv fuel root = Some (Ok (vs, ps)) ->
    List.length vs = List.length ps
    /\ hd_error vs = Some root /\ hd_error ps = Some root
    /\ NoDup vs
    /\ (forall v, In v vs -> v < nv)
    /\ (forall i, 0 < i < List.length vs ->
          exists j l, j < i /\ nth j vs 0 = nth i ps 0
                      /\ neighbors (nth i ps 0) = Ok l
                      /\ In (nth i vs 0) l).
Proof.
  intros neighbors nv root fuel vs ps H.
  destruct (dfs_result neighbors nv root fuel vs ps H)
    as [st [I [_ [<- <-]]]].
  split; [apply I|]. split; [apply I|]. split; [apply I|].
  split; [apply I|]. split; [|apply I].
  intros v. exact (dfs_visited_lt neighbors nv root st v I).
Qed.

Lemma dfs_returns_tree_witness :
  Graph_dfs triangle 10 0 ALL = Some (Ok ([0; 2; 1], [0; 0; 2]))
  /\ NoDup [0; 2; 1]
  /\ (forall v, In v [0; 2; 1] -> v < 3).
Proof.
  split; [reflexivity|].
  destruct (dfs_returns_tree (graph_neighbors triangle ALL) (vcount triangle)
              0 10 [0; 2; 1] [0; 0; 2] eq_refl) as [_ [_ [_ [H1 [H2 _]]]]].
  split; assumption.
Defined.



(** * [Graph.get_all_simple_paths] *)

Lemma slice_middle {A : Type} (pre p post : list A) :
  slice (List.length pre) (List.length pre + List.length p) (pre ++ p ++ post)
  = p.
Proof.
  unfold slice. rewrite skipn_app, skipn_all, Nat.sub_diag. cbn [skipn app].
  replace (List.length pre + List.length p - List.length pre)
    with (List.length p) by lia.
  rewrite firstn_app, firstn_all, Nat.sub_diag. cbn [firstn].
  apply app_nil_r.
Qed.

(** Items that are not negative are passed over. *)
Lemma simple_paths_skip (paths xs tl : list Z) (index prev : nat)
  (result : list (list Z)) :
  Forall (fun x => 0 <= x)%Z xs ->
  simple_paths_loop paths index (xs ++ tl) prev result
  = simple_paths_loop paths (index + List.length xs) tl prev result.
Proof.
  intros H. revert index.
  induction H as [|x xs Hx _ IH]; intros index; cbn [app List.length].
  - now rewrite Nat.add_0_r.
  - cbn [simple_paths_loop].
    destruct (Z.ltb_spec x 0) as [Hlt|_]; [lia|].
    rewrite IH. f_equal. lia.
Qed.

Lemma simple_paths_terminated (ps : list (list Z)) :
  forall (seps rest pre : list Z) (result : list (list Z)),
    List.length seps = List.length ps ->
    Forall (Forall (fun x => 0 <= x)%Z) ps ->
    Forall (fun s => s < 0)%Z seps ->
    Forall (fun x => 0 <= x)%Z rest ->
    simple_paths_loop (pre ++ terminated ps seps ++ rest) (List.length pre)
      (terminated ps seps ++ rest) (List.length pre) result
    = result ++ ps.
Proof.
  induction ps as [|p ps IH]; intros seps rest pre result Hlen Hps Hseps Hrest.
  - destruct seps; [|discriminate]. unfold terminated. cbn [combine map List.concat app].
    pose proof (simple_paths_skip (pre ++ rest) rest [] (List.length pre)
                  (List.length pre) result Hrest) as Hskip.
    rewrite app_nil_r in Hskip. rewrite Hskip.
    cbn [simple_paths_loop]. now rewrite app_nil_r.
  - destruct seps as [|s seps]; [discriminate|].
    inversion Hps as [|? ? Hp Hps']; subst.
    inversion Hseps as [|? ? Hs Hseps']; subst.
    unfold terminated. cbn [combine map List.concat]. fold (terminated ps seps).
    rewrite <- !app_assoc.
    rewrite simple_paths_skip by assumption.
    cbn [app simple_paths_loop].
    destruct (Z.ltb_spec s 0) as [_|Hge]; [|lia].
    rewrite slice_middle.
    replace (pre ++ p ++ s :: terminated ps seps ++ rest)
      with ((pre ++ p ++ [s]) ++ terminated ps seps ++ rest)
      by (now rewrite <- !app_assoc).
    replace (S (List.length pre + List.length p))
      with (List.length (pre ++ p ++ [s]))
      by (rewrite !length_app; simpl; lia).
    rewrite IH; try assumption.
    + now rewrite <- app_assoc.
    + simpl in Hlen. lia.
Qed.

(** Every list of integers is a list of paths without negative items, each
    followed by a negative item, and a rest without negative items. *)
Lemma terminated_exists (paths : list Z) :
  exists (ps : list (list Z)) (seps rest : list Z),
    List.length seps = List.length ps
    /\ Forall (Forall (fun x => 0 <= x)%Z) ps
    /\ Forall (fun s => s < 0)%Z seps
    /\ Forall (fun x => 0 <= x)%Z rest
    /\ paths = terminated ps seps ++ rest.
Proof.
  induction paths as [|x paths IH].
  - exists [], [], []. repeat split; constructor.
  - destruct IH as [ps [seps [rest [Hlen [Hps [Hseps [Hrest ->]]]]]]].
    destruct (Z.ltb_spec x 0) as [Hlt|Hge].
    + exists ([] :: ps), (x :: seps), rest.
      repeat split; try assumption.
      * simpl. now rewrite Hlen.
      * constructor; [constructor|assumption].
      * now constructor.
    + destruct ps as [|p ps].
      * destruct seps; [|discriminate].
        exists [], [], (x :: rest). repeat split; try assumption.
        now constructor.
      * destruct seps as [|s seps]; [discriminate|].
        inversion Hps as [|? ? Hp Hps']; subst.
        exists ((x :: p) :: ps), (s :: seps), rest.
        repeat split; try assumption.
        constructor; [now constructor|assumption].
Qed.

(** X13. [get_all_simple_paths] cuts the list of the engine at its negative
    items: from paths without negative items, each followed by a negative
    item, and a rest without negative items, it returns the paths, and
    drops the rest; every list of integers is of that form. *)
Theorem simple_paths_round_trip :
  (forall (ps : list (list Z)) (seps rest : list Z),
      List.length seps = List.length ps ->
      Forall (Forall (fun x => 0 <= x)%Z) ps ->
      Forall (fun s => s < 0)%Z seps ->
      Forall (fun x => 0 <= x)%Z rest ->
      get_all_simple_paths (terminated ps seps ++ rest) = ps)
  /\ (forall paths : list Z,
         exists (ps : list (list Z)) (seps rest : list Z),
           List.length seps = List.length ps
           /\ Forall (Forall (fun x => 0 <= x)%Z) ps
           /\ Forall (fun s => s < 0)%Z seps
           /\ Forall (fun x => 0 <= x)%Z rest
           /\ paths = terminated ps seps ++ rest).
Proof.
  split.
  - intros ps seps rest Hlen Hps Hseps Hrest. unfold get_all_simple_paths.
    apply (simple_paths_terminated ps seps rest [] [] Hlen Hps Hseps Hrest).
  - apply terminated_exists.
Qed.

Lemma simple_paths_round_trip_witness :
  get_all_simple_paths [0; 1; 2; -1; 0; 2; -1; 5]%Z = [[0; 1; 2]; [0; 2]]%Z.
Proof.
  apply (proj1 simple_paths_round_trip [[0; 1; 2]; [0; 2]]%Z [-1; -1]%Z [5]%Z).
  - reflexivity.
  - repeat constructor; lia.
  - repeat constructor; lia.
  - repeat constructor; lia.
Defined.

(** * [Graph.k_core] *)

Lemma filter_seq_increasing (p : nat -> bool) (a n : nat) :
  StronglySorted lt (filter p (seq a n)).
Proof.
  revert a. induction n as [|n IH]; intros a; cbn [seq filter];
    [constructor|].
  destruct (p a); [|apply IH].
  constructor; [apply IH|].
  apply Forall_forall. intros v Hv. apply filter_In in Hv.
  destruct Hv as [Hv _]. apply in_seq in Hv. lia.
Qed.

(** X14. Without arguments [k_core] raises [IndexError] on a graph with at
    most one vertex, where it looks at [args[0]]; on a larger graph it
    returns the list of the cores [0] to [vcount - 1]. *)
Theorem k_core_without_arguments :
  forall (corenesses : nat -> Z) (nv : nat),
    (nv <= 1 -> k_core corenesses nv [] = Err IndexOutOfRange)
    /\ (2 <= nv ->
        k_core corenesses nv []
        = Ok (Cores (map (fun k => core_idxs corenesses nv (Z.of_nat k))
                       (seq 0 nv)))).
Proof.
  intros corenesses nv. unfold k_core. rewrite length_map, length_seq.
  split; intros H.
  - destruct (Nat.ltb_spec 1 nv); [lia|reflexivity].
  - destruct (Nat.ltb_spec 1 nv); [|lia]. cbn [bind].
    now rewrite map_map.
Qed.

Lemma k_core_without_arguments_witness :
  k_core (fun _ => 0%Z) 1 [] = Err IndexOutOfRange
  /\ k_core (fun v => Z.of_nat v) 2 [] = Ok (Cores [[0; 1]; [1]]).
Proof.
  split.
  - apply (proj1 (k_core_without_arguments (fun _ => 0%Z) 1)). lia.
  - apply (proj2 (k_core_without_arguments (fun v => Z.of_nat v) 2)). lia.
Defined.

(** X15. With arguments [k_core] never fails. It returns one core when the
    first argument is an integer and the others give no index, and
    otherwise the list of the cores of the indices the arguments give, in
    the order of the arguments. *)
Theorem k_core_with_arguments :
  forall (corenesses : nat -> Z) (nv : nat) (arg : core_arg)
         (args : list core_arg),
    k_core corenesses nv (arg :: args)
    = match arg, core_indices args with
      | CoreInt k, [] => Ok (OneCore (core_idxs corenesses nv k))
      | _, _ => Ok (Cores (map (core_idxs corenesses nv)
                             (core_indices (arg :: args))))
      end.
Proof.
  intros corenesses nv arg args. unfold k_core.
  cbn [core_indices flat_map]. fold (core_indices args).
  destruct arg as [k|ks].
  - destruct (core_indices args) as [|k' ks']; reflexivity.
  - cbn [has_iter].
    destruct (Nat.ltb 1 (List.length (ks ++ core_indices args)));
      cbn [bind]; now destruct (core_indices args).
Qed.

(** X16. The cores are nested: the core of a larger index is the core of a
    smaller one without the vertices of smaller coreness, and every core
    lists vertices of the graph in increasing order. *)
Theorem k_cores_nested :
  forall (corenesses : nat -> Z) (nv : nat) (k k' : Z),
    (k <= k')%Z ->
    core_idxs corenesses nv k'
    = filter (fun v => (k' <=? corenesses v)%Z) (core_idxs corenesses nv k)
    /\ incl (core_idxs corenesses nv k') (core_idxs corenesses nv k)
    /\ StronglySorted lt (core_idxs corenesses nv k')
    /\ (forall v, In v (core_idxs corenesses nv k') <->
                  v < nv /\ (k' <= corenesses v)%Z).
Proof.
  intros corenesses nv k k' Hk.
  assert (Hin : forall j v, In v (core_idxs corenesses nv j) <->
                            v < nv /\ (j <= corenesses v)%Z).
  { intros j v. unfold core_idxs. rewrite filter_In, in_seq, Z.leb_le. lia. }
  split; [|split; [|split]].
  - unfold core_idxs. induction (seq 0 nv) as [|v l IH]; [reflexivity|].
    cbn [filter].
    destruct (Z.leb_spec k' (corenesses v)) as [H1|H1];
      destruct (Z.leb_spec k (corenesses v)) as [H2|H2]; try lia;
      cbn [filter]; rewrite ?IH.
    + destruct (Z.leb_spec k' (corenesses v)); [reflexivity|lia].
    + destruct (Z.leb_spec k' (corenesses v)); [lia|reflexivity].
    + reflexivity.
  - intros v. rewrite !Hin. lia.
  - apply filter_seq_increasing.
  - apply Hin.
Qed.

Lemma k_cores_nested_witness :
  incl (core_idxs (fun v => Z.of_nat v) 4 2) (core_idxs (fun v => Z.of_nat v) 4 1)
  /\ core_idxs (fun v => Z.of_nat v) 4 2
     = filter (fun v => (2 <=? Z.of_nat v)%Z) (core_idxs (fun v => Z.of_nat v) 4 1).
Proof.
  destruct (k_cores_nested (fun v => Z.of_nat v) 4 1 2 ltac:(lia))
    as [H1 [H2 _]].
  split; assumption.
Defined.

(** * [Graph.biconnected_components] *)

Section BiconnectedFacts.

Context {E : Engine}.
Variable g : graph.

Lemma mapM_edgelist_item (tree : list nat) :
  (forall e, In e tree -> e < ecount g) ->
  mapM (edgelist_item g) tree
  = Ok (map (fun e => (source g e, target g e)) tree).
Proof.
  induction tree as [|e tree IH]; intros H; [reflexivity|].
  cbn [mapM map]. unfold edgelist_item at 1.
  assert (He : e < ecount g) by (apply H; now left).
  destruct (nth_error (edges g) e) as [edge|] eqn:Hn.
  - cbn [bind]. rewrite IH by (intros e' He'; apply H; now right).
    cbn [bind]. unfold source, target.
    rewrite (nth_error_nth _ _ _ Hn). now destruct edge.
  - apply nth_error_None in Hn. unfold ecount in He. lia.
Qed.

Lemma mapM_edgelist_item_fails (tree : list nat) (e : nat) :
  In e tree -> ecount g <= e ->
  mapM (edgelist_item g) tree = Err IndexOutOfRange.
Proof.
  intros Hin He. induction tree as [|e' tree IH]; [contradiction|].
  cbn [mapM]. unfold edgelist_item at 1.
  destruct (nth_error (edges g) e') as [edge|] eqn:Hn; [|reflexivity].
  cbn [bind]. destruct Hin as [->|Hin].
  - assert (nth_error (edges g) e <> None) by congruence.
    apply nth_error_Some in H. unfold ecount in He. lia.
  - now rewrite IH.
Qed.

Lemma cluster_of_spec (tree : list nat) :
  (forall e, In e tree -> e < ecount g) ->
  exists cluster,
    cluster_of g tree = Ok cluster
    /\ StronglySorted lt cluster
    /\ forall v, In v cluster <->
                 exists e, In e tree /\ (v = source g e \/ v = target g e).
Proof.
  intros H. unfold cluster_of. rewrite mapM_edgelist_item by assumption.
  cbn [bind]. eexists. split; [reflexivity|]. split.
  - apply sorted_increasing, set_iteration_NoDup.
  - intros v. rewrite sorted_In, set_iteration_In, in_flat_map. split.
    + intros [edge [Hedge Hv]]. apply in_map_iff in Hedge.
      destruct Hedge as [e [<- He]]. exists e. split; [assumption|].
      cbn [fst snd] in Hv. destruct Hv as [<-|[<-|[]]]; tauto.
    + intros [e [He Hv]]. exists (source g e, target g e). split.
      * apply in_map_iff. now exists e.
      * cbn [fst snd]. destruct Hv as [-> | ->]; [now left|right; now left].
Qed.

(** [IndexError] is the only error of a cluster. *)
Lemma cluster_of_Err (tree : list nat) (err : error) :
  cluster_of g tree = Err err -> err = IndexOutOfRange.
Proof.
  unfold cluster_of.
  destruct (mapM (edgelist_item g) tree) as [pairs|err'] eqn:Hp;
    [discriminate|].
  cbn [bind]. intros H. inversion H; subst err'. clear H.
  revert Hp. induction tree as [|e tree IH]; [discriminate|].
  cbn [mapM]. unfold edgelist_item at 1.
  destruct (nth_error (edges g) e); cbn [bind].
  - destruct (mapM (edgelist_item g) tree) as [ps|err''];
      [discriminate|].
    cbn [bind]. intros H. inversion H; subst. now apply IH.
  - congruence.
Qed.

End BiconnectedFacts.

(** X17. For every list of edges the engine returns,
    [biconnected_components] builds the list of the endpoints of these
    edges, in increasing order and without repetition, whatever the order
    in which a set is iterated; an edge that the graph does not have makes
    it raise [IndexError]. *)
Theorem biconnected_clusters_endpoints :
  forall (E : Engine) (g : graph) (trees : list (list nat)),
    ((forall tree e, In tree trees -> In e tree -> e < ecount g) ->
     exists clusters,
       biconnected_clusters g trees = Ok clusters
       /\ Forall2 (fun tree cluster =>
                     StronglySorted lt cluster
                     /\ forall v, In v cluster <->
                                  exists e, In e tree
                                            /\ (v = source g e \/ v = target g e))
            trees clusters)
    /\ (forall tree e, In tree trees -> In e tree -> ecount g <= e ->
        biconnected_clusters g trees = Err IndexOutOfRange).
Proof.
  intros E g trees. split.
  - intros H.
    assert (Hm : exists clusters,
               mapM (cluster_of g) trees = Ok clusters
               /\ Forall2 (fun tree cluster =>
                     StronglySorted lt cluster
                     /\ forall v, In v cluster <->
                                  exists e, In e tree
                                            /\ (v = source g e \/ v = target g e))
                    trees clusters).
    { induction trees as [|tree trees IH].
      - exists []. split; [reflexivity|constructor].
      - destruct (cluster_of_spec g tree) as [c [Hc Hc']].
        { intros e He. apply (H tree e); [now left|assumption]. }
        destruct IH as [cs [Hcs Hcs']].
        { intros t e Ht He. apply (H t e); [now right|assumption]. }
        exists (c :: cs). cbn [mapM]. rewrite Hc. cbn [bind].
        rewrite Hcs. cbn [bind]. split; [reflexivity|now constructor]. }
    destruct trees as [|tree trees]; [|exact Hm].
    exists []. split; [reflexivity|constructor].
  - intros tree e Htree He Hlt.
    destruct trees as [|t trees]; [contradiction|].
    unfold biconnected_clusters. revert Htree.
    generalize (t :: trees) as l. clear t trees.
    induction l as [|t l IH]; intros Htree; [contradiction|].
    cbn [mapM]. destruct Htree as [->|Htree].
    + unfold cluster_of at 1.
      rewrite (mapM_edgelist_item_fails g tree e He Hlt). reflexivity.
    + destruct (cluster_of g t) as [c|err] eqn:Hc.
      * cbn [bind]. now rewrite (IH Htree).
      * cbn [bind]. now rewrite (cluster_of_Err g t err Hc).
Qed.

Lemma biconnected_clusters_endpoints_witness :
  biconnected_clusters (E := igraph) nine [[1; 8]; [0; 2]]
  = Ok [[0; 1]; [2; 3]]
  /\ biconnected_clusters (E := igraph) nine [[1; 9]] = Err IndexOutOfRange.
Proof.
  destruct (biconnected_clusters_endpoints igraph nine [[1; 9]]) as [_ H].
  split; [reflexivity|].
  apply (H [1; 9] 9); [now left|right; now left|].
  vm_compute. repeat constructor.
Defined.

(** * [Graph.get_adjacency] *)

Lemma nth_of_nth_error {A : Type} (l l' : list A) (a : nat) (d : A) :
  nth_error l a = nth_error l' a -> nth a l d = nth a l' d.
Proof.
  intros H. rewrite <- !nth_default_eq. unfold nth_default. now rewrite H.
Qed.

Lemma cell_row (data : list (list val)) (row : list val) (i j : nat) :
  nth_error data i = Some row -> cell data i j = nth j row VNone.
Proof.
  intros H. unfold cell. now rewrite (nth_error_nth _ _ _ H).
Qed.

(** [data[i][j] = x] on a square matrix changes one cell. *)
Lemma set_cell_spec (n : nat) (data : list (list val)) (i j : nat) (x : val) :
  square n data -> i < n -> j < n ->
  exists data',
    set_cell data i j x = Ok data'
    /\ square n data'
    /\ cell data' i j = x
    /\ forall a b, a <> i \/ b <> j -> cell data' a b = cell data a b.
Proof.
  intros [Hlen Hrows] Hi Hj. unfold set_cell.
  destruct (nth_error data i) as [row|] eqn:Hrow.
  2: { apply nth_error_None in Hrow. lia. }
  assert (Hr : List.length row = n).
  { rewrite Forall_forall in Hrows. apply Hrows.
    now apply nth_error_In with i. }
  destruct (setitem_lt row j x) as [row' Hrow']; [lia|].
  rewrite Hrow'. cbn [bind].
  destruct (setitem_lt data i row') as [data' Hdata']; [lia|].
  rewrite Hdata'. exists data'. split; [reflexivity|].
  destruct (setitem_Ok _ _ _ _ Hrow') as [_ [R2 [R3 R4]]].
  destruct (setitem_Ok _ _ _ _ Hdata') as [_ [D2 [D3 D4]]].
  split; [|split].
  - split; [lia|]. apply Forall_forall. intros r Hin.
    destruct (In_nth_error _ _ Hin) as [a Ha].
    destruct (Nat.eq_dec a i) as [->|Hne].
    + rewrite D3 in Ha. inversion Ha; subst. lia.
    + rewrite D4 in Ha by assumption.
      rewrite Forall_forall in Hrows. apply Hrows.
      now apply nth_error_In with a.
  - rewrite (cell_row _ _ _ _ D3). now apply nth_error_nth.
  - intros a b Hab. destruct (Nat.eq_dec a i) as [->|Hne].
    + rewrite (cell_row _ _ _ _ D3), (cell_row _ _ _ _ Hrow).
      apply nth_of_nth_error. apply R4. destruct Hab; congruence.
    + unfold cell. f_equal. apply nth_of_nth_error. now apply D4.
Qed.

Lemma last_writer (P : nat -> Prop) (es : list nat) :
  (forall e, P e \/ ~ P e) ->
  (forall e, In e es -> ~ P e)
  \/ exists pre e post,
       es = pre ++ e :: post /\ P e /\ forall e', In e' post -> ~ P e'.
Proof.
  intros Hdec. induction es as [|e es IH].
  - left. intros e [].
  - destruct IH as [Hno|[pre [e0 [post [-> [He0 Hpost]]]]]].
    + destruct (Hdec e) as [He|He].
      * right. exists [], e, es. now repeat split.
      * left. intros e' [<-|Hin]; [assumption|now apply Hno].
    + right. exists (e :: pre), e0, post. now repeat split.
Qed.

Section Fill.

Variable n : nat.
Variable valid : nat -> Prop.
Variable writes : nat -> nat -> nat -> Prop.
Variable value : nat -> val.
Variable body : nat -> list (list val) -> result (list (list val)).

(** The body of the loop puts the value of the edge into the cells the
    edge writes and leaves the others. *)
Hypothesis body_spec :
  forall e data, valid e -> square n data ->
    exists data',
      body e data = Ok data'
      /\ square n data'
      /\ forall i j, i < n -> j < n ->
           (writes e i j -> cell data' i j = value e)
           /\ (~ writes e i j -> cell data' i j = cell data i j).

(** After the loop a cell holds the value of the last edge that writes it,
    and what it held before when there is none. *)
Lemma for_edges_spec (es : list nat) :
  forall data,
    (forall e, In e es -> valid e) -> square n data ->
    exists data',
      for_edges body es data = Ok data'
      /\ square n data'
      /\ forall i j, i < n -> j < n ->
           (forall pre e post,
               es = pre ++ e :: post -> writes e i j ->
               (forall e', In e' post -> ~ writes e' i j) ->
               cell data' i j = value e)
           /\ ((forall e, In e es -> ~ writes e i j) ->
               cell data' i j = cell data i j).
Proof.
  induction es as [|e es IH]; intros data Hvalid Hsq.
  - exists data. split; [reflexivity|]. split; [assumption|].
    intros i j _ _. split; [|reflexivity].
    intros [|] ? ? H; discriminate.
  - destruct (body_spec e data) as [data1 [Hb [Hsq1 Hcells1]]];
      [apply Hvalid; now left|assumption|].
    destruct (IH data1) as [data' [Hf [Hsq' Hcells']]];
      [intros e' He'; apply Hvalid; now right|assumption|].
    exists data'. cbn [for_edges]. rewrite Hb. cbn [bind].
    split; [assumption|]. split; [assumption|].
    intros i j Hi Hj.
    destruct (Hcells1 i j Hi Hj) as [H1 H1'].
    destruct (Hcells' i j Hi Hj) as [H2 H2'].
    split.
    + intros [|e' pre] e0 post Hes Hw Hpost; inversion Hes; subst.
      * rewrite H2' by assumption. now apply H1.
      * now apply (H2 pre e0 post).
    + intros Hno. rewrite H2'.
      * apply H1'. apply Hno. now left.
      * intros e' He'. apply Hno. now right.
Qed.

End Fill.

Lemma square_repeat (n : nat) (default : val) :
  square n (repeat (repeat default n) n).
Proof.
  split; [apply repeat_length|].
  apply Forall_forall. intros row Hrow. apply repeat_spec in Hrow.
  subst row. apply repeat_length.
Qed.

Lemma cell_repeat (n : nat) (default : val) (i j : nat) :
  i < n -> j < n -> cell (repeat (repeat default n) n) i j = default.
Proof.
  intros Hi Hj. unfold cell.
  rewrite (nth_indep _ [] (repeat default n))
    by (now rewrite repeat_length).
  rewrite nth_repeat.
  rewrite (nth_indep _ VNone default) by (now rewrite repeat_length).
  apply nth_repeat.
Qed.

Lemma seq_split_at (n e : nat) :
  e < n -> seq 0 n = seq 0 e ++ e :: seq (S e) (n - S e).
Proof.
  intros H. replace n with (e + S (n - S e)) at 1 by lia.
  rewrite seq_app. reflexivity.
Qed.

Section AdjacencyFacts.

Variable g : graph.
Variable column : list val.
Variable default : val.

(** The loop of [get_adjacency] over all edges, for a body that writes the
    cells [writes] says. *)
Lemma adjacency_fill (writes : nat -> nat -> nat -> Prop)
  (body : nat -> list (list val) -> result (list (list val))) :
  (forall e data, e < ecount g -> square (vcount g) data ->
     exists data',
       body e data = Ok data'
       /\ square (vcount g) data'
       /\ forall i j, i < vcount g -> j < vcount g ->
            (writes e i j -> cell data' i j = nth e column VNone)
            /\ (~ writes e i j -> cell data' i j = cell data i j)) ->
  exists data,
    for_edges body (seq 0 (ecount g))
      (repeat (repeat default (vcount g)) (vcount g)) = Ok data
    /\ filled (seq 0 (ecount g)) writes (fun e => nth e column VNone) default
         (vcount g) data.
Proof.
  intros Hbody.
  destruct (for_edges_spec (vcount g) (fun e => e < ecount g) writes
              (fun e => nth e column VNone) body Hbody (seq 0 (ecount g))
              (repeat (repeat default (vcount g)) (vcount g)))
    as [data [Hf [Hsq Hcells]]].
  { intros e He. apply in_seq in He. lia. }
  { apply square_repeat. }
  exists data. split; [assumption|]. split; [assumption|].
  intros i j Hi Hj. destruct (Hcells i j Hi Hj) as [H1 H2]. split.
  - exact H1.
  - intros Hno. rewrite H2; [now apply cell_repeat|assumption].
Qed.

(** The same by edge indices: the last edge is the one with the largest
    index. *)
Lemma filled_index (writes : nat -> nat -> nat -> Prop) (value : nat -> val)
  (data : list (list val)) (i j : nat) :
  filled (seq 0 (ecount g)) writes value default (vcount g) data ->
  i < vcount g -> j < vcount g ->
  (forall e, e < ecount g -> writes e i j ->
     (forall e', e < e' < ecount g -> ~ writes e' i j) ->
     cell data i j = value e)
  /\ ((forall e, e < ecount g -> ~ writes e i j) -> cell data i j = default).
Proof.
  intros [_ H] Hi Hj. destruct (H i j Hi Hj) as [H1 H2]. split.
  - intros e He Hw Hlast.
    apply (H1 (seq 0 e) e (seq (S e) (ecount g - S e)));
      [now apply seq_split_at|assumption|].
    intros e' He'. apply in_seq in He'. apply Hlast. lia.
  - intros Hno. apply H2. intros e He. apply in_seq in He. apply Hno. lia.
Qed.

(** Two cells that the same edges write hold the same value. *)
Lemma filled_agree (es : list nat) (n : nat)
  (writes writes' : nat -> nat -> nat -> Prop) (value : nat -> val)
  (data data' : list (list val)) (i j i' j' : nat) :
  filled es writes value default n data ->
  filled es writes' value default n data' ->
  i < n -> j < n -> i' < n -> j' < n ->
  (forall e, writes e i j \/ ~ writes e i j) ->
  (forall e, writes e i j <-> writes' e i' j') ->
  cell data i j = cell data' i' j'.
Proof.
  intros [_ H] [_ H'] Hi Hj Hi' Hj' Hdec Heq.
  destruct (H i j Hi Hj) as [H1 H2].
  destruct (H' i' j' Hi' Hj') as [H1' H2'].
  destruct (last_writer (fun e => writes e i j) es Hdec)
    as [Hno|[pre [e [post [Hes [He Hpost]]]]]].
  - rewrite H2 by assumption. rewrite H2'; [reflexivity|].
    intros e He. rewrite <- Heq. now apply Hno.
  - rewrite (H1 pre e post Hes He Hpost).
    rewrite (H1' pre e post Hes); [reflexivity|now apply Heq|].
    intros e' He'. rewrite <- Heq. now apply Hpost.
Qed.

(** One assignment as the body of the loop. *)
Lemma one_cell_body (cell_of : nat -> nat * nat) :
  (forall e, e < ecount g ->
     fst (cell_of e) < vcount g /\ snd (cell_of e) < vcount g) ->
  forall e data, e < ecount g -> square (vcount g) data ->
    exists data',
      set_cell data (fst (cell_of e)) (snd (cell_of e)) (nth e column VNone)
      = Ok data'
      /\ square (vcount g) data'
      /\ forall i j, i < vcount g -> j < vcount g ->
           (fst (cell_of e) = i /\ snd (cell_of e) = j ->
            cell data' i j = nth e column VNone)
           /\ (~ (fst (cell_of e) = i /\ snd (cell_of e) = j) ->
               cell data' i j = cell data i j).
Proof.
  intros Hlt e data He Hsq. destruct (Hlt e He) as [H1 H2].
  destruct (set_cell_spec (vcount g) data _ _ (nth e column VNone) Hsq H1 H2)
    as [data' [Hs [Hsq' [Hc Hc']]]].
  exists data'. split; [assumption|]. split; [assumption|].
  intros i j _ _. split.
  - intros [<- <-]. assumption.
  - intros Hn. apply Hc'.
    destruct (Nat.eq_dec i (fst (cell_of e))) as [->|Hi]; [|left; assumption].
    destruct (Nat.eq_dec j (snd (cell_of e))) as [->|Hj]; [|right; assumption].
    now destruct Hn.
Qed.

End AdjacencyFacts.

Section AdjacencyBodies.

Variable g : graph.
Variable column : list val.
Hypothesis wf : well_formed g.

Lemma directed_body :
  forall e data, e < ecount g -> square (vcount g) data ->
    exists data',
      set_cell data (source g e) (target g e) (nth e column VNone) = Ok data'
      /\ square (vcount g) data'
      /\ forall i j, i < vcount g -> j < vcount g ->
           (source g e = i /\ target g e = j ->
            cell data' i j = nth e column VNone)
           /\ (~ (source g e = i /\ target g e = j) ->
               cell data' i j = cell data i j).
Proof.
  apply (one_cell_body g column (fun e => (source g e, target g e))).
  intros e He. apply (wf e He).
Qed.

Lemma upper_body :
  forall e data, e < ecount g -> square (vcount g) data ->
    exists data',
      set_cell data (Nat.min (source g e) (target g e))
        (Nat.max (source g e) (target g e)) (nth e column VNone) = Ok data'
      /\ square (vcount g) data'
      /\ forall i j, i < vcount g -> j < vcount g ->
           (Nat.min (source g e) (target g e) = i
            /\ Nat.max (source g e) (target g e) = j ->
            cell data' i j = nth e column VNone)
           /\ (~ (Nat.min (source g e) (target g e) = i
                  /\ Nat.max (source g e) (target g e) = j) ->
               cell data' i j = cell data i j).
Proof.
  apply (one_cell_body g column
           (fun e => (Nat.min (source g e) (target g e),
                      Nat.max (source g e) (target g e)))).
  intros e He. destruct (wf e He). cbn [fst snd]. lia.
Qed.

Lemma lower_body :
  forall e data, e < ecount g -> square (vcount g) data ->
    exists data',
      set_cell data (Nat.max (source g e) (target g e))
        (Nat.min (source g e) (target g e)) (nth e column VNone) = Ok data'
      /\ square (vcount g) data'
      /\ forall i j, i < vcount g -> j < vcount g ->
           (Nat.max (source g e) (target g e) = i
            /\ Nat.min (source g e) (target g e) = j ->
            cell data' i j = nth e column VNone)
           /\ (~ (Nat.max (source g e) (target g e) = i
                  /\ Nat.min (source g e) (target g e) = j) ->
               cell data' i j = cell data i j).
Proof.
  apply (one_cell_body g column
           (fun e => (Nat.max (source g e) (target g e),
                      Nat.min (source g e) (target g e)))).
  intros e He. destruct (wf e He). cbn [fst snd]. lia.
Qed.

Lemma both_body :
  forall e data, e < ecount g -> square (vcount g) data ->
    exists data',
      (data <- set_cell data (source g e) (target g e) (nth e column VNone) ;;
       set_cell data (target g e) (source g e) (nth e column VNone))
      = Ok data'
      /\ square (vcount g) data'
      /\ forall i j, i < vcount g -> j < vcount g ->
           (joins g e i j -> cell data' i j = nth e column VNone)
           /\ (~ joins g e i j -> cell data' i j = cell data i j).
Proof.
  intros e data He Hsq. destruct (wf e He) as [Hs Ht].
  destruct (set_cell_spec _ data _ _ (nth e column VNone) Hsq Hs Ht)
    as [data1 [H1 [Hsq1 [Hc1 Hc1']]]].
  destruct (set_cell_spec _ data1 _ _ (nth e column VNone) Hsq1 Ht Hs)
    as [data2 [H2 [Hsq2 [Hc2 Hc2']]]].
  exists data2. rewrite H1. cbn [bind]. split; [assumption|].
  split; [assumption|]. intros i j _ _. unfold joins. split.
  - intros [[<- <-]|[<- <-]]; [|assumption].
    destruct (Nat.eq_dec (source g e) (target g e)) as [Heq|Hne].
    + rewrite Heq in *. assumption.
    + rewrite Hc2' by (now left). assumption.
  - intros Hn. rewrite Hc2', Hc1'; [reflexivity| |]; lia.
Qed.

End AdjacencyBodies.

(** X18. On a directed graph whose edges join vertices of the graph,
    [get_adjacency] with the name of an edge attribute returns a matrix
    of [vcount] rows and columns; the cell of row [i] and column [j] holds
    the attribute of the edge from [i] to [j] with the largest index, and
    [default] when there is no such edge. *)
Theorem adjacency_directed :
  forall (g : graph) (type : adjacency_arg) (name : string)
         (column : list val) (default : val),
    well_formed g ->
    is_directed g = true ->
    is_adjacency_constant type = true ->
    lookup name (edge_attributes g) = Some column ->
    exists data,
      get_adjacency g type (AdjName name) default false = Ok (Matrix data)
      /\ square (vcount g) data
      /\ forall i j, i < vcount g -> j < vcount g ->
           (forall e, e < ecount g ->
              source g e = i /\ target g e = j ->
              (forall e', e < e' < ecount g ->
                 ~ (source g e' = i /\ target g e' = j)) ->
              cell data i j = nth e column VNone)
           /\ ((forall e, e < ecount g ->
                  ~ (source g e = i /\ target g e = j)) ->
               cell data i j = default).
Proof.
  intros g type name column default Hwf Hdir Htype Hcol.
  destruct (adjacency_fill g column default _ _ (directed_body g column Hwf))
    as [data [Hf Hfilled]].
  exists data. split; [|split; [apply Hfilled|]].
  - unfold get_adjacency. rewrite Htype. cbn [negb].
    rewrite Hcol, Hdir, Hf. reflexivity.
  - intros i j Hi Hj.
    apply (filled_index g default _ _ data i j Hfilled Hi Hj).
Qed.

Lemma adjacency_directed_witness :
  exists data,
    get_adjacency aged GET_ADJACENCY_BOTH (AdjName "w") (VInt 0) false
    = Ok (Matrix data)
    /\ data = [[VInt 0; VInt 1; VInt 0];
               [VInt 0; VInt 0; VInt 10];
               [VInt 10; VInt 0; VInt 0]].
Proof.
  assert (Hwf : well_formed aged).
  { intros e He. change (e < 3) in He.
    destruct e as [|[|[|e]]]; [| | |lia]; vm_compute; split; repeat constructor. }
  destruct (adjacency_directed aged GET_ADJACENCY_BOTH "w"
              [VInt 1; VInt 10; VInt 10] (VInt 0) Hwf eq_refl eq_refl eq_refl)
    as [data [Hd _]].
  exists data. split; [assumption|].
  vm_compute in Hd. now inversion Hd.
Defined.

(** X19. On an undirected graph whose edges join vertices of the graph,
    [get_adjacency] with [GET_ADJACENCY_BOTH] and the name of an edge
    attribute returns a symmetric matrix: the cell of [i] and [j] holds
    the attribute of the edge between [i] and [j] with the largest index,
    and [default] when there is none. *)
Theorem adjacency_both_symmetric :
  forall (g : graph) (name : string) (column : list val) (default : val),
    well_formed g ->
    is_directed g = false ->
    lookup name (edge_attributes g) = Some column ->
    exists data,
      get_adjacency g GET_ADJACENCY_BOTH (AdjName name) default false
      = Ok (Matrix data)
      /\ square (vcount g) data
      /\ forall i j, i < vcount g -> j < vcount g ->
           cell data i j = cell data j i
           /\ (forall e, e < ecount g -> joins g e i j ->
                 (forall e', e < e' < ecount g -> ~ joins g e' i j) ->
                 cell data i j = nth e column VNone)
           /\ ((forall e, e < ecount g -> ~ joins g e i j) ->
               cell data i j = default).
Proof.
  intros g name column default Hwf Hdir Hcol.
  destruct (adjacency_fill g column default _ _ (both_body g column Hwf))
    as [data [Hf Hfilled]].
  exists data. split; [|split; [apply Hfilled|]].
  - unfold get_adjacency. cbn [is_adjacency_constant negb].
    rewrite Hcol, Hdir, Hf. reflexivity.
  - intros i j Hi Hj. split.
    + apply (filled_agree default _ _ _ _ _ _ _ i j j i Hfilled Hfilled);
        try assumption.
      * intros e. unfold joins.
        destruct (Nat.eq_dec (source g e) i), (Nat.eq_dec (target g e) j),
          (Nat.eq_dec (target g e) i), (Nat.eq_dec (source g e) j); tauto.
      * intros e. unfold joins. tauto.
    + apply (filled_index g default _ _ data i j Hfilled Hi Hj).
Qed.

Lemma adjacency_both_symmetric_witness :
  exists data,
    get_adjacency weighted_pair GET_ADJACENCY_BOTH (AdjName "w") VNone false
    = Ok (Matrix data)
    /\ cell data 0 1 = cell data 1 0
    /\ data = [[VNone; VInt 7]; [VInt 7; VNone]].
Proof.
  assert (Hwf : well_formed weighted_pair).
  { intros e He. change (e < 2) in He.
    destruct e as [|[|e]]; [| |lia]; vm_compute; split; repeat constructor. }
  destruct (adjacency_both_symmetric weighted_pair "w" [VInt 5; VInt 7] VNone
              Hwf eq_refl eq_refl) as [data [Hd [_ Hc]]].
  exists data. split; [assumption|]. split.
  - apply (Hc 0 1); vm_compute; repeat constructor.
  - vm_compute in Hd. now inversion Hd.
Defined.

(** X20. On an undirected graph [GET_ADJACENCY_UPPER] fills the cells on
    and above the diagonal as [GET_ADJACENCY_BOTH] does and leaves
    [default] below it, and [GET_ADJACENCY_LOWER] returns the transposed
    matrix. *)
Theorem adjacency_triangles :
  forall (g : graph) (name : string) (column : list val) (default : val),
    well_formed g ->
    is_directed g = false ->
    lookup name (edge_attributes g) = Some column ->
    exists upper lower both,
      get_adjacency g GET_ADJACENCY_UPPER (AdjName name) default false
      = Ok (Matrix upper)
      /\ get_adjacency g GET_ADJACENCY_LOWER (AdjName name) default false
         = Ok (Matrix lower)
      /\ get_adjacency g GET_ADJACENCY_BOTH (AdjName name) default false
         = Ok (Matrix both)
      /\ forall i j, i < vcount g -> j < vcount g ->
           (i <= j -> cell upper i j = cell both i j)
           /\ (j < i -> cell upper i j = default)
           /\ cell lower i j = cell upper j i.
Proof.
  intros g name column default Hwf Hdir Hcol.
  destruct (adjacency_fill g column default _ _ (upper_body g column Hwf))
    as [upper [Hu Hupper]].
  destruct (adjacency_fill g column default _ _ (lower_body g column Hwf))
    as [lower [Hl Hlower]].
  destruct (adjacency_fill g column default _ _ (both_body g column Hwf))
    as [both [Hb Hboth]].
  exists upper, lower, both.
  split; [|split; [|split]];
    try (unfold get_adjacency; cbn [is_adjacency_constant negb];
         rewrite Hcol, Hdir, ?Hu, ?Hl, ?Hb; reflexivity).
  intros i j Hi Hj. split; [|split].
  - intros Hij.
    apply (filled_agree default _ _ _ _ _ _ _ i j i j Hupper Hboth);
      try assumption.
    + intros e. cbv beta. lia.
    + intros e. unfold joins. cbv beta. lia.
  - intros Hji. destruct Hupper as [_ H].
    apply (proj2 (H i j Hi Hj)). intros e _. cbv beta. lia.
  - apply (filled_agree default _ _ _ _ _ _ _ i j j i Hlower Hupper);
      try assumption.
    + intros e. cbv beta. lia.
    + intros e. cbv beta. lia.
Qed.

Lemma adjacency_triangles_witness :
  exists upper lower,
    get_adjacency weighted_pair GET_ADJACENCY_UPPER (AdjName "w") VNone false
    = Ok (Matrix upper)
    /\ get_adjacency weighted_pair GET_ADJACENCY_LOWER (AdjName "w") VNone false
       = Ok (Matrix lower)
    /\ cell upper 1 0 = VNone
    /\ cell lower 1 0 = cell upper 0 1.
Proof.
  assert (Hwf : well_formed weighted_pair).
  { intros e He. change (e < 2) in He.
    destruct e as [|[|e]]; [| |lia]; vm_compute; split; repeat constructor. }
  destruct (adjacency_triangles weighted_pair "w" [VInt 5; VInt 7] VNone
              Hwf eq_refl eq_refl) as [upper [lower [both [Hu [Hl [_ Hc]]]]]].
  exists upper, lower. split; [assumption|]. split; [assumption|].
  assert (H0 : 0 < vcount weighted_pair) by (vm_compute; repeat constructor).
  assert (H1 : 1 < vcount weighted_pair) by (vm_compute; repeat constructor).
  split.
  - apply (proj1 (proj2 (Hc 1 0 H1 H0))). repeat constructor.
  - apply (proj2 (proj2 (Hc 1 0 H1 H0))).
Defined.



(** * [Graph.DictList]: the vertex attributes *)

Lemma lookup_append_indexed (attrs : list (string * list (nat * val)))
  (k k' : string) (idx : nat) (v : val) :
  lookup k' (append_indexed attrs k idx v)
  = if String.eqb k' k
    then Some (match lookup k attrs with
               | Some l => l ++ [(idx, v)]
               | None => [(idx, v)]
               end)
    else lookup k' attrs.
Proof.
  induction attrs as [|[k0 l] attrs IH]; cbn [append_indexed lookup].
  - now destruct (String.eqb k' k).
  - destruct (String.eqb_spec k k0) as [->|Hk]; cbn [lookup].
    + destruct (String.eqb_spec k' k0) as [->|Hk']; reflexivity.
    + rewrite IH. destruct (String.eqb_spec k' k0) as [->|Hk'].
      * destruct (String.eqb_spec k0 k) as [->|_]; [congruence|reflexivity].
      * reflexivity.
Qed.

(** The pairs collected under a key, after the items of one dict. *)
Lemma lookup_collect_items (idx : nat) (d : list (string * val)) :
  forall (attrs : list (string * list (nat * val))) (k : string),
    (lookup k (collect_items attrs idx d) = None <->
     lookup k attrs = None /\ forall v, ~ In (k, v) d)
    /\ (forall l', lookup k (collect_items attrs idx d) = Some l' ->
          forall i v,
            In (i, v) l' <->
            (exists l, lookup k attrs = Some l /\ In (i, v) l)
            \/ (i = idx /\ In (k, v) d)).
Proof.
  induction d as [|[k0 v0] d IH]; intros attrs k; cbn [collect_items].
  - split.
    + split; [intros H; split; [assumption|intros v []]|tauto].
    + intros l' Hl' i v. split.
      * intros Hin. left. now exists l'.
      * intros [[l [Hl Hin]]|[_ []]]. congruence.
  - destruct (IH (append_indexed attrs k0 idx v0) k) as [IH1 IH2].
    rewrite lookup_append_indexed in IH1.
    split.
    + rewrite IH1. destruct (String.eqb_spec k k0) as [Heqk|Hk]; [subst k0|].
      * split; [intros [H _]; discriminate|].
        intros [_ H]. destruct (H v0). now left.
      * split; intros [H1 H2]; (split; [assumption|]); intros v.
        -- intros [Heq|Hin]; [congruence|now apply (H2 v)].
        -- intros Hin. apply (H2 v). now right.
    + intros l' Hl' i v. rewrite (IH2 l' Hl' i v).
      rewrite lookup_append_indexed.
      destruct (String.eqb_spec k k0) as [Heqk|Hk]; [subst k0|].
      * split.
        -- intros [[l [Hl Hin]]|[-> Hin]].
           ++ inversion Hl; subst l; clear Hl.
              destruct (lookup k attrs) as [l0|].
              ** apply in_app_iff in Hin.
                 destruct Hin as [Hin|[Heq|[]]].
                 --- left. now exists l0.
                 --- inversion Heq; subst. right. split; [reflexivity|now left].
              ** destruct Hin as [Heq|[]].
                 inversion Heq; subst. right. split; [reflexivity|now left].
           ++ right. split; [reflexivity|now right].
        -- intros [[l [Hl Hin]]|[-> [Heq|Hin]]].
           ++ left. eexists. split; [reflexivity|].
              rewrite Hl. apply in_or_app. now left.
           ++ inversion Heq; subst. left. eexists. split; [reflexivity|].
              destruct (lookup k attrs);
                [apply in_or_app; right; now left|now left].
           ++ right. split; [reflexivity|assumption].
      * split.
        -- intros [H|[-> Hin]]; [now left|].
           right. split; [reflexivity|now right].
        -- intros [H|[-> [Heq|Hin]]]; [now left|congruence|].
           right. split; [reflexivity|assumption].
Qed.

(** The pairs collected under a key, after the loop over the dicts. *)
Lemma lookup_collect (vertices : list (list (string * val))) :
  forall (idx : nat) (attrs : list (string * list (nat * val))) (n : nat)
         (k : string),
    snd (collect vertices idx attrs n) = n + List.length vertices
    /\ (lookup k (fst (collect vertices idx attrs n)) = None <->
        lookup k attrs = None
        /\ forall d v, In d vertices -> ~ In (k, v) d)
    /\ (forall l', lookup k (fst (collect vertices idx attrs n)) = Some l' ->
          forall i v,
            In (i, v) l' <->
            (exists l, lookup k attrs = Some l /\ In (i, v) l)
            \/ (exists j d, nth_error vertices j = Some d
                            /\ i = idx + j /\ In (k, v) d)).
Proof.
  induction vertices as [|d vertices IH]; intros idx attrs n k;
    cbn [collect].
  - cbn [fst snd List.length]. split; [lia|]. split.
    + split; [intros H; split; [assumption|intros d v []]|tauto].
    + intros l' Hl' i v. split.
      * intros Hin. left. now exists l'.
      * intros [[l [Hl Hin]]|[[|j] [d [Hd _]]]];
          [congruence|discriminate|discriminate].
  - destruct (IH (S idx) (collect_items attrs idx d) (S n) k)
      as [IH0 [IH1 IH2]].
    destruct (lookup_collect_items idx d attrs k) as [C1 C2].
    split; [rewrite IH0; simpl; lia|]. split.
    + rewrite IH1, C1. split.
      * intros [[H1 H2] H3]. split; [assumption|].
        intros d' v [<-|Hin]; [apply H2|now apply H3].
      * intros [H1 H2]. split; [split; [assumption|]|].
        -- intros v. apply H2. now left.
        -- intros d' v Hin. apply H2. now right.
    + intros l' Hl' i v. rewrite (IH2 l' Hl' i v). split.
      * intros [[l [Hl Hin]]|[j [d' [Hj [-> Hin]]]]].
        -- apply (C2 l Hl) in Hin. destruct Hin as [Hin|[-> Hin]].
           ++ now left.
           ++ right. exists 0, d. split; [reflexivity|].
              split; [lia|assumption].
        -- right. exists (S j), d'. split; [assumption|].
           split; [lia|assumption].
      * intros [[l [Hl Hin]]|[[|j] [d' [Hj [-> Hin]]]]].
        -- destruct (lookup k (collect_items attrs idx d)) as [l0|] eqn:Hl0.
           ++ left. exists l0. split; [reflexivity|].
              apply (C2 l0 eq_refl). left. now exists l.
           ++ destruct (proj1 C1 eq_refl). congruence.
        -- cbn [nth_error] in Hj. inversion Hj; subst d'.
           destruct (lookup k (collect_items attrs idx d)) as [l0|] eqn:Hl0.
           ++ left. exists l0. split; [reflexivity|].
              apply (C2 l0 eq_refl). right. split; [lia|assumption].
           ++ destruct (proj1 C1 eq_refl) as [_ Hno]. now destruct (Hno v).
        -- right. exists j, d'. cbn [nth_error] in Hj.
           split; [assumption|]. split; [lia|assumption].
Qed.

Lemma lookup_In_NoDup {A : Type} (d : list (string * A)) (k : string) (x : A) :
  NoDup (map fst d) -> (In (k, x) d <-> lookup k d = Some x).
Proof.
  induction d as [|[k0 x0] d IH]; intros Hnd; cbn [lookup].
  - split; [intros []|discriminate].
  - inversion Hnd as [|? ? Hk0 Hd]; subst.
    destruct (String.eqb_spec k k0) as [->|Hk].
    + split.
      * intros [Heq|Hin]; [now inversion Heq|].
        destruct Hk0. apply in_map_iff. now exists (k0, x).
      * intros Heq. inversion Heq. now left.
    + rewrite <- (IH Hd). split.
      * intros [Heq|Hin]; [inversion Heq; congruence|assumption].
      * intros Hin. now right.
Qed.

Lemma lookup_None_In {A : Type} (d : list (string * A)) (k : string) :
  lookup k d = None <-> forall x, ~ In (k, x) d.
Proof.
  induction d as [|[k0 x0] d IH]; cbn [lookup].
  - split; [intros _ x []|reflexivity].
  - destruct (String.eqb_spec k k0) as [->|Hk].
    + split; [discriminate|]. intros H. destruct (H x0). now left.
    + rewrite IH. split.
      * intros H x [Heq|Hin]; [inversion Heq; congruence|now apply (H x)].
      * intros H x Hin. apply (H x). now right.
Qed.

Lemma append_indexed_keys (attrs : list (string * list (nat * val)))
  (k : string) (idx : nat) (v : val) :
  NoDup (map fst attrs) -> NoDup (map fst (append_indexed attrs k idx v)).
Proof.
  induction attrs as [|[k0 l] attrs IH]; intros Hnd; cbn [append_indexed].
  - repeat constructor. intros [].
  - inversion Hnd as [|? ? Hk0 Hrest]; subst.
    destruct (String.eqb_spec k k0) as [->|Hk]; cbn [map fst].
    + now constructor.
    + constructor; [|now apply IH].
      intros Hin. apply in_map_iff in Hin. destruct Hin as [[k1 l1] [Hk1 Hin]].
      cbn [fst] in Hk1. subst k1.
      assert (Hl : lookup k0 (append_indexed attrs k idx v) <> None).
      { intros Hn. apply (proj1 (lookup_None_In _ _) Hn l1). assumption. }
      rewrite lookup_append_indexed in Hl.
      destruct (String.eqb_spec k0 k) as [->|_]; [congruence|].
      destruct (lookup k0 attrs) as [l0|] eqn:Hl0; [|congruence].
      apply Hk0. apply in_map_iff. exists (k0, l0). split; [reflexivity|].
      now apply lookup_In_NoDup.
Qed.

Lemma collect_keys (vertices : list (list (string * val))) :
  forall idx attrs n,
    NoDup (map fst attrs) ->
    NoDup (map fst (fst (collect vertices idx attrs n))).
Proof.
  induction vertices as [|d vertices IH]; intros idx attrs n Hnd;
    cbn [collect]; [assumption|].
  apply IH. clear IH. revert attrs Hnd.
  induction d as [|[k v] d IHd]; intros attrs Hnd; cbn [collect_items];
    [assumption|].
  apply IHd. now apply append_indexed_keys.
Qed.

Lemma pair_in_rest (i : nat) (rest : list (nat * val)) :
  (exists v, In (i, v) rest) \/ (forall v, ~ In (i, v) rest).
Proof.
  induction rest as [|[j w] rest IH].
  - right. intros v [].
  - destruct IH as [[v Hv]|Hno].
    + left. exists v. now right.
    + destruct (Nat.eq_dec i j) as [->|Hne].
      * left. exists w. now left.
      * right. intros v [Heq|Hin]; [inversion Heq; congruence|].
        now apply (Hno v).
Qed.

(** [create_list_from_indices] on pairs that fit and give one value for an
    index: the value at the index of a pair, and what was there elsewhere. *)
Lemma fill_indices_spec (indices : list (nat * val)) :
  forall column,
    (forall i v, In (i, v) indices -> i < List.length column) ->
    (forall i v v', In (i, v) indices -> In (i, v') indices -> v = v') ->
    exists column',
      fill_indices indices column = Ok column'
      /\ List.length column' = List.length column
      /\ forall i,
           (forall v, In (i, v) indices -> nth_error column' i = Some v)
           /\ ((forall v, ~ In (i, v) indices) ->
               nth_error column' i = nth_error column i).
Proof.
  induction indices as [|[i0 v0] rest IH]; intros column Hlt Hfun.
  - exists column. split; [reflexivity|]. split; [reflexivity|].
    intros i. split; [intros v []|reflexivity].
  - destruct (setitem_lt column i0 v0) as [column1 H1].
    { apply (Hlt i0 v0). now left. }
    destruct (setitem_Ok _ _ _ _ H1) as [_ [L1 [S1 O1]]].
    destruct (IH column1) as [column' [Hf [L' Hc]]].
    { intros i v Hin. rewrite L1. apply (Hlt i v). now right. }
    { intros i v v' Hv Hv'. apply (Hfun i v v'); now right. }
    exists column'. cbn [fill_indices]. rewrite H1. cbn [bind].
    split; [assumption|]. split; [lia|].
    intros i. destruct (Hc i) as [Ha Hb]. split.
    + intros v [Heq|Hin]; [|now apply Ha].
      inversion Heq; subst i v. clear Heq.
      destruct (pair_in_rest i0 rest) as [[v' Hv']|Hno].
      * rewrite (Ha v' Hv'). f_equal.
        apply (Hfun i0 v' v0); [now right|now left].
      * rewrite (Hb Hno). assumption.
    + intros Hno. rewrite Hb.
      * apply O1. intros ->. apply (Hno v0). now left.
      * intros v Hin. apply (Hno v). now right.
Qed.

Lemma columns_lookup (attrs : list (string * list (nat * val))) (n : nat) :
  forall cols, columns attrs n = Ok cols ->
    forall k,
      match lookup k attrs with
      | None => lookup k cols = None
      | Some l => exists c, create_list_from_indices l n = Ok c
                            /\ lookup k cols = Some c
      end.
Proof.
  unfold columns.
  induction attrs as [|[k0 l0] attrs IH]; intros cols H k; cbn [mapM] in H.
  - inversion H; subst. reflexivity.
  - cbn [fst snd] in H.
    destruct (create_list_from_indices l0 n) as [c0|e] eqn:Hc0;
      [|discriminate].
    cbn [bind] in H.
    destruct (mapM _ attrs) as [cols'|e] eqn:Hm; [|discriminate].
    cbn [bind] in H. inversion H; subst cols. clear H.
    cbn [lookup]. destruct (String.eqb k k0).
    + now exists c0.
    + apply (IH cols' eq_refl k).
Qed.

Lemma columns_Ok (attrs : list (string * list (nat * val))) (n : nat) :
  (forall k l, In (k, l) attrs ->
     exists c, create_list_from_indices l n = Ok c) ->
  exists cols, columns attrs n = Ok cols.
Proof.
  unfold columns. induction attrs as [|[k0 l0] attrs IH]; intros H.
  - now exists [].
  - destruct (H k0 l0) as [c0 Hc0]; [now left|].
    destruct IH as [cols Hcols]; [intros k l Hin; apply (H k l); now right|].
    cbn [mapM fst snd]. rewrite Hc0. cbn [bind]. rewrite Hcols. cbn [bind].
    eexists. reflexivity.
Qed.

Section DictListFacts.

Variable vertices : list (list (string * val)).
Hypothesis keys_once : Forall (fun d => NoDup (map fst d)) vertices.

(** The pairs collected under a key: the index of every dict that has the
    key, with the value. *)
Lemma collected_pairs (k : string) (l : list (nat * val)) :
  lookup k (fst (collect vertices 0 [] 0)) = Some l ->
  forall i v,
    In (i, v) l <->
    exists d, nth_error vertices i = Some d /\ lookup k d = Some v.
Proof.
  intros Hl i v.
  destruct (lookup_collect vertices 0 [] 0 k) as [_ [_ H]].
  rewrite (H l Hl i v). split.
  - intros [[l0 [Hl0 _]]|[j [d [Hd [-> Hin]]]]]; [discriminate|].
    exists d. split; [assumption|].
    apply lookup_In_NoDup; [|assumption].
    rewrite Forall_forall in keys_once. apply keys_once.
    now apply nth_error_In with j.
  - intros [d [Hd Hv]]. right. exists i, d.
    split; [assumption|]. split; [reflexivity|].
    apply lookup_In_NoDup; [|assumption].
    rewrite Forall_forall in keys_once. apply keys_once.
    now apply nth_error_In with i.
Qed.

(** The column made of the pairs collected under a key. *)
Lemma collected_column (k : string) (l : list (nat * val)) :
  lookup k (fst (collect vertices 0 [] 0)) = Some l ->
  create_list_from_indices l (List.length vertices)
  = Ok (map (fun d => dict_get d k) vertices).
Proof.
  intros Hl. pose proof (collected_pairs k l Hl) as Hp.
  unfold create_list_from_indices.
  destruct (fill_indices_spec l (repeat VNone (List.length vertices)))
    as [column [Hf [Hlen Hc]]].
  { intros i v Hin. apply Hp in Hin. destruct Hin as [d [Hd _]].
    rewrite repeat_length. apply nth_error_Some. congruence. }
  { intros i v v' Hv Hv'. apply Hp in Hv. apply Hp in Hv'.
    destruct Hv as [d [Hd Hv]]. destruct Hv' as [d' [Hd' Hv']]. congruence. }
  rewrite Hf. f_equal. rewrite repeat_length in Hlen.
  apply nth_error_ext. intros i. rewrite nth_error_map.
  destruct (nth_error vertices i) as [d|] eqn:Hd; cbn [option_map].
  - destruct (Hc i) as [Ha Hb]. unfold dict_get.
    destruct (lookup k d) as [v|] eqn:Hv.
    + apply Ha. apply Hp. now exists d.
    + rewrite Hb.
      * apply nth_error_repeat. apply nth_error_Some. congruence.
      * intros v Hin. apply Hp in Hin. destruct Hin as [d' [Hd' Hv']].
        congruence.
  - apply nth_error_None. apply nth_error_None in Hd. lia.
Qed.

(** The table of the vertex attributes: a column for every key that occurs,
    with the value of every dict for the key, and [None] where a dict does
    not have it. *)
Lemma collected_table :
  exists cols,
    columns (fst (collect vertices 0 [] 0)) (List.length vertices) = Ok cols
    /\ snd (collect vertices 0 [] 0) = List.length vertices
    /\ forall k,
         (lookup k cols = None <-> forall d, In d vertices -> lookup k d = None)
         /\ (forall column, lookup k cols = Some column ->
               column = map (fun d => dict_get d k) vertices).
Proof.
  destruct (columns_Ok (fst (collect vertices 0 [] 0)) (List.length vertices))
    as [cols Hcols].
  { intros k l Hin. eexists. apply collected_column.
    apply lookup_In_NoDup; [|eassumption].
    apply collect_keys. constructor. }
  exists cols. split; [assumption|]. split.
  { apply (lookup_collect vertices 0 [] 0 EmptyString). }
  intros k. pose proof (columns_lookup _ _ cols Hcols k) as Hk.
  destruct (lookup_collect vertices 0 [] 0 k) as [_ [Hnone _]].
  destruct (lookup k (fst (collect vertices 0 [] 0))) as [l|] eqn:Hl.
  - destruct Hk as [c [Hc Hk]]. rewrite Hk.
    rewrite (collected_column k l Hl) in Hc. inversion Hc; subst c. split.
    + split; [discriminate|]. intros Hno. exfalso.
      assert (Hsome : Some l = None); [|discriminate].
      apply Hnone. split; [reflexivity|].
      intros d v Hd. apply lookup_None_In. now apply Hno.
    + intros column Hcol. now inversion Hcol.
  - rewrite Hk. split; [|discriminate]. split; [|reflexivity].
    intros _ d Hd. apply lookup_None_In. intros v.
    destruct (proj1 Hnone eq_refl) as [_ Hno]. now apply Hno.
Qed.

End DictListFacts.

Lemma py_eq_hashable (x y : val) :
  unhashable x = false -> (py_eq x y = true <-> x = y).
Proof.
  destruct x as [|a|s|l|l]; cbn [unhashable]; intros H; try discriminate;
    destruct y; cbn [py_eq]; split; intros Heq;
    try discriminate; try reflexivity.
  - apply Z.eqb_eq in Heq. now subst.
  - inversion Heq. apply Z.eqb_refl.
  - apply String.eqb_eq in Heq. now subst.
  - inversion Heq. apply String.eqb_refl.
Qed.

Lemma py_distinct_length (l : list val) :
  List.length (py_distinct l) <= List.length l.
Proof.
  induction l as [|x l IH]; cbn [py_distinct List.length]; [lia|].
  destruct (existsb (py_eq x) l); cbn [List.length]; lia.
Qed.

(** [len(l) == len(set(l))] says that no item of [l] comes twice. *)
Lemma py_distinct_NoDup (l : list val) :
  existsb unhashable l = false ->
  (List.length (py_distinct l) = List.length l <-> NoDup l).
Proof.
  induction l as [|x l IH]; cbn [existsb py_distinct List.length]; intros H.
  - split; [constructor|reflexivity].
  - apply orb_false_iff in H. destruct H as [Hx Hl].
    assert (Hin : existsb (py_eq x) l = true <-> In x l).
    { rewrite existsb_exists. split.
      - intros [y [Hy Heq]]. apply (py_eq_hashable x y Hx) in Heq. now subst.
      - intros Hin. exists x. split; [assumption|].
        now apply (py_eq_hashable x x Hx). }
    destruct (existsb (py_eq x) l) eqn:He.
    + pose proof (py_distinct_length l). split; [lia|].
      intros Hnd. inversion Hnd as [|? ? Hnotin _]; subst.
      destruct Hnotin. now apply Hin.
    + cbn [List.length]. split.
      * intros Hlen. constructor.
        -- intros Hx'. apply Hin in Hx'. discriminate.
        -- apply (IH Hl). lia.
      * intros Hnd. inversion Hnd as [|? ? _ Hnd']; subst.
        f_equal. now apply (IH Hl).
Qed.

(** X22. The vertex attributes [DictList] builds from a list of dicts that
    is not empty: [n] is the number of dicts, there is a column for every
    key that occurs in a dict and for no other, and the column of a key
    holds, for every dict in order, the value of the key, or [None] when
    the dict does not have it. *)
Theorem DictList_vertex_table :
  forall (vertices : list (list (string * val))) (vertex_name_attr : string)
         (vertex_attrs : list (string * list val)) (n : nat),
    vertices <> [] ->
    Forall (fun d => NoDup (map fst d)) vertices ->
    DictList_vertices vertices vertex_name_attr = Ok (vertex_attrs, n) ->
    n = List.length vertices
    /\ forall k,
         (lookup k vertex_attrs = None <->
          forall d, In d vertices -> lookup k d = None)
         /\ (forall column, lookup k vertex_attrs = Some column ->
               column = map (fun d => dict_get d k) vertices).
Proof.
  intros vertices name attrs n Hne Hkeys H.
  destruct (collected_table vertices Hkeys) as [cols [Hcols [Hn Htable]]].
  unfold DictList_vertices in H.
  destruct vertices as [|d vertices]; [congruence|].
  destruct (collect (d :: vertices) 0 [] 0) as [attrs0 n0].
  cbn [fst snd] in Hcols, Hn. subst n0. rewrite Hcols in H.
  cbn [bind] in H.
  destruct (lookup name cols) as [names|]; [|discriminate].
  cbn [bind] in H.
  destruct (existsb unhashable names); [discriminate|].
  destruct (negb _); [discriminate|].
  inversion H; subst. split; [reflexivity|assumption].
Qed.

Lemma DictList_vertex_table_witness :
  exists vertex_attrs,
    DictList_vertices
      [[("name", VStr "a"); ("age", VInt 3)]; [("name", VStr "b")]]%string
      "name" = Ok (vertex_attrs, 2)
    /\ lookup "age" vertex_attrs = Some [VInt 3; VNone]
    /\ forall column, lookup "age" vertex_attrs = Some column ->
                      column = [VInt 3; VNone].
Proof.
  eexists. split; [reflexivity|]. split; [reflexivity|].
  refine (proj2 (proj2 (DictList_vertex_table
            [[("name", VStr "a"); ("age", VInt 3)]; [("name", VStr "b")]]%string
            "name" _ 2 _ _ eq_refl) "age"%string)).
  - discriminate.
  - repeat constructor; simpl; intuition discriminate.
Defined.

(** X23. The check of the vertex names in [DictList], on a list of dicts
    that is not empty: [KeyError] when no dict has the name key; otherwise,
    for names that can be hashed, it passes when the names of the dicts,
    with [None] for a dict without the key, are all different, and raises
    [ValueError] when two are equal, so for two dicts without a name. *)
Theorem DictList_vertex_names :
  forall (vertices : list (list (string * val))) (vertex_name_attr : string),
    vertices <> [] ->
    Forall (fun d => NoDup (map fst d)) vertices ->
    ((forall d, In d vertices -> lookup vertex_name_attr d = None) ->
     DictList_vertices vertices vertex_name_attr = Err AttributeNotFound)
    /\ ((exists d, In d vertices /\ lookup vertex_name_attr d <> None) ->
        existsb unhashable
          (map (fun d => dict_get d vertex_name_attr) vertices) = false ->
        (NoDup (map (fun d => dict_get d vertex_name_attr) vertices) ->
         exists vertex_attrs,
           DictList_vertices vertices vertex_name_attr
           = Ok (vertex_attrs, List.length vertices))
        /\ (~ NoDup (map (fun d => dict_get d vertex_name_attr) vertices) ->
            DictList_vertices vertices vertex_name_attr = Err InvalidOperand)).
Proof.
  intros vertices name Hne Hkeys.
  destruct (collected_table vertices Hkeys) as [cols [Hcols [Hn Htable]]].
  destruct (Htable name) as [Hnone Hsome].
  assert (Hrun : DictList_vertices vertices name
                 = (vertex_names <-
                      match lookup name cols with
                      | Some names => Ok names
                      | None => Err AttributeNotFound
                      end ;;
                    if existsb unhashable vertex_names then Err TypeMismatch
                    else if negb (Nat.eqb (List.length vertex_names)
                                    (List.length (py_distinct vertex_names)))
                         then Err InvalidOperand
                         else Ok (cols, List.length vertices))).
  { unfold DictList_vertices.
    destruct vertices as [|d vertices]; [congruence|].
    destruct (collect (d :: vertices) 0 [] 0) as [attrs0 n0].
    cbn [fst snd] in Hcols, Hn. subst n0. rewrite Hcols. reflexivity. }
  rewrite Hrun. clear Hrun. split.
  - intros Hno. now rewrite (proj2 Hnone Hno).
  - intros [d [Hd Hname]] Hhash.
    destruct (lookup name cols) as [names|] eqn:Hnames.
    2: { destruct Hname. now apply (proj1 Hnone eq_refl). }
    rewrite (Hsome names eq_refl). cbn [bind]. rewrite Hhash.
    pose proof (py_distinct_NoDup _ Hhash) as Hdistinct.
    split.
    + intros Hnd. apply Hdistinct in Hnd. rewrite Hnd, Nat.eqb_refl.
      cbn [negb]. now exists cols.
    + intros Hdup.
      destruct (Nat.eqb_spec
                  (List.length (map (fun d => dict_get d name) vertices))
                  (List.length
                     (py_distinct (map (fun d => dict_get d name) vertices))))
        as [Heq|_]; [|reflexivity].
      destruct Hdup. apply Hdistinct. now symmetry.
Qed.

Lemma DictList_vertex_names_witness :
  DictList_vertices
    [[("name", VStr "a")]; [("age", VInt 1)]; [("age", VInt 5)]]%string "name"
  = Err InvalidOperand.
Proof.
  refine (proj2 (proj2 (DictList_vertex_names
            [[("name", VStr "a")]; [("age", VInt 1)]; [("age", VInt 5)]]%string
            "name" _ _) _ eq_refl) _).
  - discriminate.
  - repeat constructor; simpl; intuition discriminate.
  - eexists. split; [left; reflexivity|discriminate].
  - intros Hnd. inversion Hnd as [|? ? _ Hnd']; subst.
    inversion Hnd' as [|? ? Hnotin _]; subst.
    apply Hnotin. now left.
Defined.

(** * The cluster count of the community methods *)

Section ModularityFacts.

Variable Q : Type.
Variable gt : Q -> Q -> bool.
Variable eq : Q -> Q -> bool.
Hypothesis eq_refl_true : forall x, eq x x = true.
Hypothesis eq_not_gt : forall x y, eq x y = true -> gt y x = false.

Lemma py_max_stays (m : Q) (l : list Q) :
  (forall x, In x l -> gt x m = false) -> py_max Q gt m l = m.
Proof.
  unfold py_max. induction l as [|x l IH]; intros H; cbn [fold_left].
  - reflexivity.
  - rewrite (H x) by (now left). apply IH. intros y Hy. apply H. now right.
Qed.

Lemma py_max_rises (m q : Q) (l l' : list Q) :
  gt q m = true ->
  (forall x, In x l -> gt q x = true) ->
  (forall x, In x l' -> gt x q = false) ->
  py_max Q gt m (l ++ q :: l') = q.
Proof.
  unfold py_max. revert m. induction l as [|x l IH]; intros m Hm Hl Hl';
    cbn [app fold_left].
  - rewrite Hm. now apply py_max_stays.
  - destruct (gt x m); apply IH; try assumption;
      try (intros y Hy; apply Hl; now right).
    apply Hl. now left.
Qed.

Lemma py_index_after (q : Q) (l l' : list Q) :
  (forall x, In x l -> gt q x = true) ->
  py_index Q eq q (l ++ q :: l') = Ok (List.length l).
Proof.
  induction l as [|y l IH]; intros Hl; cbn [app py_index List.length].
  - now rewrite eq_refl_true.
  - destruct (eq y q) eqn:Hy.
    + apply eq_not_gt in Hy. rewrite Hl in Hy by (now left). discriminate.
    + rewrite IH by (intros x Hx; apply Hl; now right). reflexivity.
Qed.

(** The maximum of the reversed list is the last maximum of the list, and
    it is found after the items that come later. *)
Lemma last_maximum (pre post : list Q) (q : Q) :
  (forall x, In x pre -> gt x q = false) ->
  (forall x, In x post -> gt q x = true) ->
  exists q0 rest,
    rev (pre ++ q :: post) = q0 :: rest
    /\ py_index Q eq (py_max Q gt q0 rest) (q0 :: rest)
       = Ok (List.length post).
Proof.
  intros Hpre Hpost.
  assert (Hrev : rev (pre ++ q :: post) = rev post ++ q :: rev pre).
  { rewrite rev_app_distr. cbn [rev]. now rewrite <- app_assoc. }
  assert (Hindex : py_index Q eq q (rev post ++ q :: rev pre)
                   = Ok (List.length post)).
  { rewrite <- (length_rev post). apply py_index_after.
    intros x Hx. apply Hpost. now apply in_rev. }
  assert (Hpre' : forall x, In x (rev pre) -> gt x q = false).
  { intros x Hx. apply Hpre. now apply in_rev. }
  assert (Hpost' : forall x, In x (rev post) -> gt q x = true).
  { intros x Hx. apply Hpost. now apply in_rev. }
  rewrite Hrev. clear Hrev.
  destruct (rev post) as [|y l]; cbn [app] in *.
  - exists q, (rev pre). split; [reflexivity|].
    now rewrite py_max_stays.
  - exists y, (l ++ q :: rev pre). split; [reflexivity|].
    rewrite py_max_rises; try assumption.
    + apply Hpost'. now left.
    + intros x Hx. apply Hpost'. now right.
Qed.

End ModularityFacts.

(** X24. The cluster count the community methods choose. When [q] is a
    maximum of the modularities [qs] and greater than all that come after
    it, [community_fastgreedy] cuts at [vcount] minus the position of [q],
    and [community_walktrap] and [community_edge_betweenness] at the
    number of items from [q] on: of equal maxima the last one counts. *)
Theorem optimal_count_last_maximum :
  forall (Q : Type) (gt eq : Q -> Q -> bool) (pre post : list Q) (q : Q)
         (vcount : nat),
    (forall x, eq x x = true) ->
    (forall x y, eq x y = true -> gt y x = false) ->
    (forall x, In x pre -> gt x q = false) ->
    (forall x, In x post -> gt q x = true) ->
    community_fastgreedy Q gt eq (pre ++ q :: post) vcount
    = Ok (Z.of_nat vcount - Z.of_nat (List.length pre))%Z
    /\ community_walktrap Q gt eq (pre ++ q :: post)
       = Ok (Z.of_nat (List.length post) + 1)%Z
    /\ community_edge_betweenness Q gt eq None (Some (pre ++ q :: post))
       = Ok (Z.of_nat (List.length post) + 1)%Z.
Proof.
  intros Q gt eq pre post q vcount Hrefl Hgt Hpre Hpost.
  destruct (last_maximum Q gt eq Hrefl Hgt pre post q Hpre Hpost)
    as [q0 [rest [Hrev Hindex]]].
  unfold community_fastgreedy, community_walktrap, community_edge_betweenness.
  cbn [option_map]. rewrite Hrev, Hindex. cbn [bind].
  split; [|split; reflexivity].
  f_equal. rewrite length_app. cbn [List.length]. lia.
Qed.

Lemma optimal_count_last_maximum_witness :
  community_fastgreedy Z Z.gtb Z.eqb [1; 5; 3; 5; 2]%Z 7 = Ok 4%Z
  /\ community_walktrap Z Z.gtb Z.eqb [1; 5; 3; 5; 2]%Z = Ok 2%Z.
Proof.
  destruct (optimal_count_last_maximum Z Z.gtb Z.eqb [1; 5; 3]%Z [2]%Z 5%Z 7)
    as [H1 [H2 _]].
  - intros x. apply Z.eqb_refl.
  - intros x y H. apply Z.eqb_eq in H. subst. rewrite Z.gtb_ltb.
    apply Z.ltb_irrefl.
  - intros x [<-|[<-|[<-|[]]]]; reflexivity.
  - intros x [<-|[]]. reflexivity.
  - split; [exact H1|exact H2].
Defined.

(** X25. Without modularities [community_fastgreedy] cuts at [vcount]
    clusters, and [community_walktrap] and [community_edge_betweenness] at
    one, also when the engine gives [None] for them; a cluster count given
    to [community_edge_betweenness] is used as it is. *)
Theorem optimal_count_without_modularities :
  forall (Q : Type) (gt eq : Q -> Q -> bool) (vcount : nat),
    community_fastgreedy Q gt eq [] vcount = Ok (Z.of_nat vcount)
    /\ community_walktrap Q gt eq [] = Ok 1%Z
    /\ community_edge_betweenness Q gt eq None (Some []) = Ok 1%Z
    /\ community_edge_betweenness Q gt eq None None = Ok 1%Z
    /\ forall c qs, community_edge_betweenness Q gt eq (Some c) qs = Ok c.
Proof.
  intros Q gt eq vcount. split; [|repeat split].
  unfold community_fastgreedy. cbn [rev List.length]. f_equal. lia.
Qed.

(** * The operators of [Graph] *)

(** X26. Whenever [+=] or [-=] is implemented for an operand, [+] or [-]
    makes the same calls on a copy of the graph; where the in-place
    operator returns [NotImplemented], the other one does so too, or
    returns what [disjoint_union] or [difference] gives for a graph, or,
    for [-] with a string, deletes the vertex of that name. *)
Theorem inplace_operators_agree :
  forall other : operand,
    (forall calls, Graph_iadd other = OnSelf calls ->
                   Graph_add other = OnCopy calls)
    /\ (forall calls, Graph_isub other = OnSelf calls ->
                      Graph_sub other = OnCopy calls)
    /\ (Graph_iadd other = NotImplemented ->
        Graph_add other = NotImplemented
        \/ Graph_add other = Returned (disjoint_union other))
    /\ (Graph_isub other = NotImplemented ->
        Graph_sub other = NotImplemented
        \/ Graph_sub other = Returned (difference other)
        \/ Graph_sub other = OnCopy [delete_vertices (OList [other])]).
Proof.
  intros other.
  destruct other as [z|s|elems|elems| | | | | |];
    try (destruct elems as [|elem0 [|elem1 [|elem2 elems]]]);
    try (destruct elem0);
    cbn [Graph_iadd Graph_add Graph_isub Graph_sub];
    (split; [|split; [|split]]);
    try (intros calls H; inversion H; reflexivity);
    try (intros H; discriminate H);
    try (intros _; left; reflexivity);
    try (intros _; right; left; reflexivity);
    try (intros _; right; right; reflexivity);
    try (intros _; right; reflexivity).
Qed.

Lemma inplace_operators_agree_witness :
  Graph_sub (OList [OInt 1; OInt 2])
  = OnCopy [delete_vertices (OList [OInt 1; OInt 2])]
  /\ Graph_add (OTuple [OInt 0; OInt 1])
     = OnCopy [add_edges (OList [OTuple [OInt 0; OInt 1]])].
Proof.
  split.
  - apply (proj1 (proj2 (inplace_operators_agree (OList [OInt 1; OInt 2])))).
    reflexivity.
  - apply (proj1 (inplace_operators_agree (OTuple [OInt 0; OInt 1]))).
    reflexivity.
Defined.
